(** * MAST structural element base: residual assembly, load dispatch and
      local/global transformations

    Shallow embedding of [src/elasticity/structural_element_base.cpp].

    Modelling conventions.
    - [Real] is an abstract scalar type with ring operations (class
      [Scalar]); the algebraic laws (class [ScalarLaws]) are only assumed by
      the theorems that need them.  Rounding is not modelled: results that
      the code obtains "to numerical tolerance" are stated exactly.
    - The template parameter [ValType] (Real or Complex) is the class
      [ValType]: a value type that can be added and scaled by a Real.
    - Eigen vectors are lists, Eigen matrices are a size together with a
      coefficient function.  A freshly sized Eigen object is taken to be
      zero filled, which is what the accumulations ([local_f += ...]) of the
      source rely on.  A vector declared without a size has no entries, and
      writing a coefficient past the end of a vector ends the computation.
    - [libmesh_error()] is the fatal outcome of a small state-and-error
      monad; [libmesh_assert] is fatal only in builds that keep assertions
      (class [BuildMode]). *)

From Stdlib Require Import List Arith ZArith Lia Bool Ring.
From Stdlib Require Import Permutation.
Import ListNotations.

Set Implicit Arguments.

(** ** Scalars and value types *)

Class Scalar (R : Type) : Type := {
  r0 : R;
  r1 : R;
  radd : R -> R -> R;
  rmul : R -> R -> R;
  rsub : R -> R -> R;
  ropp : R -> R;
  rdiv : R -> R -> R;
  rnat : nat -> R
}.

Class ScalarLaws (R : Type) {SR : Scalar R} : Prop := {
  ring_laws : ring_theory r0 r1 radd rmul rsub ropp (@eq R)
}.

Arguments ScalarLaws R {SR}.

(** [ValType]: what the templated routines need from their value type:
    a zero, addition, and the product with a Real. *)
Class ValType (R V : Type) : Type := {
  v0 : V;
  vadd : V -> V -> V;
  vscale : R -> V -> V
}.

(** [MAST::add_to_assembled_vector] (numerics/utility.h) is not part of the
    sources at hand; it is a parameter of the routines that call it. *)
Class AssembledVector (R V : Type) : Type := {
  add_to_assembled_vector : list R -> list V -> list R
}.

(** Build configuration: [libmesh_assert] and friends expand to nothing when
    assertions are compiled out. *)
Class BuildMode : Type := {
  asserts_enabled : bool
}.

#[global] Instance RealVal {R : Type} {SR : Scalar R} : ValType R R := {|
  v0 := r0;
  vadd := radd;
  vscale := rmul
|}.

#[global] Instance ComplexVal {R : Type} {SR : Scalar R} : ValType R (R * R) := {|
  v0 := (r0, r0);
  vadd := fun x y => (radd (fst x) (fst y), radd (snd x) (snd y));
  vscale := fun a x => (rmul a (fst x), rmul a (snd x))
|}.

(** Exact integer arithmetic, used to run the model on concrete inputs. *)
#[global] Instance Z_Scalar : Scalar Z := {|
  r0 := 0%Z;
  r1 := 1%Z;
  radd := Z.add;
  rmul := Z.mul;
  rsub := Z.sub;
  ropp := Z.opp;
  rdiv := Z.div;
  rnat := Z.of_nat
|}.

#[global] Instance Z_ScalarLaws : ScalarLaws Z := {|
  ring_laws := Zth
|}.

(** ** The state-and-error monad *)

Inductive outcome (S A : Type) : Type :=
| Ok (a : A) (s : S)
| Fatal (s : S).

Arguments Ok {S A} a s.
Arguments Fatal {S A} s.

Definition M (S A : Type) : Type := S -> outcome S A.

Definition ret {S A : Type} (a : A) : M S A := fun s => Ok a s.

Definition bind {S A B : Type} (c : M S A) (k : A -> M S B) : M S B :=
  fun s => match c s with
           | Ok a s' => k a s'
           | Fatal s' => Fatal s'
           end.

Notation "x <- c ;; k" := (bind c (fun x => k))
  (at level 61, c at next level, right associativity).
Notation "c ;;; k" := (bind c (fun _ => k))
  (at level 61, right associativity).

Definition get_state {S : Type} : M S S := fun s => Ok s s.
Definition put_state {S : Type} (s : S) : M S unit := fun _ => Ok tt s.

(** [libmesh_error()]: the computation stops; the state is the one reached
    when the error was raised. *)
Definition libmesh_error {S A : Type} : M S A := fun s => Fatal s.

Definition libmesh_assert {BM : BuildMode} {S : Type} (asserted : bool) : M S unit :=
  if asserts_enabled then (if asserted then ret tt else libmesh_error)
  else ret tt.

Definition libmesh_assert_equal_to {BM : BuildMode} {S : Type} (a b : nat) : M S unit :=
  libmesh_assert (a =? b).

Definition is_fatal {S A : Type} (o : outcome S A) : bool :=
  match o with
  | Ok _ _ => false
  | Fatal _ => true
  end.

(** Monadic left fold: the [for] loops whose body can raise an error. *)
Fixpoint foldM {S A B : Type} (body : A -> B -> M S A) (l : list B) (a : A) : M S A :=
  match l with
  | [] => ret a
  | x :: l' => a' <- body a x ;; foldM body l' a'
  end.

(** ** Vectors (Eigen column vectors) *)

Section Vectors.
Context {R V : Type} {SR : Scalar R} {VT : ValType R V}.

(** [Vector x(n)] *)
Definition vzero (n : nat) : list V := repeat v0 n.

(** [x(i)] as an rvalue *)
Definition vget (x : list V) (i : nat) : V := nth i x v0.

(** [x(i) = a]; a write outside the vector is outside the model and
    leaves the vector as it is. *)
Fixpoint vset (x : list V) (i : nat) (a : V) : list V :=
  match x, i with
  | [], _ => []
  | _ :: x', O => a :: x'
  | b :: x', S i' => b :: vset x' i' a
  end.

(** [dst += src]: coefficientwise over the destination. *)
Definition vec_add_assign (dst src : list V) : list V :=
  map (fun i => vadd (vget dst i) (vget src i)) (seq 0 (length dst)).

(** [a * x] for a Real [a] *)
Definition vec_scale (a : R) (x : list V) : list V := map (vscale a) x.

(** Sum of [f 0 .. f (n-1)] *)
Fixpoint vsum (f : nat -> V) (n : nat) : V :=
  match n with
  | O => v0
  | S n' => vadd (vsum f n') (f n')
  end.
End Vectors.

(** ** Matrices (Eigen dense matrices of Reals) *)

Record Matrix (R : Type) : Type := {
  nrows : nat;
  ncols : nat;
  coef : nat -> nat -> R
}.

Section Matrices.
Context {R : Type} {SR : Scalar R}.

(** [Matrix m(r, c)] *)
Definition mzero (r c : nat) : Matrix R :=
  {| nrows := r; ncols := c; coef := fun _ _ => r0 |}.

(** [m(i, j) = a] *)
Definition mset (m : Matrix R) (i j : nat) (a : R) : Matrix R :=
  if (i <? nrows m) && (j <? ncols m) then
    {| nrows := nrows m; ncols := ncols m;
       coef := fun i' j' => if (i' =? i) && (j' =? j) then a else coef m i' j' |}
  else m.

Definition mat_transpose (m : Matrix R) : Matrix R :=
  {| nrows := ncols m; ncols := nrows m; coef := fun i j => coef m j i |}.

(** [a * b] *)
Definition mat_mul (a b : Matrix R) : Matrix R :=
  {| nrows := nrows a; ncols := ncols b;
     coef := fun i j => vsum (fun k => rmul (coef a i k) (coef b k j)) (ncols a) |}.

(** [s * m] *)
Definition mat_scale (s : R) (m : Matrix R) : Matrix R :=
  {| nrows := nrows m; ncols := ncols m; coef := fun i j => rmul s (coef m i j) |}.

(** [dst += src] *)
Definition mat_add_assign (dst src : Matrix R) : Matrix R :=
  {| nrows := nrows dst; ncols := ncols dst;
     coef := fun i j => radd (coef dst i j) (coef src i j) |}.

(** [m * x] for a Real matrix and a vector of values *)
Definition mat_vec {V : Type} {VT : ValType R V} (m : Matrix R) (x : list V) : list V :=
  map (fun i => vsum (fun j => vscale (coef m i j) (vget x j)) (ncols m))
      (seq 0 (nrows m)).
End Matrices.

(** ** Geometry and finite-element data *)

(** [libMesh::Point]: three Real coordinates. *)
Record Point (R : Type) : Type := {
  px : R;
  py : R;
  pz : R
}.

Section Geometry.
Context {R : Type} {SR : Scalar R}.

(** [libMesh::Point p;] *)
Definition origin : Point R := {| px := r0; py := r0; pz := r0 |}.

(** [p(i)]; an index past the third coordinate is outside the model and
    reads as zero. *)
Definition pget (p : Point R) (i : nat) : R :=
  match i with
  | 0 => px p
  | 1 => py p
  | 2 => pz p
  | _ => r0
  end.

(** [p(i) = a] *)
Definition pset (p : Point R) (i : nat) (a : R) : Point R :=
  match i with
  | 0 => {| px := a; py := py p; pz := pz p |}
  | 1 => {| px := px p; py := a; pz := pz p |}
  | 2 => {| px := px p; py := py p; pz := a |}
  | _ => p
  end.
End Geometry.

(** What the routines read from a [libMesh::FEBase] after [reinit]:
    quadrature weights, quadrature point locations, shape function values
    [phi[i_nd][qp]] and, on a side, the face normals. *)
Record FE (R : Type) : Type := {
  get_JxW : list R;
  get_xyz : list (Point R);
  get_phi : list (list R);
  get_normals : list (Point R)
}.

(** [fe->n_shape_functions()]: the number of rows of [phi]. *)
Definition n_shape_functions {R : Type} (fe : FE R) : nat := length (get_phi fe).

(** Modelled from the spec: [MAST::FEMOperatorMatrix]
    (numerics/fem_operator_matrix.h) is missing from the sources; it is the
    "shape-function operator" B of the spec: after [reinit(n_vars, phi_vec)]
    B has [n_vars] rows and [n_vars * phi_vec.size()] columns, and row [i]
    carries the shape functions in the columns of variable [i]:
    [B(i, i * n + k) = phi_vec(k)].  The degrees of freedom are ordered
    variable by variable, as in the transformation matrices of this file. *)
Record FEMOperatorMatrix (R : Type) : Type := {
  n_interpolated_vars : nat;
  shape_func : list R
}.

Section Operator.
Context {R : Type} {SR : Scalar R}.

Definition reinit (n_vars : nat) (phi_vec : list R) : FEMOperatorMatrix R :=
  {| n_interpolated_vars := n_vars; shape_func := phi_vec |}.

Definition n_dofs_per_var (B : FEMOperatorMatrix R) : nat := length (shape_func B).

(** [B.vector_mult_transpose(res, v)]: [res = B^T v] *)
Definition vector_mult_transpose {V : Type} {VT : ValType R V}
    (B : FEMOperatorMatrix R) (v : list V) : list V :=
  flat_map (fun i => map (fun phi_k => vscale phi_k (vget v i)) (shape_func B))
           (seq 0 (n_interpolated_vars B)).

(** [B.left_multiply(res, m)]: [res = m B] *)
Definition left_multiply (B : FEMOperatorMatrix R) (m : Matrix R) : Matrix R :=
  {| nrows := nrows m;
     ncols := n_interpolated_vars B * n_dofs_per_var B;
     coef := fun a c =>
       rmul (coef m a (c / n_dofs_per_var B))
            (vget (shape_func B) (c mod n_dofs_per_var B)) |}.

(** [B.right_multiply_transpose(res, m)]: [res = B^T m] *)
Definition right_multiply_transpose (B : FEMOperatorMatrix R) (m : Matrix R) : Matrix R :=
  {| nrows := n_interpolated_vars B * n_dofs_per_var B;
     ncols := ncols m;
     coef := fun r c =>
       rmul (vget (shape_func B) (r mod n_dofs_per_var B))
            (coef m (r / n_dofs_per_var B) c) |}.
End Operator.

(** ** Boundary conditions *)

(** [MAST::BoundaryConditionType].  The enumeration is declared in
    base/boundary_condition_base.h; the four enumerators named in this file
    are kept, [OTHER_BC_TYPE] stands for every other enumerator. *)
Inductive BoundaryConditionType : Type :=
| SURFACE_PRESSURE
| TEMPERATURE
| SMALL_DISTURBANCE_MOTION
| DIRICHLET
| OTHER_BC_TYPE (tag : nat).

(** A boundary condition: its type tag and the field functions the handlers
    fetch by name ([bc.get<...>("pressure")], ["dpressure"], ["dnormal"]).
    A field function maps a point and a time to its value. *)
Record BoundaryConditionBase (R V : Type) : Type := {
  bc_type : BoundaryConditionType;
  pressure : Point R -> R -> R;
  dpressure : Point R -> R -> V;
  dnormal : Point R -> R -> list V
}.

(** [std::multimap<id, BoundaryConditionBase*>]: entries in key order, equal
    keys in insertion order; only the entries of one key are ever read. *)
Definition multimap (K A : Type) : Type := list (K * A).

(** [bc.equal_range(id)] *)
Definition equal_range {A : Type} (bc : multimap nat A) (id : nat) : list A :=
  map snd (filter (fun e => fst e =? id) bc).

(** ** The element *)

(** [libMesh::Elem] with the boundary ids the mesh's [BoundaryInfo] holds
    for each of its sides. *)
Record Elem : Type := {
  dim : nat;
  n_sides : nat;
  subdomain_id : nat;
  boundary_ids : nat -> list nat
}.

(** [MAST::LocalElemBase] *)
Record LocalElemBase (R : Type) : Type := {
  T_matrix : Matrix R;
  global_coordinates_location : Point R -> Point R
}.

(** [MAST::ElementPropertyCardBase] *)
Record ElementPropertyCardBase (R : Type) : Type := {
  inertia_matrix : Point R -> R -> Matrix R;
  if_diagonal_mass_matrix : bool
}.

(** The residual and Jacobian buffers a load routine adds to. *)
Record LoadState (R : Type) : Type := {
  f : list R;
  jac : Matrix R
}.

(** The immutable part of [MAST::StructuralElementBase].
    [side_fe_quadrature side] and [side_fe_local side] are the side finite
    elements [_get_side_fe_and_qrule] returns for
    [get_elem_for_quadrature()] and for [local_elem().local_elem()].
    [thermal_residual] is the virtual member the derived elements define. *)
Record StructuralElementBase (R : Type) : Type := {
  _elem : Elem;
  _fe : FE R;
  _local_elem : LocalElemBase R;
  _property : ElementPropertyCardBase R;
  _time : R;
  n_vars : nat;
  follower_forces : bool;
  side_fe_quadrature : nat -> FE R;
  side_fe_local : nat -> FE R;
  thermal_residual :
    forall V : Type, bool -> BoundaryConditionBase R V -> M (LoadState R) bool
}.

(** The cached vectors of the element.  [base] is the state of the parent
    class [MAST::ElementBase], whose setters are not part of the sources. *)
Record ElementState (R B : Type) : Type := {
  base : B;
  _local_sol : list R;
  _local_vel : list R;
  _local_accel : list R;
  _local_base_sol : list R
}.

Record ElementBaseSetters (R B : Type) : Type := {
  ElementBase_set_solution : list R -> bool -> B -> B;
  ElementBase_set_velocity : list R -> bool -> B -> B;
  ElementBase_set_base_solution : list R -> bool -> B -> B
}.

(** ** Local/global transformations *)

Section Transformations.
Context {R : Type} {SR : Scalar R} {BM : BuildMode}.
Variable el : StructuralElementBase R.

(** The loop shared by the three transformation routines ("now initialize
    the global T matrix"): the 3x3 matrix [Tmat] is written once per node
    for the translations u,v,w and once for the rotations tx,ty,tz. *)
Definition init_global_T_matrix (n_dofs : nat) (Tmat mat : Matrix R) : Matrix R :=
  fold_left (fun mat i =>
    fold_left (fun mat j =>
      fold_left (fun mat k =>
        let mat := mset mat (j * n_dofs + i) (k * n_dofs + i) (coef Tmat j k) in
        mset mat ((j + 3) * n_dofs + i) ((k + 3) * n_dofs + i) (coef Tmat j k))
        (seq 0 3) mat)
      (seq 0 3) mat)
    (seq 0 n_dofs) mat.

Definition global_T_matrix : Matrix R :=
  let n_dofs := n_shape_functions (_fe el) in
  init_global_T_matrix n_dofs (T_matrix (_local_elem el))
                       (mzero (6 * n_dofs) (6 * n_dofs)).

(** [transform_matrix_to_global_system(local_mat, global_mat)] *)
Definition transform_matrix_to_global_system {S : Type}
    (local_mat global_mat : Matrix R) : M S (Matrix R) :=
  libmesh_assert_equal_to (nrows local_mat) (ncols local_mat) ;;;
  libmesh_assert_equal_to (nrows global_mat) (ncols global_mat) ;;;
  libmesh_assert_equal_to (nrows local_mat) (nrows global_mat) ;;;
  let mat := global_T_matrix in
  (* right multiply with T^T, and left multiply with T. *)
  ret (mat_mul (mat_mul mat local_mat) (mat_transpose mat)).

(** [transform_vector_to_local_system(global_vec, local_vec)]; the value
    returned is the new content of [local_vec] (the routine zeroes the
    buffer, then assigns the product to it). *)
Definition transform_vector_to_local_system {S V : Type} {VT : ValType R V}
    (global_vec local_vec : list V) : M S (list V) :=
  libmesh_assert_equal_to (length local_vec) (length global_vec) ;;;
  let mat := global_T_matrix in
  (* left multiply with T^T *)
  ret (mat_vec (mat_transpose mat) global_vec).

(** [transform_vector_to_global_system(local_vec, global_vec)]; the value
    returned is the new content of [global_vec] (zeroed, then assigned the
    product). *)
Definition transform_vector_to_global_system {S V : Type} {VT : ValType R V}
    (local_vec global_vec : list V) : M S (list V) :=
  libmesh_assert_equal_to (length local_vec) (length global_vec) ;;;
  let mat := global_T_matrix in
  (* left multiply with T *)
  ret (mat_vec mat local_vec).

(** ** Solution setters *)

Section Setters.
Context {B : Type}.
Variable parent : ElementBaseSetters R B.

Definition set_solution (vec : list R) (if_sens : bool) : M (ElementState R B) unit :=
  (if negb if_sens then
     st <- get_state ;;
     local <- transform_vector_to_local_system vec (_local_sol st) ;;
     put_state {| base := base st; _local_sol := local;
                  _local_vel := _local_vel st; _local_accel := _local_accel st;
                  _local_base_sol := _local_base_sol st |}
   else libmesh_error) ;;;
  st <- get_state ;;
  put_state {| base := ElementBase_set_solution parent vec if_sens (base st);
               _local_sol := _local_sol st; _local_vel := _local_vel st;
               _local_accel := _local_accel st;
               _local_base_sol := _local_base_sol st |}.

Definition set_velocity (vec : list R) (if_sens : bool) : M (ElementState R B) unit :=
  (if negb if_sens then
     st <- get_state ;;
     local <- transform_vector_to_local_system vec (_local_vel st) ;;
     put_state {| base := base st; _local_sol := _local_sol st;
                  _local_vel := local; _local_accel := _local_accel st;
                  _local_base_sol := _local_base_sol st |}
   else libmesh_error) ;;;
  st <- get_state ;;
  put_state {| base := ElementBase_set_velocity parent vec if_sens (base st);
               _local_sol := _local_sol st; _local_vel := _local_vel st;
               _local_accel := _local_accel st;
               _local_base_sol := _local_base_sol st |}.

Definition set_base_solution (vec : list R) (if_sens : bool) : M (ElementState R B) unit :=
  (if negb if_sens then
     st <- get_state ;;
     local <- transform_vector_to_local_system vec (_local_base_sol st) ;;
     put_state {| base := base st; _local_sol := _local_sol st;
                  _local_vel := _local_vel st; _local_accel := _local_accel st;
                  _local_base_sol := local |}
   else libmesh_error) ;;;
  st <- get_state ;;
  put_state {| base := ElementBase_set_base_solution parent vec if_sens (base st);
               _local_sol := _local_sol st; _local_vel := _local_vel st;
               _local_accel := _local_accel st;
               _local_base_sol := _local_base_sol st |}.
End Setters.
End Transformations.

(** ** Inertial residual *)

(** The output buffers of [inertial_residual]. *)
Record InertialBuffers (R : Type) : Type := {
  i_f : list R;
  i_jac_xddot : Matrix R;
  i_jac_xdot : Matrix R;
  i_jac : Matrix R
}.

(** The local variables of [inertial_residual] that outlive a loop
    iteration, and the points at which the inertia field function
    [mat_inertia] was evaluated, in call order. *)
Record InertialLocals (R : Type) : Type := {
  vec2_n2 : list R;
  local_f : list R;
  local_jac : Matrix R;
  inertia_evaluations : list (Point R)
}.

Section Inertia.
Context {R : Type} {SR : Scalar R} {BM : BuildMode}.
Variable el : StructuralElementBase R.
Variable local_accel : list R.

(** [phi[i_nd][qp]] *)
Definition phi_at (fe : FE R) (i_nd qp : nat) : R :=
  vget (nth i_nd (get_phi fe) []) qp.

(** "now set the shape function values" *)
Definition set_shape_function_values (fe : FE R) (qp : nat) (phi_vec : list R) : list R :=
  fold_left (fun phi_vec i_nd => vset phi_vec i_nd (phi_at fe i_nd qp))
            (seq 0 (length (get_phi fe))) phi_vec.

Definition inertial_locals_init : InertialLocals R :=
  let n2 := 6 * length (get_phi (_fe el)) in
  {| vec2_n2 := vzero n2; local_f := vzero n2; local_jac := mzero n2 n2;
     inertia_evaluations := [] |}.

(** The branch taken when [_property.if_diagonal_mass_matrix()] holds. *)
Definition inertial_lumped (l : InertialLocals R) : InertialLocals R :=
  let JxW := get_JxW (_fe el) in
  let xyz := get_xyz (_fe el) in
  (* as an approximation, get matrix at the first quadrature point *)
  let p := global_coordinates_location (_local_elem el) (nth 0 xyz origin) in
  let material_mat := inertia_matrix (_property el) p (_time el) in
  let nshp := n_shape_functions (_fe el) in
  let vol := fold_left (fun vol i => radd vol (vget JxW i)) (seq 0 (length JxW)) r0 in
  let vol := rdiv vol (rmul r1 (rnat nshp)) in
  let local_jac :=
    fold_left (fun local_jac i_var =>
      fold_left (fun local_jac i =>
        mset local_jac (i_var * nshp + i) (i_var * nshp + i)
             (rmul vol (coef material_mat i_var i_var)))
        (seq 0 nshp) local_jac)
      (seq 0 6) (local_jac l) in
  {| vec2_n2 := vec2_n2 l;
     local_f := mat_vec local_jac local_accel;
     local_jac := local_jac;
     inertia_evaluations := inertia_evaluations l ++ [p] |}.

(** One iteration of the quadrature loop of the other branch. *)
Definition inertial_consistent_qp (request_jacobian : bool)
    (l : InertialLocals R) (qp : nat) : InertialLocals R :=
  let JxW := get_JxW (_fe el) in
  let xyz := get_xyz (_fe el) in
  let n_phi := length (get_phi (_fe el)) in
  let p := global_coordinates_location (_local_elem el) (nth 0 xyz origin) in
  let material_mat := inertia_matrix (_property el) p (_time el) in
  let phi_vec := set_shape_function_values (_fe el) qp (vzero n_phi) in
  let Bmat := reinit (n_vars el) phi_vec in
  let mat1_n1n2 := left_multiply Bmat material_mat in
  let vec1_n1 := mat_vec mat1_n1n2 local_accel in
  let vec2_n2 := vector_mult_transpose Bmat vec1_n1 in
  let local_f := vec_add_assign (local_f l) (vec_scale (vget JxW qp) vec2_n2) in
  let local_jac :=
    if request_jacobian then
      let mat2_n2n2 := right_multiply_transpose Bmat mat1_n1n2 in
      mat_add_assign (local_jac l) (mat_scale (vget JxW qp) mat2_n2n2)
    else local_jac l in
  {| vec2_n2 := vec2_n2; local_f := local_f; local_jac := local_jac;
     inertia_evaluations := inertia_evaluations l ++ [p] |}.

Definition inertial_consistent (request_jacobian : bool)
    (l : InertialLocals R) : InertialLocals R :=
  fold_left (inertial_consistent_qp request_jacobian)
            (seq 0 (length (get_JxW (_fe el)))) l.

(** The element-local part of [inertial_residual]: everything before
    "now transform to the global coordinate system". *)
Definition inertial_local (request_jacobian : bool) : InertialLocals R :=
  if if_diagonal_mass_matrix (_property el)
  then inertial_lumped inertial_locals_init
  else inertial_consistent request_jacobian inertial_locals_init.

Definition inertial_residual (request_jacobian : bool) : M (InertialBuffers R) bool :=
  let l := inertial_local request_jacobian in
  let n2 := 6 * length (get_phi (_fe el)) in
  (* now transform to the global coordinate system *)
  (if dim (_elem el) <? 3 then
     vec2 <- transform_vector_to_global_system el (local_f l) (vec2_n2 l) ;;
     b <- get_state ;;
     put_state {| i_f := vec_add_assign (i_f b) vec2; i_jac_xddot := i_jac_xddot b;
                  i_jac_xdot := i_jac_xdot b; i_jac := i_jac b |} ;;;
     if request_jacobian then
       mat2 <- transform_matrix_to_global_system el (local_jac l) (mzero n2 n2) ;;
       b <- get_state ;;
       put_state {| i_f := i_f b;
                    i_jac_xddot := mat_add_assign (i_jac_xddot b) mat2;
                    i_jac_xdot := i_jac_xdot b; i_jac := i_jac b |}
     else ret tt
   else
     b <- get_state ;;
     put_state {| i_f := vec_add_assign (i_f b) (local_f l);
                  i_jac_xddot :=
                    if request_jacobian
                    then mat_add_assign (i_jac_xddot b) (local_jac l)
                    else i_jac_xddot b;
                  i_jac_xdot := i_jac_xdot b; i_jac := i_jac b |}) ;;;
  ret request_jacobian.
End Inertia.

(** ** Surface pressure residuals *)

(** The local variables of a pressure routine that outlive an iteration of
    its quadrature loop ([phi_vec] is overwritten in full by every
    iteration that uses it). *)
Record PressureLocals (V : Type) : Type := {
  p_force : list V;
  p_vec_n2 : list V;
  p_local_f : list V
}.

Section Pressure.
Context {R : Type} {SR : Scalar R} {BM : BuildMode}.
Variable el : StructuralElementBase R.

Definition n1 : nat := 3.

Definition pressure_locals_init {V : Type} {VT : ValType R V} (n_phi : nat)
    : PressureLocals V :=
  {| p_force := vzero (2 * n1); p_vec_n2 := vzero (6 * n_phi);
     p_local_f := vzero (6 * n_phi) |}.

(** "calculate force" of the steady routines:
    [force(i_dim) = press * normal(i_dim)] for the three directions. *)
Definition pressure_force (press : R) (normal : Point R) (force : list R) : list R :=
  fold_left (fun force i_dim => vset force i_dim (rmul press (pget normal i_dim)))
            (seq 0 n1) force.

(** One quadrature point of a steady pressure routine; [normal_at qp] is
    the direction the pressure acts along at that point. *)
Definition surface_pressure_qp {V : Type} (fe : FE R) (phi_vec0 : list R)
    (normal_at : nat -> Point R) (bc : BoundaryConditionBase R V)
    (l : PressureLocals R) (qp : nat) : PressureLocals R :=
  let pt := global_coordinates_location (_local_elem el) (nth qp (get_xyz fe) origin) in
  let phi_vec := set_shape_function_values fe qp phi_vec0 in
  let Bmat := reinit (2 * n1) phi_vec in
  (* get pressure value *)
  let press := pressure bc pt (_time el) in
  let force := pressure_force press (normal_at qp) (p_force l) in
  let vec_n2 := vector_mult_transpose Bmat force in
  {| p_force := force; p_vec_n2 := vec_n2;
     p_local_f := vec_add_assign (p_local_f l)
                                 (vec_scale (vget (get_JxW fe) qp) vec_n2) |}.

(** [surface_pressure_residual(request_jacobian, f, jac, side, bc)] *)
Definition surface_pressure_residual_side {V : Type} (request_jacobian : bool)
    (side : nat) (bc : BoundaryConditionBase R V) : M (LoadState R) bool :=
  libmesh_assert (negb (follower_forces el)) ;;;
  let fe := side_fe_quadrature el side in
  let n_phi := length (get_phi fe) in
  let l := fold_left
             (surface_pressure_qp fe (vzero n_phi)
                (fun qp => nth qp (get_normals fe) origin) bc)
             (seq 0 (length (get_xyz fe))) (pressure_locals_init n_phi) in
  (* now transform to the global system and add *)
  (if dim (_elem el) <? 3 then
     vec_n2 <- transform_vector_to_global_system el (p_local_f l) (p_vec_n2 l) ;;
     st <- get_state ;;
     put_state {| f := vec_add_assign (f st) vec_n2; jac := jac st |}
   else
     st <- get_state ;;
     put_state {| f := vec_add_assign (f st) (p_local_f l); jac := jac st |}) ;;;
  ret (request_jacobian && follower_forces el).

(** The assumed direction of the pressure on a lower dimensional element:
    [normal(_elem.dim()) = -1.] *)
Definition assumed_normal : Point R := pset origin (dim (_elem el)) (ropp r1).

(** [surface_pressure_residual(request_jacobian, f, jac, bc)] *)
Definition surface_pressure_residual {V : Type} (request_jacobian : bool)
    (bc : BoundaryConditionBase R V) : M (LoadState R) bool :=
  libmesh_assert (dim (_elem el) <? 3) ;;;
  libmesh_assert (negb (follower_forces el)) ;;;
  let fe := _fe el in
  let n_phi := length (get_phi fe) in
  let normal := assumed_normal in
  let l := fold_left
             (surface_pressure_qp fe (vzero n_phi) (fun _ => normal) bc)
             (seq 0 (length (get_xyz fe))) (pressure_locals_init n_phi) in
  (* now transform to the global system and add *)
  vec_n2 <- transform_vector_to_global_system el (p_local_f l) (p_vec_n2 l) ;;
  st <- get_state ;;
  put_state {| f := vec_add_assign (f st) vec_n2; jac := jac st |} ;;;
  ret (request_jacobian && follower_forces el).

(** *** Small-disturbance pressure, for any value type *)

Section SmallDisturbance.
Context {V : Type} {VT : ValType R V} {AV : AssembledVector R V}.

(** "calculate force":
    [force(i_dim) = press * dn_rot(i_dim) + dpress * normal(i_dim)] *)
Definition small_disturbance_force (press : R) (dpress : V) (dn_rot : list V)
    (normal : Point R) (force : list V) : list V :=
  fold_left (fun force i_dim =>
               vset force i_dim
                    (vadd (vscale press (vget dn_rot i_dim))        (* steady pressure *)
                          (vscale (pget normal i_dim) dpress)))     (* unsteady pressure *)
            (seq 0 n1) force.

Definition small_disturbance_qp (fe : FE R) (phi_vec0 : list R)
    (normal_at : nat -> Point R) (bc : BoundaryConditionBase R V)
    (l : PressureLocals V) (qp : nat) : PressureLocals V :=
  let pt := global_coordinates_location (_local_elem el) (nth qp (get_xyz fe) origin) in
  let phi_vec := set_shape_function_values fe qp phi_vec0 in
  let Bmat := reinit (2 * n1) phi_vec in
  (* get pressure and deformation information *)
  let press := pressure bc pt (_time el) in
  let dpress := dpressure bc pt (_time el) in
  let dn_rot := dnormal bc pt (_time el) in
  let force := small_disturbance_force press dpress dn_rot (normal_at qp) (p_force l) in
  let vec_n2 := vector_mult_transpose Bmat force in
  {| p_force := force; p_vec_n2 := vec_n2;
     p_local_f := vec_add_assign (p_local_f l)
                                 (vec_scale (vget (get_JxW fe) qp) vec_n2) |}.

(** The quadrature loop of the side variant. *)
Definition small_disturbance_side_loop (side : nat)
    (bc : BoundaryConditionBase R V) (n_qp : nat) : PressureLocals V :=
  let fe := side_fe_local el side in
  let n_phi := length (get_phi fe) in
  fold_left
    (small_disturbance_qp fe (vzero n_phi)
       (fun qp => nth qp (get_normals fe) origin) bc)
    (seq 0 n_qp) (pressure_locals_init n_phi).

(** [small_disturbance_surface_pressure_residual<ValType>
     (request_jacobian, f, jac, side, bc)] *)
Definition small_disturbance_surface_pressure_residual_side
    (request_jacobian : bool) (side : nat) (bc : BoundaryConditionBase R V)
    : M (LoadState R) bool :=
  libmesh_assert (negb (follower_forces el)) ;;;
  libmesh_assert (match bc_type bc with SMALL_DISTURBANCE_MOTION => true | _ => false end) ;;;
  let fe := side_fe_local el side in
  let l := small_disturbance_side_loop side bc (length (get_xyz fe)) in
  (* now transform to the global system and add *)
  (if dim (_elem el) <? 3 then
     vec_n2 <- transform_vector_to_global_system el (p_local_f l) (p_vec_n2 l) ;;
     st <- get_state ;;
     put_state {| f := add_to_assembled_vector (f st) vec_n2; jac := jac st |}
   else
     st <- get_state ;;
     put_state {| f := add_to_assembled_vector (f st) (p_local_f l); jac := jac st |}) ;;;
  ret (request_jacobian && follower_forces el).

(** An Eigen coefficient write [x(i) = a].  Past the end of the vector the
    program does not go on: Eigen's index check stops it, and where that
    check is compiled out the write goes through a pointer that is not
    valid.  The computation ends there, in the state it had reached. *)
Definition coeff_write {S0 A : Type} (x : list A) (i : nat) (a : A) : M S0 (list A) :=
  if i <? length x then ret (vset x i a) else (fun s => Fatal s).

(** "now set the shape function values", on a [phi_vec] whose size is not
    known to fit. *)
Definition set_shape_function_values_checked {S0 : Type}
    (fe : FE R) (qp : nat) (phi_vec : list R) : M S0 (list R) :=
  foldM (fun phi_vec i_nd => coeff_write phi_vec i_nd (phi_at fe i_nd qp))
        (seq 0 (length (get_phi fe))) phi_vec.

(** One quadrature point of the whole-element variant.  Its [phi_vec] is
    declared without a size ([RealVectorX phi_vec;]) and lives across the
    iterations, like the other locals. *)
Definition small_disturbance_qp_whole {S0 : Type} (bc : BoundaryConditionBase R V)
    (pl : list R * PressureLocals V) (qp : nat) : M S0 (list R * PressureLocals V) :=
  let fe := _fe el in
  let l := snd pl in
  let pt := global_coordinates_location (_local_elem el) (nth qp (get_xyz fe) origin) in
  (* now set the shape function values *)
  phi_vec <- set_shape_function_values_checked fe qp (fst pl) ;;
  let Bmat := reinit (2 * n1) phi_vec in
  (* get pressure and deformation information *)
  let press := pressure bc pt (_time el) in
  let dpress := dpressure bc pt (_time el) in
  let dn_rot := dnormal bc pt (_time el) in
  let force := small_disturbance_force press dpress dn_rot assumed_normal (p_force l) in
  let vec_n2 := vector_mult_transpose Bmat force in
  ret (phi_vec,
       {| p_force := force; p_vec_n2 := vec_n2;
          p_local_f := vec_add_assign (p_local_f l)
                                      (vec_scale (vget (get_JxW fe) qp) vec_n2) |}).

(** The quadrature loop of the whole-element variant. *)
Definition small_disturbance_loop {S0 : Type}
    (bc : BoundaryConditionBase R V) (n_qp : nat) : M S0 (list R * PressureLocals V) :=
  let n_phi := length (get_phi (_fe el)) in
  foldM (small_disturbance_qp_whole bc) (seq 0 n_qp) ([], pressure_locals_init n_phi).

(** [small_disturbance_surface_pressure_residual<ValType>
     (request_jacobian, f, jac, bc)] *)
Definition small_disturbance_surface_pressure_residual
    (request_jacobian : bool) (bc : BoundaryConditionBase R V)
    : M (LoadState R) bool :=
  libmesh_assert (dim (_elem el) <? 3) ;;;
  libmesh_assert (negb (follower_forces el)) ;;;
  libmesh_assert (match bc_type bc with SMALL_DISTURBANCE_MOTION => true | _ => false end) ;;;
  pl <- small_disturbance_loop bc (length (get_xyz (_fe el))) ;;
  let l := snd pl in
  (* now transform to the global system and add *)
  vec_n2 <- transform_vector_to_global_system el (p_local_f l) (p_vec_n2 l) ;;
  st <- get_state ;;
  put_state {| f := add_to_assembled_vector (f st) vec_n2; jac := jac st |} ;;;
  ret (request_jacobian && follower_forces el).

(** ** Boundary load dispatch *)

(** [calculate_jac = (calculate_jac || handler(...))]: with
    [calculate_jac] already set the handler is not called. *)
Definition or_else {S : Type} (calculate_jac : bool) (handler : M S bool) : M S bool :=
  if calculate_jac then ret true else handler.

(** The [switch] of [side_external_residual], for one boundary
    condition found on side [n]. *)
Definition side_apply_bc (request_jacobian : bool) (n : nat)
    (calculate_jac : bool) (b : BoundaryConditionBase R V) : M (LoadState R) bool :=
  match bc_type b with
  | SURFACE_PRESSURE =>
      or_else calculate_jac (surface_pressure_residual_side request_jacobian n b)
  | SMALL_DISTURBANCE_MOTION =>
      or_else calculate_jac
              (small_disturbance_surface_pressure_residual_side request_jacobian n b)
  | DIRICHLET =>
      (* nothing to be done here *)
      ret calculate_jac
  | _ =>
      (* not implemented yet *)
      libmesh_error
  end.

(** The loops of [side_external_residual]; the value is [calculate_jac]. *)
Definition side_external_loops (request_jacobian : bool)
    (bc : multimap nat (BoundaryConditionBase R V)) : M (LoadState R) bool :=
  foldM (fun calculate_jac n =>
           (* if no boundary ids have been specified for the side, then
              move to the next side. *)
           if length (boundary_ids (_elem el) n) =? 0 then ret calculate_jac
           else
             foldM (fun calculate_jac bc_id =>
                      foldM (side_apply_bc request_jacobian n)
                            (equal_range bc bc_id) calculate_jac)
                   (boundary_ids (_elem el) n) calculate_jac)
        (seq 0 (n_sides (_elem el))) false.

Definition side_external_residual (request_jacobian : bool)
    (bc : multimap nat (BoundaryConditionBase R V)) : M (LoadState R) bool :=
  calculate_jac <- side_external_loops request_jacobian bc ;;
  ret (request_jacobian && calculate_jac).

(** The [switch] of [volume_external_residual]. *)
Definition volume_apply_bc (request_jacobian : bool)
    (calculate_jac : bool) (b : BoundaryConditionBase R V) : M (LoadState R) bool :=
  match bc_type b with
  | SURFACE_PRESSURE =>
      or_else calculate_jac (surface_pressure_residual request_jacobian b)
  | TEMPERATURE =>
      or_else calculate_jac (thermal_residual el request_jacobian b)
  | SMALL_DISTURBANCE_MOTION =>
      or_else calculate_jac
              (small_disturbance_surface_pressure_residual request_jacobian b)
  | _ =>
      (* not implemented yet *)
      libmesh_error
  end.

Definition volume_external_loop (request_jacobian : bool)
    (bc : multimap nat (BoundaryConditionBase R V)) : M (LoadState R) bool :=
  let sid := subdomain_id (_elem el) in
  foldM (volume_apply_bc request_jacobian) (equal_range bc sid) false.

Definition volume_external_residual (request_jacobian : bool)
    (bc : multimap nat (BoundaryConditionBase R V)) : M (LoadState R) bool :=
  calculate_jac <- volume_external_loop request_jacobian bc ;;
  ret (request_jacobian && calculate_jac).
End SmallDisturbance.
End Pressure.

(** ** Concrete elements used to run the model *)

(** A dense matrix given by its rows. *)
Definition matrix_of_rows {R : Type} {SR : Scalar R} (rows : list (list R)) : Matrix R :=
  {| nrows := length rows;
     ncols := length (nth 0 rows []);
     coef := fun i j => vget (nth i rows []) j |}.

Module Fixture.
Definition debug_build : BuildMode := {| asserts_enabled := true |}.
Definition optimized_build : BuildMode := {| asserts_enabled := false |}.

Definition pt (x y z : Z) : Point Z := {| px := x; py := y; pz := z |}.

(** Rotation by a quarter turn about the z axis. *)
Definition quarter_turn : Matrix Z :=
  matrix_of_rows [[0; -1; 0]; [1; 0; 0]; [0; 0; 1]]%Z.

(** Two-node beam, two quadrature points, nodal shape functions. *)
Definition beam_fe : FE Z :=
  {| get_JxW := [1; 1]%Z;
     get_xyz := [pt 1 0 0; pt 3 0 0];
     get_phi := [[1; 0]; [0; 1]]%Z;
     get_normals := [] |}.

(** Its end point seen as a side: one quadrature point. *)
Definition beam_side_fe : FE Z :=
  {| get_JxW := [1]%Z;
     get_xyz := [pt 1 0 0];
     get_phi := [[1]; [0]]%Z;
     get_normals := [pt 1 0 0] |}.

(** An inertia that grows along x: [x * I] at the point [(x, y, z)]. *)
Definition graded_inertia (p : Point Z) (t : Z) : Matrix Z :=
  {| nrows := 6; ncols := 6;
     coef := fun i j => if i =? j then px p else 0%Z |}.

Definition beam_elem : Elem :=
  {| dim := 1; n_sides := 2; subdomain_id := 7;
     boundary_ids := fun n => if n =? 0 then [4] else [] |}.

Definition beam (lumped follower : bool) : StructuralElementBase Z :=
  {| _elem := beam_elem;
     _fe := beam_fe;
     _local_elem := {| T_matrix := quarter_turn;
                       global_coordinates_location := fun p => p |};
     _property := {| inertia_matrix := graded_inertia;
                     if_diagonal_mass_matrix := lumped |};
     _time := 0%Z;
     n_vars := 6;
     follower_forces := follower;
     side_fe_quadrature := fun _ => beam_side_fe;
     side_fe_local := fun _ => beam_side_fe;
     thermal_residual := fun V request_jacobian _ => ret request_jacobian |}.

Definition bc_of_type (t : BoundaryConditionType) (press : Z)
    : BoundaryConditionBase Z Z :=
  {| bc_type := t;
     pressure := fun _ _ => press;
     dpressure := fun _ _ => 5%Z;
     dnormal := fun _ _ => [7; 11; 13]%Z |}.

Definition bc_complex : BoundaryConditionBase Z (Z * Z) :=
  {| bc_type := SMALL_DISTURBANCE_MOTION;
     pressure := fun _ _ => 2%Z;
     dpressure := fun _ _ => (5, 3)%Z;
     dnormal := fun _ _ => [(7, 1); (11, 0); (13, 2)]%Z |}.

Definition assemble_real : AssembledVector Z Z :=
  {| add_to_assembled_vector := fun f v => vec_add_assign f v |}.

Definition assemble_complex : AssembledVector Z (Z * Z) :=
  {| add_to_assembled_vector := fun f v => vec_add_assign f (map fst v) |}.

Definition zeros12 : list Z := repeat 0%Z 12.

Definition load0 : LoadState Z := {| f := zeros12; jac := mzero 12 12 |}.

Definition parent_setters : ElementBaseSetters Z (list Z) :=
  {| ElementBase_set_solution := fun vec _ _ => vec;
     ElementBase_set_velocity := fun vec _ _ => vec;
     ElementBase_set_base_solution := fun vec _ _ => vec |}.

Definition state0 : ElementState Z (list Z) :=
  {| base := []; _local_sol := zeros12; _local_vel := zeros12;
     _local_accel := zeros12; _local_base_sol := zeros12 |}.

Definition ramp12 : list Z := [1; 2; 3; 4; 5; 6; 7; 8; 9; 10; 11; 12]%Z.
(** A solid: eight-noded in reality, kept at two nodes here; its local
    frame is the global one. *)
Definition identity3 : Matrix Z :=
  matrix_of_rows [[1; 0; 0]; [0; 1; 0]; [0; 0; 1]]%Z.

Definition solid_elem : Elem :=
  {| dim := 3; n_sides := 6; subdomain_id := 7;
     boundary_ids := fun n => if n =? 0 then [4] else [] |}.

Definition solid : StructuralElementBase Z :=
  {| _elem := solid_elem;
     _fe := beam_fe;
     _local_elem := {| T_matrix := identity3;
                       global_coordinates_location := fun p => p |};
     _property := {| inertia_matrix := graded_inertia;
                     if_diagonal_mass_matrix := false |};
     _time := 0%Z;
     n_vars := 6;
     follower_forces := false;
     side_fe_quadrature := fun _ => beam_side_fe;
     side_fe_local := fun _ => beam_side_fe;
     thermal_residual := fun V request_jacobian _ => ret request_jacobian |}.

Definition skew12 : Matrix Z :=
  {| nrows := 12; ncols := 12; coef := fun i j => Z.of_nat (i + 2 * j) |}.

Definition symmetric12 : Matrix Z :=
  {| nrows := 12; ncols := 12; coef := fun i j => Z.of_nat (i + j) |}.
End Fixture.

(** ** Vocabulary of the dispatch properties *)

(** The boundary conditions [side_external_residual] dispatches, each with
    the side it was found on, in dispatch order. *)
Definition side_matches {R V : Type} (el : StructuralElementBase R)
    (bc : multimap nat (BoundaryConditionBase R V)) : list (nat * BoundaryConditionBase R V) :=
  flat_map (fun n =>
              flat_map (fun bc_id => map (fun b => (n, b)) (equal_range bc bc_id))
                       (boundary_ids (_elem el) n))
           (seq 0 (n_sides (_elem el))).

(** The boundary conditions [volume_external_residual] dispatches. *)
Definition volume_matches {R V : Type} (el : StructuralElementBase R)
    (bc : multimap nat (BoundaryConditionBase R V)) : list (BoundaryConditionBase R V) :=
  equal_range bc (subdomain_id (_elem el)).

(** The type tags with a case of their own in the two [switch]es. *)
Definition side_supported (t : BoundaryConditionType) : bool :=
  match t with
  | SURFACE_PRESSURE | SMALL_DISTURBANCE_MOTION | DIRICHLET => true
  | _ => false
  end.

Definition volume_supported (t : BoundaryConditionType) : bool :=
  match t with
  | SURFACE_PRESSURE | TEMPERATURE | SMALL_DISTURBANCE_MOTION => true
  | _ => false
  end.

(** "Some dispatched handler computed a Jacobian contribution": running the
    dispatch over [l] from state [st], a handler is reached with
    [calculate_jac] still clear, and it returns [true]. *)
Definition some_handler_computed_jacobian {S X : Type}
    (apply_bc : bool -> X -> M S bool) (l : list X) (st : S) : Prop :=
  exists l1 x l2 s1 s2,
    l = l1 ++ x :: l2 /\
    foldM apply_bc l1 false st = Ok false s1 /\
    apply_bc false x s1 = Ok true s2.

(** The [switch] of [side_external_residual] applied to one entry of
    [side_matches]. *)
Definition side_apply_match {R : Type} {SR : Scalar R} {BM : BuildMode}
    {V : Type} {VT : ValType R V} {AV : AssembledVector R V}
    (el : StructuralElementBase R) (request_jacobian : bool)
    (calculate_jac : bool) (nb : nat * BoundaryConditionBase R V) : M (LoadState R) bool :=
  side_apply_bc el request_jacobian (fst nb) calculate_jac (snd nb).

(** What "calculate force" of the small-disturbance routines is meant to
    store in [force(i_dim)]. *)
Definition small_disturbance_force_component {R V : Type} {SR : Scalar R}
    {VT : ValType R V} (press : R) (dpress : V)
    (dn_rot : list V) (normal : Point R) (i_dim : nat) : V :=
  vadd (vscale press (vget dn_rot i_dim)) (vscale (pget normal i_dim) dpress).

(** The element volume: the sum of the quadrature weights [JxW]. *)
Definition element_volume {R : Type} {SR : Scalar R} (el : StructuralElementBase R) : R :=
  vsum (fun i => vget (get_JxW (_fe el)) i) (length (get_JxW (_fe el))).

(** The quadrature loop of the consistent-mass branch as the specification
    words it: the inertia field function is evaluated at the location of
    quadrature point [qp] itself.  Everything else is as in
    [inertial_consistent_qp]. *)
Definition inertial_consistent_qp_at_own_point {R : Type} {SR : Scalar R}
    (el : StructuralElementBase R) (local_accel : list R) (request_jacobian : bool)
    (l : InertialLocals R) (qp : nat) : InertialLocals R :=
  let JxW := get_JxW (_fe el) in
  let xyz := get_xyz (_fe el) in
  let n_phi := length (get_phi (_fe el)) in
  let p := global_coordinates_location (_local_elem el) (nth qp xyz origin) in
  let material_mat := inertia_matrix (_property el) p (_time el) in
  let phi_vec := set_shape_function_values (_fe el) qp (vzero n_phi) in
  let Bmat := reinit (n_vars el) phi_vec in
  let mat1_n1n2 := left_multiply Bmat material_mat in
  let vec1_n1 := mat_vec mat1_n1n2 local_accel in
  let vec2_n2 := vector_mult_transpose Bmat vec1_n1 in
  let local_f := vec_add_assign (local_f l) (vec_scale (vget JxW qp) vec2_n2) in
  let local_jac :=
    if request_jacobian then
      let mat2_n2n2 := right_multiply_transpose Bmat mat1_n1n2 in
      mat_add_assign (local_jac l) (mat_scale (vget JxW qp) mat2_n2n2)
    else local_jac l in
  {| vec2_n2 := vec2_n2; local_f := local_f; local_jac := local_jac;
     inertia_evaluations := inertia_evaluations l ++ [p] |}.

Definition inertial_consistent_at_own_points {R : Type} {SR : Scalar R}
    (el : StructuralElementBase R) (local_accel : list R) (request_jacobian : bool)
    : InertialLocals R :=
  fold_left (inertial_consistent_qp_at_own_point el local_accel request_jacobian)
            (seq 0 (length (get_JxW (_fe el)))) (inertial_locals_init el).

(** Rows of a 3x3 matrix orthonormal: [T T^T = I].  For a square matrix this
    is the same as [T^T T = I]. *)
Definition orthonormal {R : Type} {SR : Scalar R} (T : Matrix R) : Prop :=
  forall j l, j < 3 -> l < 3 ->
    radd (radd (rmul (coef T j 0) (coef T l 0)) (rmul (coef T j 1) (coef T l 1)))
         (rmul (coef T j 2) (coef T l 2))
    = if j =? l then r1 else r0.

(** The 3x3 identity, as the transformation matrix of a 3D element. *)
Definition is_identity {R : Type} {SR : Scalar R} (T : Matrix R) : Prop :=
  forall j k, j < 3 -> k < 3 -> coef T j k = if j =? k then r1 else r0.

(** The 6x6 pattern the transformation matrix repeats for every node: [T]
    for the translations, [T] for the rotations, nothing across. *)
Definition dof_kernel {R : Type} {SR : Scalar R} (T : Matrix R) (p q : nat) : R :=
  if p / 3 =? q / 3 then coef T (p mod 3) (q mod 3) else r0.

(** Sum over the six variables of a node. *)
Definition sum6 {R : Type} {SR : Scalar R} (g : nat -> R) : R :=
  radd (radd (radd (radd (radd (g 0) (g 1)) (g 2)) (g 3)) (g 4)) (g 5).

(** ** Vocabulary of the further properties *)

(** State reached by a computation, whether it completed or stopped at an
    error. *)
Definition outcome_state {S A : Type} (o : outcome S A) : S :=
  match o with
  | Ok _ s => s
  | Fatal s => s
  end.

(** The boundary ids found on the sides of the element. *)
Definition element_boundary_ids (e : Elem) : list nat :=
  flat_map (boundary_ids e) (seq 0 (n_sides e)).

(** The load a steady pressure routine adds to [f]: the force accumulated
    over the quadrature points, taken to the global frame. *)
Definition surface_pressure_side_load {R : Type} {SR : Scalar R} {V : Type}
    (el : StructuralElementBase R) (side : nat) (bc : BoundaryConditionBase R V)
    : list R :=
  let fe := side_fe_quadrature el side in
  let n_phi := length (get_phi fe) in
  let l := fold_left
             (surface_pressure_qp el fe (vzero n_phi)
                (fun qp => nth qp (get_normals fe) origin) bc)
             (seq 0 (length (get_xyz fe))) (pressure_locals_init n_phi) in
  if dim (_elem el) <? 3 then mat_vec (global_T_matrix el) (p_local_f l)
  else p_local_f l.

Definition surface_pressure_load {R : Type} {SR : Scalar R} {V : Type}
    (el : StructuralElementBase R) (bc : BoundaryConditionBase R V) : list R :=
  let fe := _fe el in
  let n_phi := length (get_phi fe) in
  let l := fold_left
             (surface_pressure_qp el fe (vzero n_phi) (fun _ => assumed_normal el) bc)
             (seq 0 (length (get_xyz fe))) (pressure_locals_init n_phi) in
  mat_vec (global_T_matrix el) (p_local_f l).

(** Columns of a 3x3 matrix orthonormal: [T^T T = I]. *)
Definition orthonormal_columns {R : Type} {SR : Scalar R} (T : Matrix R) : Prop :=
  forall j l, j < 3 -> l < 3 ->
    radd (radd (rmul (coef T 0 j) (coef T 0 l)) (rmul (coef T 1 j) (coef T 1 l)))
         (rmul (coef T 2 j) (coef T 2 l))
    = if j =? l then r1 else r0.

(** The residual after the steady pressure loads of a list of dispatched
    conditions have been added, in order; conditions of other types add
    nothing here. *)
Definition side_pressure_sum {R : Type} {SR : Scalar R} {V : Type}
    (el : StructuralElementBase R) (l : list (nat * BoundaryConditionBase R V))
    (f0 : list R) : list R :=
  fold_left (fun acc nb =>
               match bc_type (snd nb) with
               | SURFACE_PRESSURE =>
                   vec_add_assign acc (surface_pressure_side_load el (fst nb) (snd nb))
               | _ => acc
               end) l f0.

Definition volume_pressure_sum {R : Type} {SR : Scalar R} {V : Type}
    (el : StructuralElementBase R) (l : list (BoundaryConditionBase R V))
    (f0 : list R) : list R :=
  fold_left (fun acc b =>
               match bc_type b with
               | SURFACE_PRESSURE => vec_add_assign acc (surface_pressure_load el b)
               | _ => acc
               end) l f0.

(** Type tags of the steady loads of the side dispatch: a pressure, or the
    condition that is enforced elsewhere. *)
Definition steady_side_type (t : BoundaryConditionType) : bool :=
  match t with
  | SURFACE_PRESSURE | DIRICHLET => true
  | _ => false
  end.

Definition is_surface_pressure (t : BoundaryConditionType) : bool :=
  match t with
  | SURFACE_PRESSURE => true
  | _ => false
  end.

(** * Properties *)

(** ** Solution setters *)

Section SetterProperties.
Context {R : Type} {SR : Scalar R} {BM : BuildMode} {B : Type}.
Variable el : StructuralElementBase R.
Variable parent : ElementBaseSetters R B.

Lemma transform_vector_to_local_system_run (S0 : Type) (vec local_vec : list R) (s : S0) :
  transform_vector_to_local_system el vec local_vec s =
  if asserts_enabled && negb (length local_vec =? length vec) then Fatal s
  else Ok (mat_vec (mat_transpose (global_T_matrix el)) vec) s.
Proof.
  unfold transform_vector_to_local_system, libmesh_assert_equal_to, libmesh_assert, bind.
  destruct asserts_enabled; simpl; [|reflexivity].
  destruct (length local_vec =? length vec); reflexivity.
Qed.

(** C10.  With the sensitivity flag set, each of [set_solution],
    [set_velocity] and [set_base_solution] ends in the fatal error with the
    element state exactly as it was (no cache written, the parent setter
    not reached).  With the flag clear the vector is taken to the local
    frame and stored in the matching cache, then the parent setter runs;
    the only other outcome is a failed size assertion of the
    transformation, in a build that keeps assertions. *)
Theorem setters_sensitivity_flag_is_fatal (vec : list R) (st : ElementState R B) :
  (set_solution el parent vec true st = Fatal st /\
   set_velocity el parent vec true st = Fatal st /\
   set_base_solution el parent vec true st = Fatal st) /\
  let local := mat_vec (mat_transpose (global_T_matrix el)) vec in
  set_solution el parent vec false st =
    (if asserts_enabled && negb (length (_local_sol st) =? length vec) then Fatal st
     else Ok tt {| base := ElementBase_set_solution parent vec false (base st);
                   _local_sol := local; _local_vel := _local_vel st;
                   _local_accel := _local_accel st;
                   _local_base_sol := _local_base_sol st |}) /\
  set_velocity el parent vec false st =
    (if asserts_enabled && negb (length (_local_vel st) =? length vec) then Fatal st
     else Ok tt {| base := ElementBase_set_velocity parent vec false (base st);
                   _local_sol := _local_sol st; _local_vel := local;
                   _local_accel := _local_accel st;
                   _local_base_sol := _local_base_sol st |}) /\
  set_base_solution el parent vec false st =
    (if asserts_enabled && negb (length (_local_base_sol st) =? length vec) then Fatal st
     else Ok tt {| base := ElementBase_set_base_solution parent vec false (base st);
                   _local_sol := _local_sol st; _local_vel := _local_vel st;
                   _local_accel := _local_accel st;
                   _local_base_sol := local |}).
Proof.
  split; [repeat split; reflexivity|].
  cbv zeta.
  unfold set_solution, set_velocity, set_base_solution, bind, get_state, put_state; simpl.
  rewrite !transform_vector_to_local_system_run.
  repeat split.
  - destruct (asserts_enabled && negb (length (_local_sol st) =? length vec)); reflexivity.
  - destruct (asserts_enabled && negb (length (_local_vel st) =? length vec)); reflexivity.
  - destruct (asserts_enabled && negb (length (_local_base_sol st) =? length vec)); reflexivity.
Qed.
End SetterProperties.

(** ** Follower forces *)

Section FollowerForces.
Context {R : Type} {SR : Scalar R} {BM : BuildMode}.
Context {V : Type} {VT : ValType R V} {AV : AssembledVector R V}.
Variable el : StructuralElementBase R.

Lemma libmesh_assert_false (S0 A : Type) (k : M S0 A) (s : S0) :
  asserts_enabled = true ->
  (libmesh_assert false ;;; k) s = Fatal s.
Proof. intros H. unfold bind, libmesh_assert. rewrite H. reflexivity. Qed.

Lemma libmesh_assert_true (S0 A : Type) (k : M S0 A) (s : S0) :
  (libmesh_assert true ;;; k) s = k s.
Proof. unfold bind, libmesh_assert. destruct asserts_enabled; reflexivity. Qed.

(** In a build that keeps assertions, a pressure routine
    called on an element with follower forces stops with the fatal error
    before anything is added to [f] or [jac], whether or not the Jacobian
    was requested; this holds for the steady and the small-disturbance
    routines, side and whole-element variants. *)
Theorem follower_forces_assertion_is_fatal
    (request_jacobian : bool) (side : nat)
    (bc : BoundaryConditionBase R V) (st : LoadState R) :
  asserts_enabled = true ->
  follower_forces el = true ->
  surface_pressure_residual_side el request_jacobian side bc st = Fatal st /\
  surface_pressure_residual el request_jacobian bc st = Fatal st /\
  small_disturbance_surface_pressure_residual_side el request_jacobian side bc st = Fatal st /\
  small_disturbance_surface_pressure_residual el request_jacobian bc st = Fatal st.
Proof.
  intros Ha Hf.
  unfold surface_pressure_residual_side, surface_pressure_residual,
    small_disturbance_surface_pressure_residual_side,
    small_disturbance_surface_pressure_residual.
  rewrite Hf. simpl negb.
  repeat split.
  - apply libmesh_assert_false; assumption.
  - destruct (dim (_elem el) <? 3).
    + rewrite libmesh_assert_true. apply libmesh_assert_false; assumption.
    + apply libmesh_assert_false; assumption.
  - apply libmesh_assert_false; assumption.
  - destruct (dim (_elem el) <? 3).
    + rewrite libmesh_assert_true. apply libmesh_assert_false; assumption.
    + apply libmesh_assert_false; assumption.
Qed.
End FollowerForces.

Lemma follower_forces_assertion_is_fatal_witness :
  @asserts_enabled Fixture.debug_build = true /\
  follower_forces (Fixture.beam false true) = true /\
  @surface_pressure_residual_side Z _ Fixture.debug_build (Fixture.beam false true) Z
    true 0 (Fixture.bc_of_type SURFACE_PRESSURE 2) Fixture.load0 = Fatal Fixture.load0.
Proof.
  split; [reflexivity|]. split; [reflexivity|].
  apply (@follower_forces_assertion_is_fatal Z _ Fixture.debug_build Z _
           Fixture.assemble_real (Fixture.beam false true) true 0
           (Fixture.bc_of_type SURFACE_PRESSURE 2) Fixture.load0);
    reflexivity.
Defined.

(** C5.  The guard against follower forces is an assertion, and a build
    without assertions does not have it: with follower forces active and the
    Jacobian requested, the steady side routine, the steady whole-element
    routine and the small-disturbance side routine all complete, report
    [true] for the Jacobian and leave [jac] as they found it. *)
Lemma follower_forces_jacobian_not_fatal_without_assertions :
  let el := Fixture.beam false true in
  let bc := Fixture.bc_of_type SURFACE_PRESSURE 2 in
  let sd := Fixture.bc_of_type SMALL_DISTURBANCE_MOTION 2 in
  follower_forces el = true /\
  (exists s',
    @surface_pressure_residual_side Z _ Fixture.optimized_build el Z true 0 bc Fixture.load0
      = Ok true s' /\
    jac s' = jac Fixture.load0) /\
  (exists s',
    @surface_pressure_residual Z _ Fixture.optimized_build el Z true bc Fixture.load0
      = Ok true s' /\
    jac s' = jac Fixture.load0) /\
  (exists s',
    @small_disturbance_surface_pressure_residual_side Z _ Fixture.optimized_build el Z _
      Fixture.assemble_real true 0 sd Fixture.load0
      = Ok true s' /\
    jac s' = jac Fixture.load0).
Proof.
  split; [reflexivity|].
  repeat split; eexists; (split; [vm_compute; reflexivity | reflexivity]).
Qed.

(** ** Boundary load dispatch *)

Section FoldM.
Context {S A B : Type}.
Variable body : A -> B -> M S A.

Lemma foldM_app (l1 l2 : list B) (a : A) (s : S) :
  foldM body (l1 ++ l2) a s = (a' <- foldM body l1 a ;; foldM body l2 a') s.
Proof.
  revert a s. induction l1 as [|x l1 IH]; intros a s; simpl.
  - reflexivity.
  - unfold bind. destruct (body a x s) as [a1 s1|s1]; [|reflexivity].
    rewrite IH. reflexivity.
Qed.

Lemma foldM_flat_map (C : Type) (g : C -> list B) (l : list C) (a : A) (s : S) :
  foldM body (flat_map g l) a s = foldM (fun a x => foldM body (g x) a) l a s.
Proof.
  revert a s. induction l as [|x l IH]; intros a s; simpl.
  - reflexivity.
  - rewrite foldM_app. unfold bind.
    destruct (foldM body (g x) a s) as [a1 s1|s1]; [apply IH | reflexivity].
Qed.

Lemma foldM_map (C : Type) (h : C -> B) (l : list C) (a : A) (s : S) :
  foldM body (map h l) a s = foldM (fun a x => body a (h x)) l a s.
Proof.
  revert a s. induction l as [|x l IH]; intros a s; simpl.
  - reflexivity.
  - unfold bind. destruct (body a (h x) s) as [a1 s1|s1]; [apply IH | reflexivity].
Qed.

Lemma foldM_ext (body' : A -> B -> M S A) (l : list B) (a : A) (s : S) :
  (forall a x s, body a x s = body' a x s) ->
  foldM body l a s = foldM body' l a s.
Proof.
  intros H. revert a s. induction l as [|x l IH]; intros a s; simpl.
  - reflexivity.
  - unfold bind. rewrite H. destruct (body' a x s) as [a1 s1|s1]; [apply IH | reflexivity].
Qed.

(** A loop that meets an element on which the body always fails, fails. *)
Lemma foldM_fatal (l : list B) (x : B) (a : A) (s : S) :
  In x l ->
  (forall a s, is_fatal (body a x s) = true) ->
  is_fatal (foldM body l a s) = true.
Proof.
  intros Hin Hx. revert a s. induction l as [|y l IH]; intros a s; simpl.
  - destruct Hin.
  - unfold bind. destruct Hin as [->|Hin].
    + specialize (Hx a s). destruct (body a x s); [discriminate | reflexivity].
    + destruct (body a y s) as [a1 s1|s1]; [apply IH; assumption | reflexivity].
Qed.

(** A loop whose body does nothing on every element does nothing. *)
Lemma foldM_skip (l : list B) (a : A) (s : S) :
  (forall x a s, In x l -> body a x s = Ok a s) ->
  foldM body l a s = Ok a s.
Proof.
  induction l as [|y l IH]; intros H; simpl.
  - reflexivity.
  - unfold bind. rewrite H by (left; reflexivity).
    apply IH. intros x a' s' Hx. apply H. right. assumption.
Qed.
End FoldM.

Section OrLoop.
Context {S X : Type}.
Variable apply_bc : bool -> X -> M S bool.
Hypothesis stays_set :
  forall x s b s', apply_bc true x s = Ok b s' -> b = true.

Lemma foldM_stays_set (l : list X) (s : S) (b : bool) (s' : S) :
  foldM apply_bc l true s = Ok b s' -> b = true.
Proof.
  revert s. induction l as [|x l IH]; intros s; simpl.
  - unfold ret. intros H. inversion H. reflexivity.
  - unfold bind. destruct (apply_bc true x s) as [b1 s1|s1] eqn:E; [|discriminate].
    apply stays_set in E. subst b1. apply IH.
Qed.

(** The value of [calculate_jac] after the loop. *)
Lemma foldM_calculate_jac (l : list X) (s : S) (cj : bool) (s' : S) :
  foldM apply_bc l false s = Ok cj s' ->
  (cj = true <-> some_handler_computed_jacobian apply_bc l s).
Proof.
  revert s. induction l as [|x l IH]; intros s; simpl.
  - unfold ret. intros H. inversion H. subst. split; [discriminate|].
    intros (l1 & y & l2 & s1 & s2 & Hl & _). destruct l1; discriminate.
  - unfold bind. destruct (apply_bc false x s) as [b1 s1|s1] eqn:E; [|discriminate].
    destruct b1.
    + intros H. apply foldM_stays_set in H. subst cj. split; [|reflexivity].
      intros _. exists [], x, l, s, s1. repeat split; auto.
    + intros H. specialize (IH _ H). rewrite IH. split.
      * intros (l1 & y & l2 & t1 & t2 & Hl & Hrun & Hy).
        exists (x :: l1), y, l2, t1, t2. repeat split; auto.
        -- simpl. rewrite Hl. reflexivity.
        -- simpl. unfold bind. rewrite E. assumption.
      * intros (l1 & y & l2 & t1 & t2 & Hl & Hrun & Hy).
        destruct l1 as [|z l1]; simpl in Hl; inversion Hl; subst.
        -- simpl in Hrun. unfold ret in Hrun. inversion Hrun. subst.
           rewrite E in Hy. discriminate.
        -- exists l1, y, l2, t1, t2. repeat split; auto.
           simpl in Hrun. unfold bind in Hrun. rewrite E in Hrun. assumption.
Qed.
End OrLoop.

Section Dispatch.
Context {R : Type} {SR : Scalar R} {BM : BuildMode}.
Context {V : Type} {VT : ValType R V} {AV : AssembledVector R V}.
Variable el : StructuralElementBase R.

(** The three nested loops of [side_external_residual] visit the entries
    of [side_matches] in order. *)
Lemma side_external_loops_matches (request_jacobian : bool)
    (bc : multimap nat (BoundaryConditionBase R V)) (st : LoadState R) :
  side_external_loops el request_jacobian bc st =
  foldM (side_apply_match el request_jacobian) (side_matches el bc) false st.
Proof.
  unfold side_external_loops, side_matches.
  rewrite foldM_flat_map. apply foldM_ext. intros cj n s.
  destruct (boundary_ids (_elem el) n) as [|id ids] eqn:E.
  - reflexivity.
  - cbn [length Nat.eqb]. rewrite foldM_flat_map. apply foldM_ext.
    intros cj' bc_id s'. rewrite foldM_map. reflexivity.
Qed.

Lemma side_apply_bc_stays_set (request_jacobian : bool) (n : nat)
    (b : BoundaryConditionBase R V) (s : LoadState R) (r : bool) (s' : LoadState R) :
  side_apply_bc el request_jacobian n true b s = Ok r s' -> r = true.
Proof.
  unfold side_apply_bc, or_else, ret, libmesh_error.
  destruct (bc_type b); intros H; inversion H; reflexivity.
Qed.

Lemma volume_apply_bc_stays_set (request_jacobian : bool)
    (b : BoundaryConditionBase R V) (s : LoadState R) (r : bool) (s' : LoadState R) :
  volume_apply_bc el request_jacobian true b s = Ok r s' -> r = true.
Proof.
  unfold volume_apply_bc, or_else, ret, libmesh_error.
  destruct (bc_type b); intros H; inversion H; reflexivity.
Qed.

(** C1 (as amended).  When a dispatch completes, the boolean it returns
    is the conjunction of the caller's [request_jacobian] with "some
    dispatched handler computed a Jacobian contribution": it is [true]
    exactly when the Jacobian was requested and a handler, reached with
    [calculate_jac] still clear, returned [true]. *)
Theorem external_residual_returns_request_and_computed
    (request_jacobian : bool) (bc : multimap nat (BoundaryConditionBase R V))
    (st : LoadState R) (b : bool) (s' : LoadState R) :
  (side_external_residual el request_jacobian bc st = Ok b s' ->
   (b = true <->
    request_jacobian = true /\
    some_handler_computed_jacobian (side_apply_match el request_jacobian)
                                   (side_matches el bc) st)) /\
  (volume_external_residual el request_jacobian bc st = Ok b s' ->
   (b = true <->
    request_jacobian = true /\
    some_handler_computed_jacobian (volume_apply_bc el request_jacobian)
                                   (volume_matches el bc) st)).
Proof.
  split.
  - unfold side_external_residual, bind. rewrite side_external_loops_matches.
    destruct (foldM _ _ false st) as [cj s1|s1] eqn:E; [|discriminate].
    unfold ret. intros H. inversion H. subst.
    apply foldM_calculate_jac in E.
    + rewrite <- E. apply andb_true_iff.
    + intros [n x] s r s2. apply side_apply_bc_stays_set.
  - unfold volume_external_residual, volume_external_loop, volume_matches, bind.
    destruct (foldM _ _ false st) as [cj s1|s1] eqn:E; [|discriminate].
    unfold ret. intros H. inversion H. subst.
    apply foldM_calculate_jac in E.
    + rewrite <- E. apply andb_true_iff.
    + intros x s r s2. apply volume_apply_bc_stays_set.
Qed.

(** C3.  A boundary condition that reaches a [switch] with a type tag the
    switch has no case for makes the whole dispatch end in the fatal
    error: it is never skipped. *)
Theorem unsupported_type_is_fatal
    (request_jacobian : bool) (bc : multimap nat (BoundaryConditionBase R V))
    (st : LoadState R) (n : nat) (b : BoundaryConditionBase R V) :
  (In (n, b) (side_matches el bc) ->
   side_supported (bc_type b) = false ->
   is_fatal (side_external_residual el request_jacobian bc st) = true) /\
  (In b (volume_matches el bc) ->
   volume_supported (bc_type b) = false ->
   is_fatal (volume_external_residual el request_jacobian bc st) = true).
Proof.
  split; intros Hin Hty.
  - unfold side_external_residual, bind. rewrite side_external_loops_matches.
    assert (Hf : is_fatal (foldM (side_apply_match el request_jacobian)
                                 (side_matches el bc) false st) = true).
    { apply foldM_fatal with (x := (n, b)); [assumption|].
      intros a s. unfold side_apply_match, side_apply_bc. simpl.
      destruct (bc_type b); try discriminate; reflexivity. }
    destruct (foldM _ _ false st); [discriminate | reflexivity].
  - unfold volume_external_residual, volume_external_loop, bind.
    assert (Hf : is_fatal (foldM (volume_apply_bc el request_jacobian)
                                 (volume_matches el bc) false st) = true).
    { apply foldM_fatal with (x := b); [assumption|].
      intros a s. unfold volume_apply_bc.
      destruct (bc_type b); try discriminate; reflexivity. }
    unfold volume_matches in Hf.
    destruct (foldM _ _ false st); [discriminate | reflexivity].
Qed.

(** C4 (as amended).  In the side dispatch a [DIRICHLET] condition is a
    no-op: the switch returns at once with [calculate_jac], [f] and [jac]
    as they were, and a dispatch that meets only [DIRICHLET] conditions
    completes with the buffers untouched.  The subdomain dispatch has no
    [DIRICHLET] case: there the condition ends in the fatal error. *)
Theorem dirichlet_is_noop_on_sides_only
    (request_jacobian : bool) (bc : multimap nat (BoundaryConditionBase R V))
    (st : LoadState R) :
  (forall n calculate_jac b,
      bc_type b = DIRICHLET ->
      side_apply_bc el request_jacobian n calculate_jac b st = Ok calculate_jac st) /\
  ((forall n b, In (n, b) (side_matches el bc) -> bc_type b = DIRICHLET) ->
   side_external_residual el request_jacobian bc st = Ok false st) /\
  (forall calculate_jac b,
      bc_type b = DIRICHLET ->
      volume_apply_bc el request_jacobian calculate_jac b st = Fatal st).
Proof.
  repeat split.
  - intros n cj b Hb. unfold side_apply_bc. rewrite Hb. reflexivity.
  - intros Hall. unfold side_external_residual, bind.
    rewrite side_external_loops_matches.
    rewrite foldM_skip.
    + unfold ret. rewrite andb_false_r. reflexivity.
    + intros [n b] a s Hin. unfold side_apply_match, side_apply_bc. simpl.
      rewrite (Hall n b Hin). reflexivity.
  - intros cj b Hb. unfold volume_apply_bc. rewrite Hb. reflexivity.
Qed.
End Dispatch.

Lemma external_residual_returns_request_and_computed_witness :
  let el := Fixture.beam false false in
  let bc := [(7, Fixture.bc_of_type TEMPERATURE 0)] in
  @volume_external_residual Z _ Fixture.debug_build el Z _ Fixture.assemble_real
    true bc Fixture.load0 = Ok true Fixture.load0 /\
  (true = true <->
   true = true /\
   some_handler_computed_jacobian
     (@volume_apply_bc Z _ Fixture.debug_build el Z _ Fixture.assemble_real true)
     (volume_matches el bc) Fixture.load0).
Proof.
  split; [reflexivity|].
  apply (proj2 (@external_residual_returns_request_and_computed
                  Z _ Fixture.debug_build Z _ Fixture.assemble_real
                  (Fixture.beam false false) true
                  [(7, Fixture.bc_of_type TEMPERATURE 0)]
                  Fixture.load0 true Fixture.load0)).
  reflexivity.
Defined.

(** C1, as stated, fails: with the Jacobian requested and no boundary
    condition registered, [calculate_jac] stays clear and the dispatch
    returns [false], not [calculate_jac || request_jacobian]. *)
Lemma external_residual_return_is_not_or :
  let el := Fixture.beam false false in
  @side_external_loops Z _ Fixture.debug_build el Z _ Fixture.assemble_real
    true [] Fixture.load0 = Ok false Fixture.load0 /\
  @side_external_residual Z _ Fixture.debug_build el Z _ Fixture.assemble_real
    true [] Fixture.load0 = Ok false Fixture.load0 /\
  @volume_external_residual Z _ Fixture.debug_build el Z _ Fixture.assemble_real
    true [] Fixture.load0 = Ok false Fixture.load0 /\
  false <> (false || true).
Proof.
  repeat split; discriminate.
Qed.

Lemma unsupported_type_is_fatal_witness :
  let el := Fixture.beam false false in
  let b := Fixture.bc_of_type TEMPERATURE 0 in
  In (0, b) (side_matches el [(4, b)]) /\
  side_supported (bc_type b) = false /\
  is_fatal (@side_external_residual Z _ Fixture.debug_build el Z _ Fixture.assemble_real
              false [(4, b)] Fixture.load0) = true.
Proof.
  split; [left; reflexivity|]. split; [reflexivity|].
  apply (proj1 (@unsupported_type_is_fatal
                  Z _ Fixture.debug_build Z _ Fixture.assemble_real
                  (Fixture.beam false false) false
                  [(4, Fixture.bc_of_type TEMPERATURE 0)] Fixture.load0
                  0 (Fixture.bc_of_type TEMPERATURE 0))).
  - left; reflexivity.
  - reflexivity.
Defined.

Lemma dirichlet_is_noop_on_sides_only_witness :
  let el := Fixture.beam false false in
  let b := Fixture.bc_of_type DIRICHLET 0 in
  bc_type b = DIRICHLET /\
  @side_apply_bc Z _ Fixture.debug_build el Z _ Fixture.assemble_real
    true 0 false b Fixture.load0 = Ok false Fixture.load0.
Proof.
  split; [reflexivity|].
  apply (proj1 (@dirichlet_is_noop_on_sides_only
                  Z _ Fixture.debug_build Z _ Fixture.assemble_real
                  (Fixture.beam false false) true [] Fixture.load0)).
  reflexivity.
Defined.

(** C4, as stated, fails for the subdomain dispatch: a [DIRICHLET]
    condition registered for the element's subdomain raises the error. *)
Lemma dirichlet_is_fatal_in_volume_dispatch :
  let el := Fixture.beam false false in
  let b := Fixture.bc_of_type DIRICHLET 0 in
  volume_matches el [(7, b)] = [b] /\
  @volume_external_residual Z _ Fixture.debug_build el Z _ Fixture.assemble_real
    false [(7, b)] Fixture.load0 = Fatal Fixture.load0.
Proof.
  split; reflexivity.
Qed.

(** ** Vectors and sums: basic facts *)

Section VectorFacts.
Context {R V : Type} {SR : Scalar R} {VT : ValType R V}.

Lemma vget_vzero (n i : nat) : vget (vzero n) i = v0 :> V.
Proof.
  unfold vget, vzero. revert i. induction n as [|n IH]; intros [|i]; simpl; auto.
Qed.

Lemma length_vzero (n : nat) : length (vzero n : list V) = n.
Proof. apply repeat_length. Qed.

Lemma length_vset (x : list V) (i : nat) (a : V) : length (vset x i a) = length x.
Proof.
  revert i. induction x as [|b x IH]; intros [|i]; simpl; auto.
Qed.

Lemma vget_vset (x : list V) (i j : nat) (a : V) :
  i < length x ->
  vget (vset x i a) j = if j =? i then a else vget x j.
Proof.
  unfold vget. revert i j. induction x as [|b x IH]; intros i j Hi; simpl in Hi.
  - lia.
  - destruct i as [|i], j as [|j]; simpl; auto.
    apply IH. lia.
Qed.

Lemma length_vec_add_assign (dst src : list V) :
  length (vec_add_assign dst src) = length dst.
Proof. unfold vec_add_assign. rewrite length_map, length_seq. reflexivity. Qed.

Lemma vget_map_seq (g : nat -> V) (n i : nat) :
  vget (map g (seq 0 n)) i = if i <? n then g i else v0.
Proof.
  unfold vget. destruct (Nat.ltb_spec i n) as [H|H].
  - rewrite nth_indep with (d' := g 0) by (rewrite length_map, length_seq; exact H).
    rewrite map_nth. rewrite seq_nth by exact H. reflexivity.
  - apply nth_overflow. rewrite length_map, length_seq. exact H.
Qed.

Lemma map_seq_vget (x : list V) :
  map (fun i => vget x i) (seq 0 (length x)) = x.
Proof.
  apply nth_ext with (d := v0) (d' := v0).
  - rewrite length_map, length_seq. reflexivity.
  - intros i Hi. rewrite length_map, length_seq in Hi.
    change (vget (map (fun i => vget x i) (seq 0 (length x))) i = vget x i).
    rewrite vget_map_seq. apply Nat.ltb_lt in Hi. rewrite Hi. reflexivity.
Qed.

Lemma map_seq_ext (g h : nat -> V) (n : nat) :
  (forall i, i < n -> g i = h i) ->
  map g (seq 0 n) = map h (seq 0 n).
Proof.
  intros H. apply map_ext_in. intros i Hi. apply in_seq in Hi. apply H. lia.
Qed.

Lemma vsum_ext (g h : nat -> V) (n : nat) :
  (forall i, i < n -> g i = h i) ->
  vsum g n = vsum h n.
Proof.
  induction n as [|n IH]; intros H; simpl.
  - reflexivity.
  - rewrite IH by (intros; apply H; lia). rewrite H by lia. reflexivity.
Qed.

Lemma length_vector_mult_transpose (B : FEMOperatorMatrix R) (v : list V) :
  length (vector_mult_transpose B v) = n_interpolated_vars B * length (shape_func B).
Proof.
  unfold vector_mult_transpose.
  generalize (n_interpolated_vars B) as n. generalize 0 as start.
  intros start n. revert start. induction n as [|n IH]; intros start; simpl.
  - reflexivity.
  - rewrite length_app, length_map, IH. reflexivity.
Qed.
End VectorFacts.

Lemma length_set_shape_function_values {R : Type} {SR : Scalar R} (fe : FE R) (qp : nat) (phi_vec : list R) :
  length (set_shape_function_values fe qp phi_vec) = length phi_vec.
Proof.
  unfold set_shape_function_values.
  generalize (seq 0 (length (get_phi fe))). intros l. revert phi_vec.
  induction l as [|i l IH]; intros phi_vec; simpl.
  - reflexivity.
  - rewrite IH. apply length_vset.
Qed.


(** ** A pressure field that vanishes everywhere *)

Section ZeroPressure.
Context {R : Type} {SR : Scalar R} {SL : ScalarLaws R} {BM : BuildMode}.
Variable el : StructuralElementBase R.

Add Ring scalar_ring : (@ring_laws R SR SL).

Lemma vsum_zero (g : nat -> R) (n : nat) :
  (forall i, i < n -> g i = r0) -> vsum g n = r0.
Proof.
  induction n as [|n IH]; intros H; simpl.
  - reflexivity.
  - rewrite IH by (intros; apply H; lia). rewrite H by lia. ring.
Qed.

Lemma map_const_seq (A : Type) (a : A) (start n : nat) :
  map (fun _ => a) (seq start n) = repeat a n.
Proof.
  revert start. induction n as [|n IH]; intros start; simpl.
  - reflexivity.
  - rewrite IH. reflexivity.
Qed.

Lemma mat_vec_vzero (m : Matrix R) (k : nat) :
  mat_vec m (vzero k : list R) = vzero (nrows m).
Proof.
  unfold mat_vec.
  rewrite map_seq_ext with (h := fun _ => r0).
  - apply map_const_seq.
  - intros i _. apply vsum_zero. intros j _.
    rewrite vget_vzero. simpl. ring.
Qed.

Lemma vec_scale_vzero (a : R) (k : nat) :
  vec_scale a (vzero k : list R) = vzero k.
Proof.
  unfold vec_scale, vzero. induction k as [|k IH]; simpl in *.
  - reflexivity.
  - rewrite IH. f_equal. ring.
Qed.

Lemma vec_add_assign_vzero (dst : list R) (k : nat) :
  vec_add_assign dst (vzero k) = dst.
Proof.
  unfold vec_add_assign.
  rewrite map_seq_ext with (h := fun i => vget dst i).
  - apply map_seq_vget.
  - intros i _. rewrite vget_vzero. simpl. ring.
Qed.

Lemma pressure_force_zero (normal : Point R) :
  pressure_force r0 normal (vzero (2 * n1)) = vzero (2 * n1).
Proof.
  unfold pressure_force. simpl.
  replace (rmul r0 (px normal)) with r0 by ring.
  replace (rmul r0 (py normal)) with r0 by ring.
  replace (rmul r0 (pz normal)) with r0 by ring.
  reflexivity.
Qed.

Lemma vector_mult_transpose_vzero (B : FEMOperatorMatrix R) (k : nat) :
  vector_mult_transpose B (vzero k : list R)
  = vzero (n_interpolated_vars B * length (shape_func B)).
Proof.
  unfold vector_mult_transpose.
  generalize (n_interpolated_vars B) as n. generalize 0 as start.
  intros start n. revert start. induction n as [|n IH]; intros start; simpl.
  - reflexivity.
  - rewrite IH. rewrite vget_vzero. unfold vzero. rewrite repeat_app. f_equal.
    clear IH. generalize (shape_func B) as l.
    induction l as [|a l IHl]; simpl in *.
    + reflexivity.
    + rewrite IHl. f_equal. ring.
Qed.

Section Loop.
Context {V : Type}.
Variable fe : FE R.
Variable normal_at : nat -> Point R.
Variable bc : BoundaryConditionBase R V.
Hypothesis pressure_zero : forall p t, pressure bc p t = r0.

Let n_phi := length (get_phi fe).

Lemma surface_pressure_qp_zero (l : PressureLocals R) (qp : nat) :
  p_force l = vzero (2 * n1) ->
  p_local_f l = vzero (6 * n_phi) ->
  surface_pressure_qp el fe (vzero n_phi) normal_at bc l qp
  = {| p_force := vzero (2 * n1); p_vec_n2 := vzero (6 * n_phi);
       p_local_f := vzero (6 * n_phi) |}.
Proof.
  intros Hf Hl. unfold surface_pressure_qp.
  rewrite pressure_zero, Hf, Hl, pressure_force_zero.
  rewrite vector_mult_transpose_vzero. simpl n_interpolated_vars. simpl shape_func.
  rewrite length_set_shape_function_values, length_vzero.
  fold n_phi. change (2 * n1) with 6.
  rewrite vec_scale_vzero, vec_add_assign_vzero. reflexivity.
Qed.

Lemma surface_pressure_loop_zero (qps : list nat) :
  let l := fold_left (surface_pressure_qp el fe (vzero n_phi) normal_at bc) qps
                     (pressure_locals_init n_phi) in
  p_local_f l = vzero (6 * n_phi) /\ length (p_vec_n2 l) = 6 * n_phi.
Proof.
  assert (H : forall l0 : PressureLocals R,
             p_force l0 = vzero (2 * n1) ->
             p_local_f l0 = vzero (6 * n_phi) ->
             length (p_vec_n2 l0) = 6 * n_phi ->
             let l := fold_left (surface_pressure_qp el fe (vzero n_phi) normal_at bc)
                                qps l0 in
             p_local_f l = vzero (6 * n_phi) /\ length (p_vec_n2 l) = 6 * n_phi).
  { induction qps as [|qp qps IH]; intros l0 Hf Hl Hv; simpl.
    - split; assumption.
    - rewrite surface_pressure_qp_zero by assumption.
      apply IH; simpl; try reflexivity. apply length_vzero. }
  apply H; simpl; try reflexivity. apply length_vzero.
Qed.
End Loop.

Lemma transform_vector_to_global_system_run (S0 : Type) (local_vec global_vec : list R) (s : S0) :
  transform_vector_to_global_system el local_vec global_vec s =
  if asserts_enabled && negb (length local_vec =? length global_vec) then Fatal s
  else Ok (mat_vec (global_T_matrix el) local_vec) s.
Proof.
  unfold transform_vector_to_global_system, libmesh_assert_equal_to, libmesh_assert, bind.
  destruct asserts_enabled; simpl; [|reflexivity].
  destruct (length local_vec =? length global_vec); reflexivity.
Qed.

(** Adding a local force that is zero: the tail shared by the steady
    pressure routines. *)
Lemma add_zero_force_to_global (k : nat) (vec_n2 : list R) (st : LoadState R) :
  length vec_n2 = k ->
  (v <- transform_vector_to_global_system el (vzero k) vec_n2 ;;
   s <- get_state ;;
   put_state {| f := vec_add_assign (f s) v; jac := jac s |}) st = Ok tt st.
Proof.
  intros Hlen. unfold bind. rewrite transform_vector_to_global_system_run.
  rewrite length_vzero, Hlen, Nat.eqb_refl, andb_false_r.
  unfold get_state, put_state.
  rewrite mat_vec_vzero, vec_add_assign_vzero. destruct st; reflexivity.
Qed.

Lemma libmesh_assert_run (S0 A : Type) (asserted : bool) (k : M S0 A) (s : S0) :
  (libmesh_assert asserted ;;; k) s =
  if asserts_enabled && negb asserted then Fatal s else k s.
Proof.
  unfold bind, libmesh_assert. destruct asserts_enabled, asserted; reflexivity.
Qed.

Lemma bind_run_ok (S0 A C : Type) (c : M S0 A) (k : A -> M S0 C) (s s' : S0) (a : A) :
  c s = Ok a s' -> (x <- c ;; k x) s = k a s'.
Proof. intros H. unfold bind. rewrite H. reflexivity. Qed.

(** C9.  With a pressure field function that returns zero everywhere, both
    steady surface-pressure routines leave [f] (and [jac]) exactly as they
    were: the routine either completes in the state it was called in, or, in
    a build that keeps assertions, stops at one of its assertions in that
    same state. *)
Theorem zero_pressure_adds_nothing (V : Type)
    (request_jacobian : bool) (side : nat)
    (bc : BoundaryConditionBase R V) (st : LoadState R) :
  (forall p t, pressure bc p t = r0) ->
  surface_pressure_residual_side el request_jacobian side bc st =
    (if asserts_enabled && follower_forces el then Fatal st
     else Ok (request_jacobian && follower_forces el) st) /\
  surface_pressure_residual el request_jacobian bc st =
    (if asserts_enabled && (negb (dim (_elem el) <? 3) || follower_forces el)
     then Fatal st
     else Ok (request_jacobian && follower_forces el) st).
Proof.
  intros Hzero. split.
  - unfold surface_pressure_residual_side.
    destruct (surface_pressure_loop_zero (side_fe_quadrature el side)
                (fun qp => nth qp (get_normals (side_fe_quadrature el side)) origin)
                bc Hzero (seq 0 (length (get_xyz (side_fe_quadrature el side)))))
      as [Hl Hv].
    cbv zeta in Hl, Hv. cbv zeta. rewrite Hl.
    rewrite libmesh_assert_run, negb_involutive.
    destruct (asserts_enabled && follower_forces el); [reflexivity|].
    match goal with
    | |- bind ?c _ st = _ => assert (Htail : c st = Ok tt st)
    end.
    { destruct (dim (_elem el) <? 3).
      - apply add_zero_force_to_global. exact Hv.
      - unfold bind, get_state, put_state. rewrite vec_add_assign_vzero.
        destruct st; reflexivity. }
    rewrite (@bind_run_ok _ _ _ _ _ _ _ _ Htail). reflexivity.
  - unfold surface_pressure_residual.
    destruct (surface_pressure_loop_zero (_fe el) (fun _ => assumed_normal el)
                bc Hzero (seq 0 (length (get_xyz (_fe el)))))
      as [Hl Hv].
    cbv zeta in Hl, Hv. cbv zeta. rewrite Hl.
    rewrite !libmesh_assert_run, negb_involutive.
    unfold bind. rewrite transform_vector_to_global_system_run.
    rewrite length_vzero, Hv, Nat.eqb_refl, andb_false_r.
    unfold get_state, put_state, ret.
    rewrite mat_vec_vzero, vec_add_assign_vzero.
    destruct st.
    destruct asserts_enabled, (dim (_elem el) <? 3), (follower_forces el); reflexivity.
Qed.
End ZeroPressure.

Lemma zero_pressure_adds_nothing_witness :
  let el := Fixture.beam false false in
  let bc := Fixture.bc_of_type SURFACE_PRESSURE 0 in
  (forall p t, pressure bc p t = 0%Z) /\
  @surface_pressure_residual_side Z _ Fixture.debug_build el Z false 0 bc Fixture.load0
    = Ok false Fixture.load0.
Proof.
  split; [reflexivity|].
  refine (eq_trans
            (proj1 (@zero_pressure_adds_nothing Z _ _ Fixture.debug_build
                      (Fixture.beam false false) Z false 0
                      (Fixture.bc_of_type SURFACE_PRESSURE 0) Fixture.load0
                      (fun _ _ => eq_refl)))
            _).
  reflexivity.
Defined.

(** ** Small-disturbance pressure: the force at a quadrature point *)

Section SmallDisturbanceForce.
Context {R V : Type} {SR : Scalar R} {VT : ValType R V}.
Variable el : StructuralElementBase R.

Lemma small_disturbance_force_spec (press : R) (dpress : V) (dn_rot : list V)
    (normal : Point R) (force : list V) :
  length force = 2 * n1 ->
  length (small_disturbance_force press dpress dn_rot normal force) = 2 * n1 /\
  forall i, i < n1 ->
    vget (small_disturbance_force press dpress dn_rot normal force) i
    = small_disturbance_force_component press dpress dn_rot normal i.
Proof.
  intros Hlen.
  destruct force as [|a0 [|a1 [|a2 [|a3 [|a4 [|a5 [|a6 force]]]]]]]; try discriminate Hlen.
  split; [reflexivity|].
  intros i Hi. unfold n1 in Hi.
  destruct i as [|[|[|i]]]; try lia; reflexivity.
Qed.

Section Loop.
Variable fe : FE R.
Variable phi_vec0 : list R.
Variable normal_at : nat -> Point R.
Variable bc : BoundaryConditionBase R V.

Lemma small_disturbance_loop_force_length (qps : list nat) (l0 : PressureLocals V) :
  length (p_force l0) = 2 * n1 ->
  length (p_force (fold_left (small_disturbance_qp el fe phi_vec0 normal_at bc) qps l0))
  = 2 * n1.
Proof.
  revert l0. induction qps as [|qp qps IH]; intros l0 Hlen; simpl.
  - exact Hlen.
  - apply IH. unfold small_disturbance_qp. simpl p_force.
    apply small_disturbance_force_spec. exact Hlen.
Qed.

(** After the iteration of quadrature point [qp], [force] holds the
    combination of the values the three field functions take at that
    point. *)
Lemma small_disturbance_loop_force (qp i : nat) (l0 : PressureLocals V) :
  length (p_force l0) = 2 * n1 ->
  i < n1 ->
  let pt := global_coordinates_location (_local_elem el) (nth qp (get_xyz fe) origin) in
  vget (p_force (fold_left (small_disturbance_qp el fe phi_vec0 normal_at bc)
                           (seq 0 (S qp)) l0)) i
  = small_disturbance_force_component
      (pressure bc pt (_time el)) (dpressure bc pt (_time el))
      (dnormal bc pt (_time el)) (normal_at qp) i.
Proof.
  intros Hlen Hi pt.
  rewrite seq_S, fold_left_app. simpl fold_left.
  unfold small_disturbance_qp at 1. simpl p_force.
  apply small_disturbance_force_spec; [|exact Hi].
  apply small_disturbance_loop_force_length. exact Hlen.
Qed.
End Loop.

Lemma small_disturbance_side_force (side qp i : nat) (bc : BoundaryConditionBase R V) :
  i < n1 ->
  let fe := side_fe_local el side in
  let pt := global_coordinates_location (_local_elem el) (nth qp (get_xyz fe) origin) in
  vget (p_force (small_disturbance_side_loop el side bc (S qp))) i
  = small_disturbance_force_component
      (pressure bc pt (_time el)) (dpressure bc pt (_time el))
      (dnormal bc pt (_time el)) (nth qp (get_normals fe) origin) i.
Proof.
  intros Hi fe pt. unfold small_disturbance_side_loop.
  apply (small_disturbance_loop_force fe (vzero (length (get_phi fe)))
           (fun qp => nth qp (get_normals fe) origin) bc qp
           (pressure_locals_init (length (get_phi fe)))); [|exact Hi].
  reflexivity.
Qed.

(** The whole-element variant never gets as far as the force: with a shape
    function and a quadrature point to visit, the first iteration writes
    [phi_vec(0)] into a vector that has no entries. *)
Lemma small_disturbance_loop_stops {S0 : Type} (bc : BoundaryConditionBase R V)
    (n_qp : nat) (s : S0) :
  get_phi (_fe el) <> [] ->
  n_qp <> 0 ->
  small_disturbance_loop el bc n_qp s = Fatal s.
Proof.
  intros Hphi Hqp.
  destruct n_qp as [|n_qp]; [congruence|].
  unfold small_disturbance_loop.
  change (seq 0 (S n_qp)) with (0 :: seq 1 n_qp).
  cbn [foldM]. unfold bind at 1.
  unfold small_disturbance_qp_whole. unfold bind at 1.
  unfold set_shape_function_values_checked. cbn [fst].
  destruct (get_phi (_fe el)) as [|row rows]; [congruence|].
  cbn [length]. change (seq 0 (S (length rows))) with (0 :: seq 1 (length rows)).
  cbn [foldM]. unfold bind at 1. reflexivity.
Qed.
End SmallDisturbanceForce.

(** The force of the side variant, for the Real and for the Complex
    instantiation of the one routine body: once the iteration of quadrature
    point [qp] has run, each of the three components of [force] is
    [press * dn_rot(i) + dpress * normal(i)], with the steady pressure, the
    unsteady pressure and the perturbed normal read at that quadrature
    point, and [normal] the face normal there. *)
Lemma small_disturbance_side_force_formula
    {R : Type} {SR : Scalar R} (el : StructuralElementBase R)
    (side qp i : nat)
    (bc_real : BoundaryConditionBase R R)
    (bc_complex : BoundaryConditionBase R (R * R)) :
  i < 3 ->
  let fe := side_fe_local el side in
  let t := _time el in
  let pt_side := global_coordinates_location (_local_elem el) (nth qp (get_xyz fe) origin) in
  let face_normal := nth qp (get_normals fe) origin in
  (* Real *)
  vget (p_force (small_disturbance_side_loop (VT := RealVal) el side bc_real (S qp))) i
  = radd (rmul (pressure bc_real pt_side t) (vget (dnormal bc_real pt_side t) i))
         (rmul (pget face_normal i) (dpressure bc_real pt_side t)) /\
  (* Complex *)
  vget (p_force (small_disturbance_side_loop (VT := ComplexVal) el side bc_complex (S qp))) i
  = vadd (vscale (pressure bc_complex pt_side t) (vget (dnormal bc_complex pt_side t) i))
         (vscale (pget face_normal i) (dpressure bc_complex pt_side t)).
Proof.
  intros Hi fe t pt_side face_normal.
  split.
  - apply (small_disturbance_side_force (VT := RealVal) el side qp bc_real Hi).
  - apply (small_disturbance_side_force (VT := ComplexVal) el side qp bc_complex Hi).
Qed.

(** C7.  The whole-element small-disturbance routine does not compute the
    force at any quadrature point.  Its [phi_vec] is declared without a
    size, and the first thing an iteration does is write the shape function
    values into it: on an element with a shape function and a quadrature
    point the routine stops at [phi_vec(0) = phi[0][0]], before
    [press * dn_rot + dpress * normal] is formed, and [f] and [jac] are
    what they were.  This is so for every value type (Real, Complex), in
    every build, for every boundary condition and request. *)
Theorem small_disturbance_whole_element_stops_at_phi_vec
    {R V : Type} {SR : Scalar R} {BM : BuildMode} {VT : ValType R V}
    {AV : AssembledVector R V}
    (el : StructuralElementBase R) (request_jacobian : bool)
    (bc : BoundaryConditionBase R V) (st : LoadState R) :
  get_phi (_fe el) <> [] ->
  get_xyz (_fe el) <> [] ->
  small_disturbance_surface_pressure_residual el request_jacobian bc st = Fatal st.
Proof.
  intros Hphi Hxyz.
  assert (Hqp : length (get_xyz (_fe el)) <> 0)
    by (destruct (get_xyz (_fe el)); [congruence | discriminate]).
  unfold small_disturbance_surface_pressure_residual, libmesh_assert, libmesh_error.
  repeat match goal with
         | |- context [if ?b then _ else _] => destruct b
         end;
    unfold bind, ret;
    try reflexivity;
    rewrite (small_disturbance_loop_stops el bc st Hphi Hqp); reflexivity.
Qed.

Lemma small_disturbance_whole_element_stops_at_phi_vec_witness :
  let el := Fixture.beam false false in
  (get_phi (_fe el) <> [] /\ get_xyz (_fe el) <> []) /\
  small_disturbance_surface_pressure_residual
    (BM := Fixture.debug_build) (VT := ComplexVal) (AV := Fixture.assemble_complex)
    el false Fixture.bc_complex Fixture.load0
  = Fatal Fixture.load0.
Proof.
  split; [split; discriminate|].
  apply (@small_disturbance_whole_element_stops_at_phi_vec
           Z (Z * Z) _ Fixture.debug_build ComplexVal Fixture.assemble_complex
           (Fixture.beam false false) false Fixture.bc_complex Fixture.load0);
    discriminate.
Defined.

(** ** Inertial residual: the lumped-mass branch *)

Section MatrixFacts.
Context {R : Type} {SR : Scalar R}.

Lemma mset_in_range (m : Matrix R) (i j : nat) (a : R) :
  i < nrows m -> j < ncols m ->
  nrows (mset m i j a) = nrows m /\
  ncols (mset m i j a) = ncols m /\
  forall r c, coef (mset m i j a) r c = if (r =? i) && (c =? j) then a else coef m r c.
Proof.
  intros Hi Hj. unfold mset.
  apply Nat.ltb_lt in Hi. apply Nat.ltb_lt in Hj. rewrite Hi, Hj. simpl.
  repeat split.
Qed.

(** [for (i = 0; i < k; i++) m(a + i, a + i) = x] *)
Lemma diagonal_fill (x : R) (a k : nat) (m : Matrix R) :
  a + k <= nrows m -> a + k <= ncols m ->
  let m' := fold_left (fun m i => mset m (a + i) (a + i) x) (seq 0 k) m in
  nrows m' = nrows m /\
  ncols m' = ncols m /\
  forall r c, coef m' r c =
              if (r =? c) && (a <=? r) && (r <? a + k) then x else coef m r c.
Proof.
  induction k as [|k IH]; intros Hr Hc.
  - simpl. repeat split. intros r c.
    destruct (r =? c), (Nat.leb_spec a r), (Nat.ltb_spec r (a + 0)); simpl; try reflexivity; lia.
  - cbv zeta. rewrite seq_S, fold_left_app. simpl fold_left.
    destruct IH as (IHr & IHc & IHcoef); [lia | lia |].
    cbv zeta in IHr, IHc, IHcoef.
    destruct (@mset_in_range
                (fold_left (fun m i => mset m (a + i) (a + i) x) (seq 0 k) m)
                (a + k) (a + k) x) as (Hr' & Hc' & Hcoef'); [lia | lia |].
    simpl Nat.add at 1 2.
    rewrite Hr', Hc'. repeat split; try assumption.
    intros r c. rewrite Hcoef', IHcoef.
    destruct (Nat.eqb_spec r (a + k)), (Nat.eqb_spec c (a + k)), (Nat.eqb_spec r c),
      (Nat.leb_spec a r), (Nat.ltb_spec r (a + k)), (Nat.ltb_spec r (a + S k));
      simpl; try reflexivity; lia.
Qed.

(** The two loops that fill the diagonal of the lumped mass matrix. *)
Lemma lumped_fill (vol : R) (material_mat : Matrix R) (nshp n_var : nat) (m : Matrix R) :
  n_var * nshp <= nrows m -> n_var * nshp <= ncols m ->
  let m' :=
    fold_left (fun local_jac i_var =>
      fold_left (fun local_jac i =>
        mset local_jac (i_var * nshp + i) (i_var * nshp + i)
             (rmul vol (coef material_mat i_var i_var)))
        (seq 0 nshp) local_jac)
      (seq 0 n_var) m in
  nrows m' = nrows m /\
  ncols m' = ncols m /\
  forall r c, coef m' r c =
              if (r =? c) && (r <? n_var * nshp)
              then rmul vol (coef material_mat (r / nshp) (r / nshp))
              else coef m r c.
Proof.
  induction n_var as [|j IH]; intros Hr Hc.
  - simpl. repeat split.
    intros r c. rewrite andb_false_r. reflexivity.
  - cbv zeta. rewrite seq_S, fold_left_app. simpl fold_left.
    destruct IH as (IHr & IHc & IHcoef); [lia | lia |].
    cbv zeta in IHr, IHc, IHcoef.
    simpl Nat.add at 1 2.
    match goal with
    | |- context [fold_left ?body (seq 0 nshp) ?m0] =>
        destruct (@diagonal_fill (rmul vol (coef material_mat j j)) (j * nshp) nshp m0)
          as (Hr' & Hc' & Hcoef')
    end; [lia | lia |].
    cbv zeta in Hr', Hc', Hcoef'.
    rewrite Hr', Hc'. repeat split; try assumption.
    intros r c. rewrite Hcoef', IHcoef.
    change (S j * nshp) with (nshp + j * nshp) in *.
    destruct (Nat.eqb_spec r c) as [E|E]; cbn [andb]; [|reflexivity].
    destruct (Nat.leb_spec (j * nshp) r) as [Hlo|Hlo];
      destruct (Nat.ltb_spec r (j * nshp + nshp)) as [Hhi|Hhi];
      destruct (Nat.ltb_spec r (j * nshp)) as [H1|H1];
      destruct (Nat.ltb_spec r (nshp + j * nshp)) as [H2|H2];
      cbn [andb]; try reflexivity; try lia.
    assert (Hq : r / nshp = j).
    { symmetry. apply Nat.div_unique with (r := r - j * nshp); lia. }
    rewrite Hq. reflexivity.
Qed.
End MatrixFacts.

Section LumpedMass.
Context {R : Type} {SR : Scalar R} {SL : ScalarLaws R}.
Variable el : StructuralElementBase R.
Variable local_accel : list R.

Add Ring scalar_ring_lumped : (@ring_laws R SR SL).

Lemma volume_loop (JxW : list R) (n : nat) :
  fold_left (fun vol i => radd vol (vget JxW i)) (seq 0 n) r0
  = vsum (fun i => vget JxW i) n.
Proof.
  induction n as [|n IH].
  - reflexivity.
  - rewrite seq_S, fold_left_app. simpl. rewrite IH. reflexivity.
Qed.

(** C8.  With the lumped-mass flag set, the inertia field function is
    evaluated once, at the location of the first quadrature point; the local
    mass matrix is diagonal, the entry of degree of freedom [r] being
    (element volume / node count) times the diagonal inertia component of
    the variable [r] belongs to; and the local force is that matrix times
    the local acceleration. *)
Theorem lumped_mass_matrix_is_diagonal (request_jacobian : bool) :
  if_diagonal_mass_matrix (_property el) = true ->
  let l := inertial_local el local_accel request_jacobian in
  let n := n_shape_functions (_fe el) in
  let p := global_coordinates_location (_local_elem el)
             (nth 0 (get_xyz (_fe el)) origin) in
  let material_mat := inertia_matrix (_property el) p (_time el) in
  inertia_evaluations l = [p] /\
  nrows (local_jac l) = 6 * n /\
  ncols (local_jac l) = 6 * n /\
  (forall r c, r < 6 * n -> c < 6 * n ->
     coef (local_jac l) r c =
     if r =? c
     then rmul (rdiv (element_volume el) (rnat n)) (coef material_mat (r / n) (r / n))
     else r0) /\
  local_f l = mat_vec (local_jac l) local_accel.
Proof.
  intros Hflag l n p material_mat.
  unfold l, inertial_local. rewrite Hflag.
  unfold inertial_lumped. cbn [inertia_evaluations local_jac local_f inertial_locals_init app].
  fold p. fold material_mat. fold n. unfold n_shape_functions in n. fold n.
  rewrite volume_loop. fold (element_volume el).
  match goal with
  | |- context [fold_left ?body (seq 0 6) ?m0] =>
      destruct (@lumped_fill R SR (rdiv (element_volume el) (rmul r1 (rnat n)))
                  material_mat n 6 m0) as (Hr & Hc & Hcoef)
  end; [simpl; lia | simpl; lia |].
  cbv zeta in Hr, Hc, Hcoef.
  split; [reflexivity|].
  split; [exact Hr|]. split; [exact Hc|]. split; [|reflexivity].
  intros r c Hlt _. rewrite Hcoef.
  apply Nat.ltb_lt in Hlt. rewrite Hlt, andb_true_r.
  destruct (r =? c); [|reflexivity].
  replace (rmul r1 (rnat n)) with (rnat n) by ring. reflexivity.
Qed.
End LumpedMass.

Lemma lumped_mass_matrix_is_diagonal_witness :
  let el := Fixture.beam true false in
  let l := inertial_local el Fixture.ramp12 true in
  if_diagonal_mass_matrix (_property el) = true /\
  inertia_evaluations l = [Fixture.pt 1 0 0] /\
  local_f l = Fixture.ramp12.
Proof.
  split; [reflexivity|].
  destruct (@lumped_mass_matrix_is_diagonal Z _ _ (Fixture.beam true false)
              Fixture.ramp12 true eq_refl) as (He & _ & _ & _ & Hf).
  split; [exact He|].
  rewrite Hf. reflexivity.
Defined.

(** ** Inertial residual: the consistent-mass branch *)

Section ConsistentMass.
Context {R : Type} {SR : Scalar R}.
Variable el : StructuralElementBase R.
Variable local_accel : list R.

(** Every iteration of the quadrature loop evaluates the inertia field
    function at the location of the first quadrature point. *)
Lemma consistent_mass_evaluation_points (request_jacobian : bool) :
  if_diagonal_mass_matrix (_property el) = false ->
  inertia_evaluations (inertial_local el local_accel request_jacobian)
  = repeat (global_coordinates_location (_local_elem el)
              (nth 0 (get_xyz (_fe el)) origin))
           (length (get_JxW (_fe el))).
Proof.
  intros Hflag. unfold inertial_local. rewrite Hflag. unfold inertial_consistent.
  assert (H : forall (qps : list nat) (l0 : InertialLocals R),
             inertia_evaluations
               (fold_left (inertial_consistent_qp el local_accel request_jacobian) qps l0)
             = inertia_evaluations l0 ++
               repeat (global_coordinates_location (_local_elem el)
                         (nth 0 (get_xyz (_fe el)) origin)) (length qps)).
  { induction qps as [|qp qps IH]; intros l0; simpl.
    - rewrite app_nil_r. reflexivity.
    - rewrite IH. simpl. rewrite <- app_assoc. reflexivity. }
  rewrite H. rewrite length_seq. reflexivity.
Qed.
End ConsistentMass.

(** C2: the code at a two-point beam whose inertia grows along x.  The
    quadrature points sit at x = 1 and x = 3; the loop evaluates the inertia
    at x = 1 in both iterations, and the local force it accumulates differs
    from the one obtained with the inertia of each quadrature point. *)
Lemma consistent_mass_samples_first_point_only :
  let el := Fixture.beam false false in
  let l := inertial_local el Fixture.ramp12 true in
  let l_spec := inertial_consistent_at_own_points el Fixture.ramp12 true in
  if_diagonal_mass_matrix (_property el) = false /\
  map (global_coordinates_location (_local_elem el)) (get_xyz (_fe el))
    = [Fixture.pt 1 0 0; Fixture.pt 3 0 0] /\
  inertia_evaluations l = [Fixture.pt 1 0 0; Fixture.pt 1 0 0] /\
  inertia_evaluations l_spec = [Fixture.pt 1 0 0; Fixture.pt 3 0 0] /\
  local_f l = [1; 2; 3; 4; 5; 6; 7; 8; 9; 10; 11; 12]%Z /\
  local_f l_spec = [1; 6; 3; 12; 5; 18; 7; 24; 9; 30; 11; 36]%Z /\
  coef (local_jac l) 1 1 = 1%Z /\
  coef (local_jac l_spec) 1 1 = 3%Z.
Proof.
  repeat split; vm_compute; reflexivity.
Qed.

(** ** The block transformation matrix *)

Section BlockMatrix.
Context {R : Type} {SR : Scalar R}.

Lemma nrows_mset (m : Matrix R) (i j : nat) (a : R) : nrows (mset m i j a) = nrows m.
Proof. unfold mset. destruct ((i <? nrows m) && (j <? ncols m)); reflexivity. Qed.

Lemma ncols_mset (m : Matrix R) (i j : nat) (a : R) : ncols (mset m i j a) = ncols m.
Proof. unfold mset. destruct ((i <? nrows m) && (j <? ncols m)); reflexivity. Qed.

Lemma coef_mset (m : Matrix R) (i j : nat) (a : R) (r c : nat) :
  coef (mset m i j a) r c =
  if ((i <? nrows m) && (j <? ncols m)) && ((r =? i) && (c =? j)) then a else coef m r c.
Proof. unfold mset. destruct ((i <? nrows m) && (j <? ncols m)); reflexivity. Qed.

(** Degrees of freedom are numbered variable by variable: [p * n + i] is
    variable [p] of node [i]. *)
Lemma dof_index_eqb (n p i q j : nat) :
  i < n -> j < n ->
  (p * n + i =? q * n + j) = (p =? q) && (i =? j).
Proof.
  intros Hi Hj.
  destruct (Nat.eqb_spec p q) as [->|Hpq]; simpl.
  - destruct (Nat.eqb_spec i j) as [->|Hij].
    + apply Nat.eqb_refl.
    + apply Nat.eqb_neq. lia.
  - apply Nat.eqb_neq. intros H. apply Hpq.
    assert (Hp : (p * n + i) / n = p) by (rewrite Nat.div_add_l by lia; rewrite Nat.div_small by lia; lia).
    assert (Hq : (q * n + j) / n = q) by (rewrite Nat.div_add_l by lia; rewrite Nat.div_small by lia; lia).
    rewrite <- Hp, <- Hq, H. reflexivity.
Qed.

(** The body of the loop over the nodes in [init_global_T_matrix]. *)
Lemma node_writes (n : nat) (Tmat mat : Matrix R) (i : nat) :
  i < n -> nrows mat = 6 * n -> ncols mat = 6 * n ->
  let mat' :=
    fold_left (fun mat j =>
      fold_left (fun mat k =>
        let mat := mset mat (j * n + i) (k * n + i) (coef Tmat j k) in
        mset mat ((j + 3) * n + i) ((k + 3) * n + i) (coef Tmat j k))
        (seq 0 3) mat)
      (seq 0 3) mat in
  nrows mat' = 6 * n /\
  ncols mat' = 6 * n /\
  forall p q a b, p < 6 -> q < 6 -> a < n -> b < n ->
    coef mat' (p * n + a) (q * n + b) =
    if (a =? i) && (b =? i) && (p / 3 =? q / 3)
    then coef Tmat (p mod 3) (q mod 3)
    else coef mat (p * n + a) (q * n + b).
Proof.
  intros Hi Hr Hc. cbn [fold_left seq]. cbv zeta.
  split; [rewrite !nrows_mset; exact Hr|].
  split; [rewrite !ncols_mset; exact Hc|].
  intros p q a b Hp Hq Ha Hb.
  rewrite !coef_mset. rewrite !nrows_mset, !ncols_mset, Hr, Hc.
  repeat match goal with
         | |- context [?x <? 6 * n] =>
             replace (x <? 6 * n) with true by (symmetry; apply Nat.ltb_lt; lia)
         end.
  cbn [andb].
  rewrite !dof_index_eqb by assumption.
  destruct (a =? i), (b =? i); rewrite ?andb_false_r; cbn [andb]; try reflexivity.
  rewrite ?andb_true_r.
  destruct p as [|[|[|[|[|[|p]]]]]]; try lia;
    destruct q as [|[|[|[|[|[|q]]]]]]; try lia; reflexivity.
Qed.
End BlockMatrix.

Section GlobalTMatrix.
Context {R : Type} {SR : Scalar R}.

(** Entries of the matrix built by [init_global_T_matrix]: variable [p] of
    node [a] is coupled to variable [q] of the same node, through [T]. *)
Lemma init_global_T_matrix_coef (n : nat) (Tmat : Matrix R) :
  let G := init_global_T_matrix n Tmat (mzero (6 * n) (6 * n)) in
  nrows G = 6 * n /\
  ncols G = 6 * n /\
  forall p q a b, p < 6 -> q < 6 -> a < n -> b < n ->
    coef G (p * n + a) (q * n + b) = if a =? b then dof_kernel Tmat p q else r0.
Proof.
  cbv zeta. unfold init_global_T_matrix.
  assert (H : forall m, m <= n ->
    let G := fold_left (fun mat i =>
               fold_left (fun mat j =>
                 fold_left (fun mat k =>
                   let mat := mset mat (j * n + i) (k * n + i) (coef Tmat j k) in
                   mset mat ((j + 3) * n + i) ((k + 3) * n + i) (coef Tmat j k))
                   (seq 0 3) mat)
                 (seq 0 3) mat)
               (seq 0 m) (mzero (6 * n) (6 * n)) in
    nrows G = 6 * n /\
    ncols G = 6 * n /\
    forall p q a b, p < 6 -> q < 6 -> a < n -> b < n ->
      coef G (p * n + a) (q * n + b) =
      if (a <? m) && (a =? b) then dof_kernel Tmat p q else r0).
  { induction m as [|m IH]; intros Hm.
    - simpl. repeat split.
    - cbv zeta. rewrite (seq_S m 0), fold_left_app. cbn [fold_left Nat.add].
      destruct IH as (IHr & IHc & IHcoef); [lia|].
      cbv zeta in IHr, IHc, IHcoef.
      match goal with
      | |- context [fold_left _ (seq 0 3) ?m0] =>
          destruct (@node_writes R n Tmat m0 m) as (Hr & Hc & Hcoef)
      end; [lia | exact IHr | exact IHc |].
      cbv zeta in Hr, Hc, Hcoef.
      split; [exact Hr|]. split; [exact Hc|].
      intros p q a b Hp Hq Ha Hb.
      rewrite Hcoef, IHcoef by assumption.
      unfold dof_kernel.
      destruct (Nat.eqb_spec a m), (Nat.eqb_spec b m), (Nat.eqb_spec a b),
        (Nat.ltb_spec a m), (Nat.ltb_spec a (S m)), (p / 3 =? q / 3);
        cbn [andb]; try reflexivity; lia. }
  destruct (H n (le_n n)) as (Hr & Hc & Hcoef). cbv zeta in Hr, Hc, Hcoef.
  split; [exact Hr|]. split; [exact Hc|].
  intros p q a b Hp Hq Ha Hb. rewrite Hcoef by assumption.
  apply Nat.ltb_lt in Ha. rewrite Ha. reflexivity.
Qed.
End GlobalTMatrix.

(** ** Products with a matrix made of node-diagonal blocks *)

Section KernelProduct.
Context {R : Type} {SR : Scalar R} {SL : ScalarLaws R}.

Add Ring scalar_ring_kernel : (@ring_laws R SR SL).

Lemma vsum_split (g : nat -> R) (a b : nat) :
  vsum g (a + b) = radd (vsum g a) (vsum (fun i => g (a + i)) b).
Proof.
  induction b as [|b IH].
  - rewrite Nat.add_0_r. simpl. ring.
  - rewrite Nat.add_succ_r. simpl. rewrite IH. ring.
Qed.

Lemma vsum_six_blocks (g : nat -> R) (n : nat) :
  vsum g (6 * n) = sum6 (fun q => vsum (fun i => g (q * n + i)) n).
Proof.
  replace (6 * n) with (n + (n + (n + (n + (n + n))))) by lia.
  rewrite !vsum_split. unfold sum6.
  rewrite (vsum_ext g (fun i => g (0 * n + i))) by reflexivity.
  rewrite (vsum_ext (fun i => g (n + i)) (fun i => g (1 * n + i)))
    by (intros; f_equal; lia).
  rewrite (vsum_ext (fun i => g (n + (n + i))) (fun i => g (2 * n + i)))
    by (intros; f_equal; lia).
  rewrite (vsum_ext (fun i => g (n + (n + (n + i)))) (fun i => g (3 * n + i)))
    by (intros; f_equal; lia).
  rewrite (vsum_ext (fun i => g (n + (n + (n + (n + i))))) (fun i => g (4 * n + i)))
    by (intros; f_equal; lia).
  rewrite (vsum_ext (fun i => g (n + (n + (n + (n + (n + i)))))) (fun i => g (5 * n + i)))
    by (intros; f_equal; lia).
  ring.
Qed.

Lemma vsum_delta (g : nat -> R) (a n : nat) :
  a < n ->
  vsum (fun b => if a =? b then g b else r0) n = g a.
Proof.
  induction n as [|n IH]; intros Ha.
  - lia.
  - simpl. destruct (Nat.eqb_spec a n) as [->|Hne].
    + rewrite vsum_zero.
      * ring.
      * intros i Hi. destruct (Nat.eqb_spec n i); [lia | reflexivity].
    + rewrite IH by lia. ring.
Qed.

Variable n : nat.
Variable G : Matrix R.
Variable K : nat -> nat -> R.
Hypothesis G_rows : nrows G = 6 * n.
Hypothesis G_cols : ncols G = 6 * n.
Hypothesis G_coef :
  forall p q a b, p < 6 -> q < 6 -> a < n -> b < n ->
    coef G (p * n + a) (q * n + b) = if a =? b then K p q else r0.

Lemma length_mat_vec_blocks (x : list R) : length (mat_vec G x) = 6 * n.
Proof. unfold mat_vec. rewrite length_map, length_seq. exact G_rows. Qed.

(** Row [p * n + a] of [G x] only reads the six entries of [x] that belong
    to node [a]. *)
Lemma mat_vec_blocks (x : list R) (p a : nat) :
  p < 6 -> a < n ->
  vget (mat_vec G x) (p * n + a) = sum6 (fun q => rmul (K p q) (vget x (q * n + a))).
Proof.
  intros Hp Ha. unfold mat_vec.
  rewrite (@vget_map_seq R R RealVal).
  assert (Hlt : p * n + a < nrows G) by (rewrite G_rows; nia).
  apply Nat.ltb_lt in Hlt. rewrite Hlt.
  rewrite G_cols, vsum_six_blocks. unfold sum6.
  assert (Hblock : forall q, q < 6 ->
            vsum (fun i => vscale (coef G (p * n + a) (q * n + i)) (vget x (q * n + i))) n
            = rmul (K p q) (vget x (q * n + a))).
  { intros q Hq.
    rewrite (@vsum_ext R R RealVal _
               (fun b => if a =? b then rmul (K p q) (vget x (q * n + b)) else r0)).
    - apply vsum_delta with (g := fun b => rmul (K p q) (vget x (q * n + b))). exact Ha.
    - intros b Hb. rewrite G_coef by assumption.
      destruct (a =? b); simpl; [reflexivity | ring]. }
  rewrite !Hblock by lia. reflexivity.
Qed.
End KernelProduct.

(** ** Round trip between the global and the local frame *)

Section KernelAlgebra.
Context {R : Type} {SR : Scalar R} {SL : ScalarLaws R}.
Variable T : Matrix R.

Add Ring scalar_ring_algebra : (@ring_laws R SR SL).

(** Row [j] of [T] against row [l] of [T]. *)
Let row_product (j l : nat) : R :=
  radd (radd (rmul (coef T j 0) (coef T l 0)) (rmul (coef T j 1) (coef T l 1)))
       (rmul (coef T j 2) (coef T l 2)).

Ltac regroup_rows x j g :=
  transitivity
    (radd (radd (rmul (row_product j 0) (x (3 * g + 0)))
                (rmul (row_product j 1) (x (3 * g + 1))))
          (rmul (row_product j 2) (x (3 * g + 2))));
  [ unfold row_product; simpl; ring
  | unfold row_product;
    match goal with
    | H : orthonormal T |- _ =>
        rewrite (H j 0), (H j 1), (H j 2) by lia
    end;
    simpl; ring ].

(** [K (K^T x) = x] for the 6x6 pattern [K] of an orthonormal [T]. *)
Lemma kernel_round_trip (x : nat -> R) (p : nat) :
  orthonormal T -> p < 6 ->
  sum6 (fun q => rmul (dof_kernel T p q)
                      (sum6 (fun p' => rmul (dof_kernel T p' q) (x p')))) = x p.
Proof.
  intros Horth Hp.
  destruct p as [|[|[|[|[|[|p]]]]]]; try lia; unfold sum6, dof_kernel; simpl.
  - regroup_rows x 0 0.
  - regroup_rows x 1 0.
  - regroup_rows x 2 0.
  - regroup_rows x 0 1.
  - regroup_rows x 1 1.
  - regroup_rows x 2 1.
Qed.

(** With [T] the identity, [K] and [K^T] leave a vector as it is. *)
Lemma kernel_identity (x : nat -> R) (p : nat) :
  is_identity T -> p < 6 ->
  sum6 (fun q => rmul (dof_kernel T p q) (x q)) = x p /\
  sum6 (fun q => rmul (dof_kernel T q p) (x q)) = x p.
Proof.
  intros Hid Hp.
  destruct p as [|[|[|[|[|[|p]]]]]]; try lia; unfold sum6, dof_kernel; simpl;
    rewrite !Hid by lia; simpl; split; ring.
Qed.
End KernelAlgebra.

Section RoundTrip.
Context {R : Type} {SR : Scalar R} {SL : ScalarLaws R} {BM : BuildMode}.
Variable el : StructuralElementBase R.

Let n := n_shape_functions (_fe el).
Let Tmat := T_matrix (_local_elem el).

Lemma dof_split (r : nat) :
  r < 6 * n -> exists p a, p < 6 /\ a < n /\ r = p * n + a.
Proof.
  intros Hr. assert (Hn : n <> 0) by lia.
  exists (r / n), (r mod n). repeat split.
  - apply Nat.Div0.div_lt_upper_bound. lia.
  - apply Nat.mod_upper_bound. exact Hn.
  - rewrite (Nat.div_mod r n Hn) at 1. lia.
Qed.

Lemma global_T_matrix_shape :
  nrows (global_T_matrix el) = 6 * n /\
  ncols (global_T_matrix el) = 6 * n /\
  forall p q a b, p < 6 -> q < 6 -> a < n -> b < n ->
    coef (global_T_matrix el) (p * n + a) (q * n + b)
    = if a =? b then dof_kernel Tmat p q else r0.
Proof. apply (init_global_T_matrix_coef n Tmat). Qed.

(** Entry of [mat * x] *)
Lemma to_global_entry (x : list R) (p a : nat) :
  p < 6 -> a < n ->
  vget (mat_vec (global_T_matrix el) x) (p * n + a)
  = sum6 (fun q => rmul (dof_kernel Tmat p q) (vget x (q * n + a))).
Proof.
  destruct global_T_matrix_shape as (Hr & Hc & Hcoef).
  apply (@mat_vec_blocks R SR SL n (global_T_matrix el) (dof_kernel Tmat) Hr Hc Hcoef).
Qed.

(** Entry of [mat.transpose() * x] *)
Lemma to_local_entry (x : list R) (q a : nat) :
  q < 6 -> a < n ->
  vget (mat_vec (mat_transpose (global_T_matrix el)) x) (q * n + a)
  = sum6 (fun p => rmul (dof_kernel Tmat p q) (vget x (p * n + a))).
Proof.
  destruct global_T_matrix_shape as (Hr & Hc & Hcoef).
  apply (@mat_vec_blocks R SR SL n (mat_transpose (global_T_matrix el))
                         (fun q p => dof_kernel Tmat p q)).
  - exact Hc.
  - exact Hr.
  - intros p' q' a' b' Hp Hq Ha Hb. simpl. rewrite Hcoef by assumption.
    rewrite Nat.eqb_sym. reflexivity.
Qed.

Lemma vector_ext (x y : list R) :
  length x = 6 * n -> length y = 6 * n ->
  (forall p a, p < 6 -> a < n -> vget x (p * n + a) = vget y (p * n + a)) ->
  x = y.
Proof.
  intros Hx Hy H. apply nth_ext with (d := r0) (d' := r0).
  - congruence.
  - intros r Hr. rewrite Hx in Hr.
    destruct (dof_split Hr) as (p & a & Hp & Ha & ->).
    apply H; assumption.
Qed.

Lemma round_trip_vector (v : list R) :
  orthonormal Tmat -> length v = 6 * n ->
  mat_vec (global_T_matrix el) (mat_vec (mat_transpose (global_T_matrix el)) v) = v.
Proof.
  intros Horth Hv. destruct global_T_matrix_shape as (Hr & Hc & _).
  apply vector_ext.
  - unfold mat_vec. rewrite length_map, length_seq. exact Hr.
  - exact Hv.
  - intros p a Hp Ha. rewrite to_global_entry by assumption.
    unfold sum6. rewrite !to_local_entry by (assumption || lia).
    apply (kernel_round_trip (fun p' => vget v (p' * n + a)) Horth Hp).
Qed.

Lemma identity_vector (v : list R) :
  is_identity Tmat -> length v = 6 * n ->
  mat_vec (mat_transpose (global_T_matrix el)) v = v /\
  mat_vec (global_T_matrix el) v = v.
Proof.
  intros Hid Hv. destruct global_T_matrix_shape as (Hr & Hc & _).
  split; apply vector_ext; try exact Hv.
  - unfold mat_vec. rewrite length_map, length_seq. exact Hc.
  - intros p a Hp Ha. rewrite to_local_entry by assumption.
    apply (kernel_identity (fun q => vget v (q * n + a)) Hid Hp).
  - unfold mat_vec. rewrite length_map, length_seq. exact Hr.
  - intros p a Hp Ha. rewrite to_global_entry by assumption.
    apply (kernel_identity (fun q => vget v (q * n + a)) Hid Hp).
Qed.

(** C6.  For a vector [v] with six entries per node (and output buffers of
    that size, as the routines assert): when the element's [T] is
    orthonormal, taking [v] to the local frame and back returns [v]; when
    [T] is the identity, as for a 3D element, each of the two routines
    returns [v] itself.  Arithmetic is exact in this model, so "to numerical
    tolerance" reads as equality. *)
Theorem transform_round_trip (S0 : Type) (v local_buf global_buf : list R) (s : S0) :
  length v = 6 * n_shape_functions (_fe el) ->
  length local_buf = 6 * n_shape_functions (_fe el) ->
  length global_buf = 6 * n_shape_functions (_fe el) ->
  (orthonormal (T_matrix (_local_elem el)) ->
   (local_vec <- transform_vector_to_local_system el v local_buf ;;
    transform_vector_to_global_system el local_vec global_buf) s = Ok v s) /\
  (is_identity (T_matrix (_local_elem el)) ->
   transform_vector_to_local_system el v local_buf s = Ok v s /\
   transform_vector_to_global_system el v global_buf s = Ok v s).
Proof.
  fold n. fold Tmat. intros Hv Hl Hg.
  destruct global_T_matrix_shape as (Hr & Hc & _).
  assert (Hlen : length (mat_vec (mat_transpose (global_T_matrix el)) v) = 6 * n).
  { unfold mat_vec. rewrite length_map, length_seq. exact Hc. }
  split.
  - intros Horth. unfold bind.
    rewrite transform_vector_to_local_system_run.
    rewrite Hl, Hv, Nat.eqb_refl, andb_false_r.
    rewrite transform_vector_to_global_system_run.
    rewrite Hlen, Hg, Nat.eqb_refl, andb_false_r.
    rewrite round_trip_vector by assumption. reflexivity.
  - intros Hid. destruct (@identity_vector v Hid Hv) as [Hloc Hglob].
    rewrite transform_vector_to_local_system_run, transform_vector_to_global_system_run.
    rewrite Hl, Hv, Hg, Nat.eqb_refl, andb_false_r, Hloc, Hglob. split; reflexivity.
Qed.
End RoundTrip.

Lemma transform_round_trip_witness :
  let el := Fixture.beam false false in
  length Fixture.ramp12 = 6 * n_shape_functions (_fe el) /\
  length Fixture.zeros12 = 6 * n_shape_functions (_fe el) /\
  orthonormal (T_matrix (_local_elem el)) /\
  (local_vec <- @transform_vector_to_local_system Z _ Fixture.debug_build el unit Z _
                  Fixture.ramp12 Fixture.zeros12 ;;
   @transform_vector_to_global_system Z _ Fixture.debug_build el unit Z _
     local_vec Fixture.zeros12) tt = Ok Fixture.ramp12 tt.
Proof.
  assert (Horth : orthonormal (T_matrix (_local_elem (Fixture.beam false false)))).
  { intros j l Hj Hl.
    destruct j as [|[|[|j]]]; try lia; destruct l as [|[|[|l]]]; try lia; reflexivity. }
  split; [reflexivity|]. split; [reflexivity|]. split; [exact Horth|].
  apply (proj1 (@transform_round_trip Z _ _ Fixture.debug_build
                  (Fixture.beam false false) unit
                  Fixture.ramp12 Fixture.zeros12 Fixture.zeros12 tt
                  eq_refl eq_refl eq_refl)).
  exact Horth.
Defined.

(** * Further properties of the dispatch *)

Section FoldMMore.
Context {S A B : Type}.

Lemma foldM_ext_in (body body' : A -> B -> M S A) (l : list B) (a : A) (s : S) :
  (forall a x s, In x l -> body a x s = body' a x s) ->
  foldM body l a s = foldM body' l a s.
Proof.
  revert a s. induction l as [|x l IH]; intros a s H; simpl.
  - reflexivity.
  - unfold bind. rewrite H by (left; reflexivity).
    destruct (body' a x s) as [a1 s1|s1]; [|reflexivity].
    apply IH. intros a' y s' Hy. apply H. right. exact Hy.
Qed.

(** A property of the state that every iteration keeps, whether it
    completes or not, is kept by the loop. *)
Lemma foldM_state_invariant (I : S -> Prop) (body : A -> B -> M S A)
    (l : list B) (a : A) (s : S) :
  (forall a x s, I s -> I (outcome_state (body a x s))) ->
  I s -> I (outcome_state (foldM body l a s)).
Proof.
  intros H. revert a s. induction l as [|x l IH]; intros a s Hs; simpl.
  - exact Hs.
  - unfold bind. specialize (H a x s Hs).
    destruct (body a x s) as [a1 s1|s1]; simpl in H; [apply IH; exact H | exact H].
Qed.
End FoldMMore.

Lemma flat_map_nil (A B : Type) (g : A -> list B) (l : list A) :
  (forall x, In x l -> g x = []) -> flat_map g l = [].
Proof.
  induction l as [|x l IH]; intros H; simpl.
  - reflexivity.
  - rewrite H by (left; reflexivity). apply IH.
    intros y Hy. apply H. right. exact Hy.
Qed.

Section EqualRange.
Context {A : Type}.

Lemma equal_range_app (bc1 bc2 : multimap nat A) (id : nat) :
  equal_range (bc1 ++ bc2) id = equal_range bc1 id ++ equal_range bc2 id.
Proof. unfold equal_range. rewrite filter_app, map_app. reflexivity. Qed.

Lemma equal_range_other_key (bc1 bc2 : multimap nat A) (k : nat) (b : A) (id : nat) :
  k <> id ->
  equal_range (bc1 ++ (k, b) :: bc2) id = equal_range (bc1 ++ bc2) id.
Proof.
  intros Hk. rewrite !equal_range_app. f_equal.
  unfold equal_range. simpl. destruct (Nat.eqb_spec k id); [contradiction | reflexivity].
Qed.

Lemma equal_range_missing_key (bc : multimap nat A) (id : nat) :
  ~ In id (map fst bc) -> equal_range bc id = [].
Proof.
  unfold equal_range. induction bc as [|[k b] bc IH]; intros H; simpl.
  - reflexivity.
  - simpl in H. destruct (Nat.eqb_spec k id) as [->|Hne].
    + exfalso. apply H. left. reflexivity.
    + apply IH. intros Hin. apply H. right. exact Hin.
Qed.
End EqualRange.

Section DispatchMore.
Context {R : Type} {SR : Scalar R} {BM : BuildMode}.
Context {V : Type} {VT : ValType R V} {AV : AssembledVector R V}.
Variable el : StructuralElementBase R.

Lemma in_element_boundary_ids (n bc_id : nat) :
  n < n_sides (_elem el) -> In bc_id (boundary_ids (_elem el) n) ->
  In bc_id (element_boundary_ids (_elem el)).
Proof.
  intros Hn Hin. unfold element_boundary_ids. apply in_flat_map.
  exists n. split; [apply in_seq; lia | exact Hin].
Qed.

(** The outcome of the side dispatch depends on the map only through the
    entries of the element's own boundary ids. *)
Lemma side_external_loops_ext (request_jacobian : bool)
    (bc bc' : multimap nat (BoundaryConditionBase R V)) (st : LoadState R) :
  (forall id, In id (element_boundary_ids (_elem el)) ->
              equal_range bc id = equal_range bc' id) ->
  side_external_loops el request_jacobian bc st
  = side_external_loops el request_jacobian bc' st.
Proof.
  intros H. unfold side_external_loops.
  apply foldM_ext_in. intros cj n s Hn. apply in_seq in Hn.
  destruct (length (boundary_ids (_elem el) n) =? 0); [reflexivity|].
  apply foldM_ext_in. intros cj' id s' Hid.
  rewrite (H id); [reflexivity|].
  apply in_element_boundary_ids with (n := n); [lia | exact Hid].
Qed.

(** X1.  A map entry whose key is none of the element's ids is never
    looked at: adding it to (or removing it from) the map changes neither
    the outcome nor the buffers, whatever its type tag.  For the side
    dispatch the ids are the boundary ids of the element's sides, for the
    subdomain dispatch the element's subdomain id. *)
Theorem dispatch_ignores_foreign_keys
    (request_jacobian : bool) (bc1 bc2 : multimap nat (BoundaryConditionBase R V))
    (k : nat) (b : BoundaryConditionBase R V) (st : LoadState R) :
  (~ In k (element_boundary_ids (_elem el)) ->
   side_external_residual el request_jacobian (bc1 ++ (k, b) :: bc2) st
   = side_external_residual el request_jacobian (bc1 ++ bc2) st) /\
  (k <> subdomain_id (_elem el) ->
   volume_external_residual el request_jacobian (bc1 ++ (k, b) :: bc2) st
   = volume_external_residual el request_jacobian (bc1 ++ bc2) st).
Proof.
  split; intros Hk.
  - unfold side_external_residual, bind.
    rewrite (@side_external_loops_ext request_jacobian
               (bc1 ++ (k, b) :: bc2) (bc1 ++ bc2) st); [reflexivity|].
    intros id Hid. apply equal_range_other_key. intros ->. contradiction.
  - unfold volume_external_residual, volume_external_loop, bind.
    rewrite equal_range_other_key by exact Hk. reflexivity.
Qed.

(** X2.  An element none of whose ids has an entry in the map gets nothing:
    the dispatch completes, returns [false] and leaves [f] and [jac] as they
    were, even when the Jacobian is requested and even when the map holds
    entries of unsupported types for other ids. *)
Theorem dispatch_without_matching_entry
    (request_jacobian : bool) (bc : multimap nat (BoundaryConditionBase R V))
    (st : LoadState R) :
  ((forall id, In id (element_boundary_ids (_elem el)) -> ~ In id (map fst bc)) ->
   side_external_residual el request_jacobian bc st = Ok false st) /\
  (~ In (subdomain_id (_elem el)) (map fst bc) ->
   volume_external_residual el request_jacobian bc st = Ok false st).
Proof.
  split; intros H.
  - unfold side_external_residual, bind.
    rewrite (@side_external_loops_ext request_jacobian bc [] st).
    + rewrite side_external_loops_matches.
      assert (Hm : side_matches el ([] : multimap nat (BoundaryConditionBase R V)) = []).
      { unfold side_matches. apply flat_map_nil. intros n _.
        apply flat_map_nil. intros id _. reflexivity. }
      rewrite Hm. simpl. unfold ret. rewrite andb_false_r. reflexivity.
    + intros id Hid. rewrite equal_range_missing_key by (apply H; exact Hid). reflexivity.
  - unfold volume_external_residual, volume_external_loop, bind.
    rewrite equal_range_missing_key by exact H. simpl. unfold ret.
    rewrite andb_false_r. reflexivity.
Qed.
End DispatchMore.

Lemma dispatch_ignores_foreign_keys_witness :
  let el := Fixture.beam false false in
  let foreign := Fixture.bc_of_type (OTHER_BC_TYPE 0) 1 in
  let own := Fixture.bc_of_type SURFACE_PRESSURE 2 in
  ~ In 9 (element_boundary_ids (_elem el)) /\
  @side_external_residual Z _ Fixture.debug_build el Z _ Fixture.assemble_real
    false ([(4, own)] ++ (9, foreign) :: []) Fixture.load0
  = @side_external_residual Z _ Fixture.debug_build el Z _ Fixture.assemble_real
      false ([(4, own)] ++ []) Fixture.load0.
Proof.
  assert (H : ~ In 9 (element_boundary_ids (_elem (Fixture.beam false false)))).
  { simpl. intros [H|[]]. discriminate H. }
  split; [exact H|].
  apply (proj1 (@dispatch_ignores_foreign_keys Z _ Fixture.debug_build Z _
                  Fixture.assemble_real (Fixture.beam false false) false
                  [(4, Fixture.bc_of_type SURFACE_PRESSURE 2)] [] 9
                  (Fixture.bc_of_type (OTHER_BC_TYPE 0) 1) Fixture.load0)).
  exact H.
Defined.

Lemma dispatch_without_matching_entry_witness :
  let el := Fixture.beam false false in
  let bc := [(9, Fixture.bc_of_type (OTHER_BC_TYPE 0) 1)] in
  ~ In (subdomain_id (_elem el)) (map fst bc) /\
  @volume_external_residual Z _ Fixture.debug_build el Z _ Fixture.assemble_real
    true bc Fixture.load0 = Ok false Fixture.load0.
Proof.
  assert (H : ~ In (subdomain_id (_elem (Fixture.beam false false)))
                   (map fst [(9, Fixture.bc_of_type (OTHER_BC_TYPE 0) 1)])).
  { simpl. intros [H|[]]. discriminate H. }
  split; [exact H|].
  apply (proj2 (@dispatch_without_matching_entry Z _ Fixture.debug_build Z _
                  Fixture.assemble_real (Fixture.beam false false) true
                  [(9, Fixture.bc_of_type (OTHER_BC_TYPE 0) 1)] Fixture.load0)).
  exact H.
Defined.

Section ShortCircuit.
Context {R : Type} {SR : Scalar R} {BM : BuildMode}.
Context {V : Type} {VT : ValType R V} {AV : AssembledVector R V}.
Variable el : StructuralElementBase R.

Lemma side_loop_skips_when_set (request_jacobian : bool)
    (l : list (nat * BoundaryConditionBase R V)) (s : LoadState R) :
  (forall nb, In nb l -> side_supported (bc_type (snd nb)) = true) ->
  foldM (side_apply_match el request_jacobian) l true s = Ok true s.
Proof.
  induction l as [|[n b] l IH]; intros H; simpl.
  - reflexivity.
  - unfold bind, side_apply_match, side_apply_bc. simpl.
    assert (Hb := H (n, b) (or_introl eq_refl)). simpl in Hb.
    destruct (bc_type b); try discriminate Hb; simpl;
      apply IH; intros nb Hnb; apply H; right; exact Hnb.
Qed.

Lemma volume_loop_skips_when_set (request_jacobian : bool)
    (l : list (BoundaryConditionBase R V)) (s : LoadState R) :
  (forall b, In b l -> volume_supported (bc_type b) = true) ->
  foldM (volume_apply_bc el request_jacobian) l true s = Ok true s.
Proof.
  induction l as [|b l IH]; intros H; simpl.
  - reflexivity.
  - unfold bind, volume_apply_bc.
    assert (Hb := H b (or_introl eq_refl)).
    destruct (bc_type b); try discriminate Hb; simpl;
      apply IH; intros x Hx; apply H; right; exact Hx.
Qed.

(** X3.  Once a handler has returned [true], no later handler is called:
    the conditions that follow it in dispatch order (all of supported
    types) add nothing, and the dispatch ends in the state that handler
    left, returning [request_jacobian]. *)
Theorem dispatch_stops_loading_after_jacobian
    (request_jacobian : bool) (bc : multimap nat (BoundaryConditionBase R V))
    (st s1 s2 : LoadState R) :
  (forall l1 nb l2,
      side_matches el bc = l1 ++ nb :: l2 ->
      foldM (side_apply_match el request_jacobian) l1 false st = Ok false s1 ->
      side_apply_match el request_jacobian false nb s1 = Ok true s2 ->
      (forall x, In x l2 -> side_supported (bc_type (snd x)) = true) ->
      side_external_residual el request_jacobian bc st = Ok request_jacobian s2) /\
  (forall l1 b l2,
      volume_matches el bc = l1 ++ b :: l2 ->
      foldM (volume_apply_bc el request_jacobian) l1 false st = Ok false s1 ->
      volume_apply_bc el request_jacobian false b s1 = Ok true s2 ->
      (forall x, In x l2 -> volume_supported (bc_type x) = true) ->
      volume_external_residual el request_jacobian bc st = Ok request_jacobian s2).
Proof.
  split.
  - intros l1 nb l2 Hm H1 Hnb H2.
    unfold side_external_residual, bind. rewrite side_external_loops_matches, Hm.
    rewrite foldM_app. unfold bind. rewrite H1. simpl. unfold bind. rewrite Hnb.
    rewrite side_loop_skips_when_set by exact H2.
    unfold ret. rewrite andb_true_r. reflexivity.
  - intros l1 b l2 Hm H1 Hb H2.
    unfold volume_external_residual, volume_external_loop, bind.
    unfold volume_matches in Hm. rewrite Hm.
    rewrite foldM_app. unfold bind. rewrite H1. simpl. unfold bind. rewrite Hb.
    rewrite volume_loop_skips_when_set by exact H2.
    unfold ret. rewrite andb_true_r. reflexivity.
Qed.
End ShortCircuit.

(** X3 at work: with the Jacobian requested, a thermal load that reports its
    Jacobian makes the pressure load registered after it contribute nothing;
    registered before it, the same pressure load is applied. *)
Lemma dispatch_stops_loading_after_jacobian_witness :
  let el := Fixture.beam false false in
  let thermal := Fixture.bc_of_type TEMPERATURE 0 in
  let press := Fixture.bc_of_type SURFACE_PRESSURE 2 in
  @volume_external_residual Z _ Fixture.debug_build el Z _ Fixture.assemble_real
    true [(7, thermal); (7, press)] Fixture.load0 = Ok true Fixture.load0 /\
  exists s,
    @volume_external_residual Z _ Fixture.debug_build el Z _ Fixture.assemble_real
      true [(7, press); (7, thermal)] Fixture.load0 = Ok true s /\
    f s = [2; 2; 0; 0; 0; 0; 0; 0; 0; 0; 0; 0]%Z.
Proof.
  split.
  - apply (proj2 (@dispatch_stops_loading_after_jacobian Z _ Fixture.debug_build Z _
                    Fixture.assemble_real (Fixture.beam false false) true
                    [(7, Fixture.bc_of_type TEMPERATURE 0);
                     (7, Fixture.bc_of_type SURFACE_PRESSURE 2)]
                    Fixture.load0 Fixture.load0 Fixture.load0)
                 [] (Fixture.bc_of_type TEMPERATURE 0)
                 [Fixture.bc_of_type SURFACE_PRESSURE 2]).
    + reflexivity.
    + reflexivity.
    + reflexivity.
    + intros x [<-|[]]. reflexivity.
  - eexists. split; [vm_compute; reflexivity | reflexivity].
Defined.

(** * The Jacobian buffer under the pressure loads *)

Section JacobianFrame.
Context {R : Type} {SR : Scalar R} {BM : BuildMode}.
Context {V : Type} {VT : ValType R V} {AV : AssembledVector R V}.
Variable el : StructuralElementBase R.

Ltac run_routine :=
  unfold bind, libmesh_assert, transform_vector_to_global_system,
    libmesh_assert_equal_to, libmesh_assert, bind, get_state, put_state, ret,
    libmesh_error;
  repeat match goal with
         | |- context [if ?b then _ else _] => destruct b
         | |- context [match bc_type ?b with _ => _ end] => destruct (bc_type b)
         end;
  reflexivity.

Lemma surface_pressure_residual_side_keeps_jac (request_jacobian : bool) (side : nat)
    (bc : BoundaryConditionBase R V) (st : LoadState R) :
  jac (outcome_state (surface_pressure_residual_side el request_jacobian side bc st))
  = jac st.
Proof. unfold surface_pressure_residual_side. run_routine. Qed.

Lemma surface_pressure_residual_keeps_jac (request_jacobian : bool)
    (bc : BoundaryConditionBase R V) (st : LoadState R) :
  jac (outcome_state (surface_pressure_residual el request_jacobian bc st)) = jac st.
Proof. unfold surface_pressure_residual. run_routine. Qed.

Lemma small_disturbance_side_keeps_jac (request_jacobian : bool) (side : nat)
    (bc : BoundaryConditionBase R V) (st : LoadState R) :
  jac (outcome_state
         (small_disturbance_surface_pressure_residual_side el request_jacobian side bc st))
  = jac st.
Proof. unfold small_disturbance_surface_pressure_residual_side. run_routine. Qed.

(** The quadrature loop of the whole-element small-disturbance routine
    works on locals only. *)
Lemma small_disturbance_loop_keeps_state {S0 : Type} (bc : BoundaryConditionBase R V)
    (n_qp : nat) (s : S0) :
  outcome_state (small_disturbance_loop el bc n_qp s) = s.
Proof.
  unfold small_disturbance_loop.
  apply (foldM_state_invariant (fun s' => s' = s)); [|reflexivity].
  intros pl qp s' ->.
  unfold small_disturbance_qp_whole, bind.
  assert (H : outcome_state
                (set_shape_function_values_checked (_fe el) qp (fst pl) s) = s).
  { unfold set_shape_function_values_checked.
    apply (foldM_state_invariant (fun s' => s' = s)); [|reflexivity].
    intros x i s' ->. unfold coeff_write, ret.
    destruct (i <? length x); reflexivity. }
  destruct (set_shape_function_values_checked (_fe el) qp (fst pl) s); exact H.
Qed.

Lemma small_disturbance_keeps_jac (request_jacobian : bool)
    (bc : BoundaryConditionBase R V) (st : LoadState R) :
  jac (outcome_state
         (small_disturbance_surface_pressure_residual el request_jacobian bc st))
  = jac st.
Proof.
  unfold small_disturbance_surface_pressure_residual.
  pose proof (small_disturbance_loop_keeps_state bc (length (get_xyz (_fe el))) st) as H.
  unfold bind at 1 2 3.
  unfold libmesh_assert, libmesh_error, ret.
  repeat match goal with
         | |- context [if ?b then _ else _] => destruct b
         | |- context [match bc_type ?b with _ => _ end] => destruct (bc_type b)
         end;
    try reflexivity;
    unfold bind at 1;
    destruct (small_disturbance_loop el bc (length (get_xyz (_fe el))) st) as [pl s1|s1];
    simpl in H; subst s1; try reflexivity;
    run_routine.
Qed.

Lemma side_apply_bc_keeps_jac (request_jacobian : bool) (n : nat) (calculate_jac : bool)
    (b : BoundaryConditionBase R V) (st : LoadState R) :
  jac (outcome_state (side_apply_bc el request_jacobian n calculate_jac b st)) = jac st.
Proof.
  unfold side_apply_bc, or_else.
  destruct (bc_type b), calculate_jac; try reflexivity.
  - apply surface_pressure_residual_side_keeps_jac.
  - apply small_disturbance_side_keeps_jac.
Qed.

(** X4.  No pressure routine writes the Jacobian: whatever the outcome of
    the four routines, and of a whole side dispatch, [jac] is the matrix
    that was passed in -- also when the value returned is [true]. *)
Theorem pressure_loads_never_write_jacobian
    (request_jacobian : bool) (side : nat) (b : BoundaryConditionBase R V)
    (bc : multimap nat (BoundaryConditionBase R V)) (st : LoadState R) :
  jac (outcome_state (surface_pressure_residual_side el request_jacobian side b st))
    = jac st /\
  jac (outcome_state (surface_pressure_residual el request_jacobian b st)) = jac st /\
  jac (outcome_state
         (small_disturbance_surface_pressure_residual_side el request_jacobian side b st))
    = jac st /\
  jac (outcome_state
         (small_disturbance_surface_pressure_residual el request_jacobian b st))
    = jac st /\
  jac (outcome_state (side_external_residual el request_jacobian bc st)) = jac st.
Proof.
  split; [apply surface_pressure_residual_side_keeps_jac|].
  split; [apply surface_pressure_residual_keeps_jac|].
  split; [apply small_disturbance_side_keeps_jac|].
  split; [apply small_disturbance_keeps_jac|].
  unfold side_external_residual, bind. rewrite side_external_loops_matches.
  assert (H : jac (outcome_state
                     (foldM (side_apply_match el request_jacobian)
                            (side_matches el bc) false st)) = jac st).
  { apply (foldM_state_invariant (fun s => jac s = jac st)); [|reflexivity].
    intros a [n x] s Hs. unfold side_apply_match. simpl.
    rewrite side_apply_bc_keeps_jac. exact Hs. }
  destruct (foldM _ _ false st); exact H.
Qed.
End JacobianFrame.

(** * Steady pressure loads without follower forces *)

Section SteadyPressure.
Context {R : Type} {SR : Scalar R} {BM : BuildMode}.
Variable el : StructuralElementBase R.

Lemma surface_pressure_loop_lengths (V : Type) (fe : FE R)
    (normal_at : nat -> Point R) (bc : BoundaryConditionBase R V)
    (qps : list nat) (l0 : PressureLocals R) :
  let n_phi := length (get_phi fe) in
  length (p_local_f l0) = 6 * n_phi ->
  length (p_vec_n2 l0) = 6 * n_phi ->
  let l := fold_left (surface_pressure_qp el fe (vzero n_phi) normal_at bc) qps l0 in
  length (p_local_f l) = 6 * n_phi /\ length (p_vec_n2 l) = 6 * n_phi.
Proof.
  intros n_phi. revert l0. induction qps as [|qp qps IH]; intros l0 Hf Hv; simpl.
  - split; assumption.
  - apply IH; unfold surface_pressure_qp; simpl.
    + rewrite length_vec_add_assign. exact Hf.
    + rewrite length_vector_mult_transpose. simpl.
      rewrite length_set_shape_function_values, length_vzero. reflexivity.
Qed.

Lemma surface_pressure_residual_side_run (V : Type)
    (request_jacobian : bool) (side : nat)
    (bc : BoundaryConditionBase R V) (st : LoadState R) :
  follower_forces el = false ->
  surface_pressure_residual_side el request_jacobian side bc st
  = Ok false {| f := vec_add_assign (f st) (surface_pressure_side_load el side bc);
                jac := jac st |}.
Proof.
  intros Hff.
  unfold surface_pressure_residual_side, surface_pressure_side_load.
  destruct (@surface_pressure_loop_lengths V (side_fe_quadrature el side)
              (fun qp => nth qp (get_normals (side_fe_quadrature el side)) origin) bc
              (seq 0 (length (get_xyz (side_fe_quadrature el side))))
              (pressure_locals_init (length (get_phi (side_fe_quadrature el side)))))
    as [Hf Hv]; try (simpl; apply length_vzero).
  cbv zeta in Hf, Hv. cbv zeta.
  rewrite libmesh_assert_run, Hff. simpl negb. rewrite andb_false_r.
  rewrite andb_false_r.
  destruct (dim (_elem el) <? 3).
  - unfold bind. rewrite transform_vector_to_global_system_run.
    rewrite Hf, Hv, Nat.eqb_refl, andb_false_r. reflexivity.
  - reflexivity.
Qed.

Lemma surface_pressure_residual_run (V : Type)
    (request_jacobian : bool)
    (bc : BoundaryConditionBase R V) (st : LoadState R) :
  follower_forces el = false ->
  (dim (_elem el) <? 3) = true ->
  surface_pressure_residual el request_jacobian bc st
  = Ok false {| f := vec_add_assign (f st) (surface_pressure_load el bc);
                jac := jac st |}.
Proof.
  intros Hff Hdim.
  unfold surface_pressure_residual, surface_pressure_load.
  destruct (@surface_pressure_loop_lengths V (_fe el)
              (fun _ => assumed_normal el) bc
              (seq 0 (length (get_xyz (_fe el))))
              (pressure_locals_init (length (get_phi (_fe el)))))
    as [Hf Hv]; try (simpl; apply length_vzero).
  cbv zeta in Hf, Hv. cbv zeta.
  rewrite !libmesh_assert_run, Hff, Hdim. simpl negb. rewrite !andb_false_r.
  unfold bind. rewrite transform_vector_to_global_system_run.
  rewrite Hf, Hv, Nat.eqb_refl, andb_false_r. reflexivity.
Qed.

(** X5.  With follower forces off, a steady pressure routine cannot fail:
    no assertion of the routine or of the transformation it calls fires
    (the whole-element variant being used on an element of dimension below
    three).  It returns [false], leaves [jac] alone and adds to [f] one load
    vector that depends on the element and the condition only, not on the
    buffers or on [request_jacobian]. *)
Theorem steady_pressure_completes (V : Type)
    (request_jacobian : bool) (side : nat)
    (bc : BoundaryConditionBase R V) (st : LoadState R) :
  follower_forces el = false ->
  surface_pressure_residual_side el request_jacobian side bc st
  = Ok false {| f := vec_add_assign (f st) (surface_pressure_side_load el side bc);
                jac := jac st |} /\
  ((dim (_elem el) <? 3) = true ->
   surface_pressure_residual el request_jacobian bc st
   = Ok false {| f := vec_add_assign (f st) (surface_pressure_load el bc);
                 jac := jac st |}).
Proof.
  intros Hff. split.
  - apply surface_pressure_residual_side_run. exact Hff.
  - intros Hdim. apply surface_pressure_residual_run; assumption.
Qed.
End SteadyPressure.

Lemma steady_pressure_completes_witness :
  let el := Fixture.beam false false in
  let bc := Fixture.bc_of_type SURFACE_PRESSURE 2 in
  follower_forces el = false /\
  (dim (_elem el) <? 3) = true /\
  exists s,
    @surface_pressure_residual Z _ Fixture.debug_build el Z true bc Fixture.load0
    = Ok false s /\
    f s = [2; 2; 0; 0; 0; 0; 0; 0; 0; 0; 0; 0]%Z.
Proof.
  split; [reflexivity|]. split; [reflexivity|].
  eexists. split.
  - apply (proj2 (@steady_pressure_completes Z _ Fixture.debug_build
                    (Fixture.beam false false) Z true 0
                    (Fixture.bc_of_type SURFACE_PRESSURE 2) Fixture.load0 eq_refl)).
    reflexivity.
  - vm_compute. reflexivity.
Defined.

Section LoadOrder.
Context {R : Type} {SR : Scalar R} {SL : ScalarLaws R} {BM : BuildMode}.
Variable el : StructuralElementBase R.

Add Ring scalar_ring_order : (@ring_laws R SR SL).

Lemma vec_add_assign_swap (x a b : list R) :
  vec_add_assign (vec_add_assign x a) b = vec_add_assign (vec_add_assign x b) a.
Proof.
  unfold vec_add_assign at 1 3. rewrite !length_vec_add_assign.
  apply map_seq_ext. intros i Hi.
  unfold vec_add_assign. rewrite !(@vget_map_seq R R RealVal).
  apply Nat.ltb_lt in Hi. rewrite Hi. simpl. ring.
Qed.

End LoadOrder.

(** * Further properties of the inertial residual *)

Section InertialFrame.
Context {R : Type} {SR : Scalar R} {BM : BuildMode}.
Variable el : StructuralElementBase R.
Variable local_accel : list R.

(** X7.  [inertial_residual] only ever writes [f] and [jac_xddot]: the
    velocity Jacobian [jac_xdot] and the Jacobian [jac] come back as they
    were passed in, and so does [jac_xddot] unless the Jacobian was
    requested.  When the routine completes it returns [request_jacobian]. *)
Theorem inertial_residual_frame (request_jacobian : bool) (b : InertialBuffers R) :
  let o := inertial_residual el local_accel request_jacobian b in
  i_jac_xdot (outcome_state o) = i_jac_xdot b /\
  i_jac (outcome_state o) = i_jac b /\
  (request_jacobian = false -> i_jac_xddot (outcome_state o) = i_jac_xddot b) /\
  (forall r s', o = Ok r s' -> r = request_jacobian).
Proof.
  cbv zeta. unfold inertial_residual. cbv zeta.
  unfold bind, transform_vector_to_global_system, transform_matrix_to_global_system,
    libmesh_assert_equal_to, libmesh_assert, bind, get_state, put_state, ret,
    libmesh_error.
  destruct request_jacobian;
    repeat match goal with
           | |- context [if ?c then _ else _] => destruct c
           end;
    cbn; repeat split; try reflexivity; try discriminate;
    intros; congruence.
Qed.
End InertialFrame.

Lemma inertial_residual_frame_witness :
  let el := Fixture.beam false false in
  let b := {| i_f := Fixture.zeros12; i_jac_xddot := mzero 12 12;
              i_jac_xdot := mzero 12 12; i_jac := mzero 12 12 |} in
  let o := @inertial_residual Z _ Fixture.debug_build el Fixture.ramp12 false b in
  false = false /\
  i_jac_xddot (outcome_state o) = i_jac_xddot b /\
  i_f (outcome_state o) = [-3; -4; 1; 2; 5; 6; -9; -10; 7; 8; 11; 12]%Z.
Proof.
  split; [reflexivity|]. split.
  - apply (proj1 (proj2 (proj2
             (@inertial_residual_frame Z _ Fixture.debug_build
                (Fixture.beam false false) Fixture.ramp12 false
                {| i_f := Fixture.zeros12; i_jac_xddot := mzero 12 12;
                   i_jac_xdot := mzero 12 12; i_jac := mzero 12 12 |})))).
    reflexivity.
  - vm_compute. reflexivity.
Defined.

Section ZeroAcceleration.
Context {R : Type} {SR : Scalar R} {SL : ScalarLaws R} {BM : BuildMode}.
Variable el : StructuralElementBase R.
Variable k : nat.

Lemma inertial_consistent_qp_zero (request_jacobian : bool)
    (l : InertialLocals R) (qp : nat) :
  local_f (inertial_consistent_qp el (vzero k) request_jacobian l qp) = local_f l.
Proof.
  unfold inertial_consistent_qp. cbn [local_f].
  rewrite mat_vec_vzero, vector_mult_transpose_vzero, vec_scale_vzero.
  apply vec_add_assign_vzero.
Qed.

Lemma inertial_local_zero (request_jacobian : bool) :
  exists m, local_f (inertial_local el (vzero k) request_jacobian) = vzero m.
Proof.
  unfold inertial_local. destruct (if_diagonal_mass_matrix (_property el)).
  - unfold inertial_lumped. cbn [local_f]. rewrite mat_vec_vzero. eexists. reflexivity.
  - exists (6 * length (get_phi (_fe el))). unfold inertial_consistent.
    assert (H : forall qps l,
               local_f (fold_left (inertial_consistent_qp el (vzero k) request_jacobian)
                                  qps l) = local_f l).
    { induction qps as [|qp qps IH]; intros l; simpl.
      - reflexivity.
      - rewrite IH. apply inertial_consistent_qp_zero. }
    rewrite H. reflexivity.
Qed.

(** X8.  With a local acceleration that is zero, [inertial_residual] adds
    nothing to [f], with lumped and with consistent mass, for elements of
    every dimension and whether or not the Jacobian is requested. *)
Theorem zero_acceleration_adds_nothing (request_jacobian : bool) (b : InertialBuffers R) :
  i_f (outcome_state (inertial_residual el (vzero k) request_jacobian b)) = i_f b.
Proof.
  unfold inertial_residual. cbv zeta.
  destruct (inertial_local_zero request_jacobian) as [m Hm]. rewrite Hm.
  unfold bind, get_state, put_state, ret.
  destruct (dim (_elem el) <? 3).
  - rewrite transform_vector_to_global_system_run.
    destruct (asserts_enabled && _); [reflexivity|].
    rewrite mat_vec_vzero, vec_add_assign_vzero.
    destruct request_jacobian; [|reflexivity].
    unfold transform_matrix_to_global_system, libmesh_assert_equal_to, libmesh_assert,
      bind, ret, libmesh_error.
    repeat match goal with
           | |- context [if ?c then _ else _] => destruct c
           end; reflexivity.
  - rewrite vec_add_assign_vzero. reflexivity.
Qed.
End ZeroAcceleration.

Lemma zero_acceleration_adds_nothing_witness :
  let el := Fixture.beam false false in
  let b := {| i_f := Fixture.ramp12; i_jac_xddot := mzero 12 12;
              i_jac_xdot := mzero 12 12; i_jac := mzero 12 12 |} in
  i_f (outcome_state
         (@inertial_residual Z _ Fixture.debug_build el (vzero 12) true b))
  = Fixture.ramp12.
Proof.
  apply (@zero_acceleration_adds_nothing Z _ _ Fixture.debug_build
           (Fixture.beam false false) 12 true
           {| i_f := Fixture.ramp12; i_jac_xddot := mzero 12 12;
              i_jac_xdot := mzero 12 12; i_jac := mzero 12 12 |}).
Defined.

(** * From the local frame to the global frame and back *)

Section KernelAlgebraColumns.
Context {R : Type} {SR : Scalar R} {SL : ScalarLaws R}.
Variable T : Matrix R.

Add Ring scalar_ring_columns : (@ring_laws R SR SL).

(** Column [j] of [T] against column [l] of [T]. *)
Let column_product (j l : nat) : R :=
  radd (radd (rmul (coef T 0 j) (coef T 0 l)) (rmul (coef T 1 j) (coef T 1 l)))
       (rmul (coef T 2 j) (coef T 2 l)).

Ltac regroup_columns x j g :=
  transitivity
    (radd (radd (rmul (column_product j 0) (x (3 * g + 0)))
                (rmul (column_product j 1) (x (3 * g + 1))))
          (rmul (column_product j 2) (x (3 * g + 2))));
  [ unfold column_product; simpl; ring
  | unfold column_product;
    match goal with
    | H : orthonormal_columns T |- _ =>
        rewrite (H j 0), (H j 1), (H j 2) by lia
    end;
    simpl; ring ].

(** [K^T (K x) = x] for the 6x6 pattern [K] of a [T] with orthonormal
    columns. *)
Lemma kernel_round_trip_columns (x : nat -> R) (q : nat) :
  orthonormal_columns T -> q < 6 ->
  sum6 (fun p => rmul (dof_kernel T p q)
                      (sum6 (fun q' => rmul (dof_kernel T p q') (x q')))) = x q.
Proof.
  intros Horth Hq.
  destruct q as [|[|[|[|[|[|q]]]]]]; try lia; unfold sum6, dof_kernel; simpl.
  - regroup_columns x 0 0.
  - regroup_columns x 1 0.
  - regroup_columns x 2 0.
  - regroup_columns x 0 1.
  - regroup_columns x 1 1.
  - regroup_columns x 2 1.
Qed.
End KernelAlgebraColumns.

Section RoundTripLocal.
Context {R : Type} {SR : Scalar R} {SL : ScalarLaws R} {BM : BuildMode}.
Variable el : StructuralElementBase R.

Lemma length_to_global (x : list R) :
  length (mat_vec (global_T_matrix el) x) = 6 * n_shape_functions (_fe el).
Proof.
  destruct (global_T_matrix_shape el) as (Hr & _ & _).
  unfold mat_vec. rewrite length_map, length_seq. exact Hr.
Qed.

Lemma length_to_local (x : list R) :
  length (mat_vec (mat_transpose (global_T_matrix el)) x)
  = 6 * n_shape_functions (_fe el).
Proof.
  destruct (global_T_matrix_shape el) as (_ & Hc & _).
  unfold mat_vec. rewrite length_map, length_seq. exact Hc.
Qed.

Lemma round_trip_vector_local (v : list R) :
  orthonormal_columns (T_matrix (_local_elem el)) ->
  length v = 6 * n_shape_functions (_fe el) ->
  mat_vec (mat_transpose (global_T_matrix el)) (mat_vec (global_T_matrix el) v) = v.
Proof.
  intros Horth Hv.
  apply (vector_ext el).
  - apply length_to_local.
  - exact Hv.
  - intros q a Hq Ha. rewrite to_local_entry by assumption.
    unfold sum6. rewrite !to_global_entry by (assumption || lia).
    apply (kernel_round_trip_columns
             (fun q' => vget v (q' * n_shape_functions (_fe el) + a)) Horth Hq).
Qed.

(** X9.  The round trip in the other direction, to numerical tolerance: a
    local vector with six entries per node, taken to the global frame and
    back to the local frame, is returned unchanged when the columns of [T]
    are orthonormal (the output buffers having the size the routines
    assert).  The equality is that of exact arithmetic, the scalars
    obeying the ring laws; the rounding of a floating-point run is not
    modelled. *)
Theorem transform_round_trip_from_local (S0 : Type)
    (v global_buf local_buf : list R) (s : S0) :
  length v = 6 * n_shape_functions (_fe el) ->
  length global_buf = 6 * n_shape_functions (_fe el) ->
  length local_buf = 6 * n_shape_functions (_fe el) ->
  orthonormal_columns (T_matrix (_local_elem el)) ->
  (global_vec <- transform_vector_to_global_system el v global_buf ;;
   transform_vector_to_local_system el global_vec local_buf) s = Ok v s.
Proof.
  intros Hv Hg Hl Horth. unfold bind.
  rewrite transform_vector_to_global_system_run.
  rewrite Hv, Hg, Nat.eqb_refl, andb_false_r.
  rewrite transform_vector_to_local_system_run.
  rewrite length_to_global, Hl, Nat.eqb_refl, andb_false_r.
  rewrite round_trip_vector_local by assumption. reflexivity.
Qed.
End RoundTripLocal.

Lemma transform_round_trip_from_local_witness :
  let el := Fixture.beam false false in
  length Fixture.ramp12 = 6 * n_shape_functions (_fe el) /\
  length Fixture.zeros12 = 6 * n_shape_functions (_fe el) /\
  orthonormal_columns (T_matrix (_local_elem el)) /\
  (global_vec <- @transform_vector_to_global_system Z _ Fixture.debug_build el unit Z _
                   Fixture.ramp12 Fixture.zeros12 ;;
   @transform_vector_to_local_system Z _ Fixture.debug_build el unit Z _
     global_vec Fixture.zeros12) tt = Ok Fixture.ramp12 tt.
Proof.
  assert (Horth : orthonormal_columns (T_matrix (_local_elem (Fixture.beam false false)))).
  { intros j l Hj Hl.
    destruct j as [|[|[|j]]]; try lia; destruct l as [|[|[|l]]]; try lia; reflexivity. }
  split; [reflexivity|]. split; [reflexivity|]. split; [exact Horth|].
  apply (@transform_round_trip_from_local Z _ _ Fixture.debug_build
           (Fixture.beam false false) unit
           Fixture.ramp12 Fixture.zeros12 Fixture.zeros12 tt
           eq_refl eq_refl eq_refl Horth).
Defined.

(** * The matrix transformation *)

Section MatrixTransform.
Context {R : Type} {SR : Scalar R} {SL : ScalarLaws R} {BM : BuildMode}.
Variable el : StructuralElementBase R.

Add Ring scalar_ring_matrix : (@ring_laws R SR SL).

Let n := n_shape_functions (_fe el).
Let Tmat := T_matrix (_local_elem el).
Let G := global_T_matrix el.

(** A row of [mat] against any column. *)
Lemma kernel_row_sum (g : nat -> R) (p a : nat) :
  p < 6 -> a < n ->
  vsum (fun c => rmul (coef G (p * n + a) c) (g c)) (6 * n)
  = sum6 (fun q => rmul (dof_kernel Tmat p q) (g (q * n + a))).
Proof.
  intros Hp Ha. destruct (global_T_matrix_shape el) as (_ & _ & Hcoef).
  fold n in Hcoef. fold Tmat in Hcoef. fold G in Hcoef.
  rewrite vsum_six_blocks. unfold sum6.
  assert (Hblock : forall q, q < 6 ->
            vsum (fun i => rmul (coef G (p * n + a) (q * n + i)) (g (q * n + i))) n
            = rmul (dof_kernel Tmat p q) (g (q * n + a))).
  { intros q Hq.
    rewrite (@vsum_ext R R RealVal _
               (fun b => if a =? b then rmul (dof_kernel Tmat p q) (g (q * n + b)) else r0)).
    - apply vsum_delta with (g := fun b => rmul (dof_kernel Tmat p q) (g (q * n + b))).
      exact Ha.
    - intros b Hb. rewrite Hcoef by assumption.
      destruct (a =? b); [reflexivity | ring]. }
  rewrite !Hblock by lia. reflexivity.
Qed.

(** Entry of [mat * local_mat * mat.transpose()]: the block of the nodes
    [a], [b] of the result is made of the same block of [local_mat]. *)
Lemma transformed_matrix_entry (local_mat : Matrix R) (p q a b : nat) :
  ncols local_mat = 6 * n ->
  p < 6 -> q < 6 -> a < n -> b < n ->
  coef (mat_mul (mat_mul G local_mat) (mat_transpose G)) (p * n + a) (q * n + b)
  = sum6 (fun q' =>
            rmul (dof_kernel Tmat q q')
                 (sum6 (fun p' =>
                          rmul (dof_kernel Tmat p p')
                               (coef local_mat (p' * n + a) (q' * n + b))))).
Proof.
  intros Hc Hp Hq Ha Hb.
  destruct (global_T_matrix_shape el) as (_ & HGc & _).
  fold n in HGc. fold G in HGc.
  cbn [mat_mul coef ncols mat_transpose]. rewrite Hc, HGc.
  rewrite (@vsum_ext R R RealVal _
             (fun k => rmul (coef G (q * n + b) k)
                            (vsum (fun j => rmul (coef G (p * n + a) j) (coef local_mat j k))
                                  (6 * n))))
    by (intros; ring).
  rewrite kernel_row_sum by assumption. unfold sum6.
  rewrite !kernel_row_sum by assumption. reflexivity.
Qed.

Lemma transform_matrix_to_global_system_run (S0 : Type)
    (local_mat global_mat : Matrix R) (s : S0) :
  nrows local_mat = 6 * n -> ncols local_mat = 6 * n ->
  nrows global_mat = 6 * n -> ncols global_mat = 6 * n ->
  transform_matrix_to_global_system el local_mat global_mat s
  = Ok (mat_mul (mat_mul G local_mat) (mat_transpose G)) s.
Proof.
  intros H1 H2 H3 H4.
  unfold transform_matrix_to_global_system, libmesh_assert_equal_to, libmesh_assert, bind.
  rewrite H1, H2, H3, H4, Nat.eqb_refl.
  destruct asserts_enabled; reflexivity.
Qed.

(** X10.  With [T] the identity, as for a 3D element,
    [transform_matrix_to_global_system] gives back the local matrix: a
    matrix of the same size with the same entries. *)
Theorem transform_matrix_identity (S0 : Type) (local_mat global_mat : Matrix R) (s : S0) :
  nrows local_mat = 6 * n_shape_functions (_fe el) ->
  ncols local_mat = 6 * n_shape_functions (_fe el) ->
  nrows global_mat = 6 * n_shape_functions (_fe el) ->
  ncols global_mat = 6 * n_shape_functions (_fe el) ->
  is_identity (T_matrix (_local_elem el)) ->
  exists m,
    transform_matrix_to_global_system el local_mat global_mat s = Ok m s /\
    nrows m = nrows local_mat /\
    ncols m = ncols local_mat /\
    forall r c, r < nrows local_mat -> c < ncols local_mat ->
                coef m r c = coef local_mat r c.
Proof.
  fold n. fold Tmat. intros H1 H2 H3 H4 Hid.
  exists (mat_mul (mat_mul G local_mat) (mat_transpose G)).
  destruct (global_T_matrix_shape el) as (HGr & HGc & _).
  fold n in HGr, HGc. fold G in HGr, HGc.
  split; [apply transform_matrix_to_global_system_run; assumption|].
  split; [simpl; congruence|]. split; [simpl; congruence|].
  intros r c Hr Hcc. rewrite H1 in Hr. rewrite H2 in Hcc.
  destruct (dof_split el Hr) as (p & a & Hp & Ha & ->).
  destruct (dof_split el Hcc) as (q & b & Hq & Hb & ->).
  fold n. rewrite transformed_matrix_entry by assumption.
  destruct (kernel_identity
              (fun q' => sum6 (fun p' => rmul (dof_kernel Tmat p p')
                                              (coef local_mat (p' * n + a) (q' * n + b))))
              Hid Hq) as [Hq' _].
  rewrite Hq'.
  destruct (kernel_identity (fun p' => coef local_mat (p' * n + a) (q * n + b)) Hid Hp)
    as [Hp' _].
  exact Hp'.
Qed.

(** X11.  [transform_matrix_to_global_system] keeps symmetry, to numerical
    tolerance: the global form of a symmetric local matrix is symmetric,
    for any [T].  The equality of the mirrored entries is that of exact
    arithmetic, the scalars obeying the ring laws; the rounding of a
    floating-point run is not modelled. *)
Theorem transform_matrix_keeps_symmetry (S0 : Type)
    (local_mat global_mat : Matrix R) (s : S0) :
  nrows local_mat = 6 * n_shape_functions (_fe el) ->
  ncols local_mat = 6 * n_shape_functions (_fe el) ->
  nrows global_mat = 6 * n_shape_functions (_fe el) ->
  ncols global_mat = 6 * n_shape_functions (_fe el) ->
  (forall r c, r < nrows local_mat -> c < ncols local_mat ->
               coef local_mat r c = coef local_mat c r) ->
  exists m,
    transform_matrix_to_global_system el local_mat global_mat s = Ok m s /\
    forall r c, r < nrows m -> c < ncols m -> coef m r c = coef m c r.
Proof.
  fold n. intros H1 H2 H3 H4 Hsym.
  exists (mat_mul (mat_mul G local_mat) (mat_transpose G)).
  destruct (global_T_matrix_shape el) as (HGr & HGc & _).
  fold n in HGr, HGc. fold G in HGr, HGc.
  split; [apply transform_matrix_to_global_system_run; assumption|].
  intros r c Hr Hcc. cbn [mat_mul nrows ncols mat_transpose] in Hr, Hcc.
  rewrite HGr in Hr, Hcc.
  destruct (dof_split el Hr) as (p & a & Hp & Ha & ->).
  destruct (dof_split el Hcc) as (q & b & Hq & Hb & ->).
  fold n. rewrite !transformed_matrix_entry by assumption.
  assert (Hs : forall p' q', p' < 6 -> q' < 6 ->
             coef local_mat (q' * n + b) (p' * n + a)
             = coef local_mat (p' * n + a) (q' * n + b)).
  { intros p' q' Hp' Hq'. apply Hsym; rewrite ?H1, ?H2; nia. }
  unfold sum6. rewrite !Hs by lia. ring.
Qed.
End MatrixTransform.

Lemma transform_matrix_identity_witness :
  let el := Fixture.solid in
  nrows Fixture.skew12 = 6 * n_shape_functions (_fe el) /\
  is_identity (T_matrix (_local_elem el)) /\
  exists m,
    @transform_matrix_to_global_system Z _ Fixture.debug_build el unit
      Fixture.skew12 (mzero 12 12) tt = Ok m tt /\
    nrows m = nrows Fixture.skew12 /\
    ncols m = ncols Fixture.skew12 /\
    forall r c, r < nrows Fixture.skew12 -> c < ncols Fixture.skew12 ->
                coef m r c = coef Fixture.skew12 r c.
Proof.
  assert (Hid : is_identity (T_matrix (_local_elem Fixture.solid))).
  { intros j l Hj Hl.
    destruct j as [|[|[|j]]]; try lia; destruct l as [|[|[|l]]]; try lia; reflexivity. }
  split; [reflexivity|]. split; [exact Hid|].
  apply (@transform_matrix_identity Z _ _ Fixture.debug_build Fixture.solid unit
           Fixture.skew12 (mzero 12 12) tt eq_refl eq_refl eq_refl eq_refl Hid).
Defined.

Lemma transform_matrix_keeps_symmetry_witness :
  let el := Fixture.beam false false in
  (forall r c, r < nrows Fixture.symmetric12 -> c < ncols Fixture.symmetric12 ->
               coef Fixture.symmetric12 r c = coef Fixture.symmetric12 c r) /\
  exists m,
    @transform_matrix_to_global_system Z _ Fixture.debug_build el unit
      Fixture.symmetric12 (mzero 12 12) tt = Ok m tt /\
    forall r c, r < nrows m -> c < ncols m -> coef m r c = coef m c r.
Proof.
  assert (Hsym : forall r c, r < nrows Fixture.symmetric12 -> c < ncols Fixture.symmetric12 ->
                   coef Fixture.symmetric12 r c = coef Fixture.symmetric12 c r).
  { intros r c _ _. simpl. f_equal. lia. }
  split; [exact Hsym|].
  apply (@transform_matrix_keeps_symmetry Z _ _ Fixture.debug_build
           (Fixture.beam false false) unit
           Fixture.symmetric12 (mzero 12 12) tt eq_refl eq_refl eq_refl eq_refl Hsym).
Defined.

(** * The cached local vectors *)

Section CachedVectors.
Context {R : Type} {SR : Scalar R} {SL : ScalarLaws R} {BM : BuildMode} {B : Type}.
Variable el : StructuralElementBase R.
Variable parent : ElementBaseSetters R B.

Let n := n_shape_functions (_fe el).
Let to_local (vec : list R) : list R :=
  mat_vec (mat_transpose (global_T_matrix el)) vec.

Lemma set_solution_run (vec : list R) (st : ElementState R B) :
  asserts_enabled = false \/ length (_local_sol st) = length vec ->
  set_solution el parent vec false st
  = Ok tt {| base := ElementBase_set_solution parent vec false (base st);
             _local_sol := to_local vec; _local_vel := _local_vel st;
             _local_accel := _local_accel st;
             _local_base_sol := _local_base_sol st |}.
Proof.
  intros H. unfold set_solution, bind, get_state, put_state. simpl.
  rewrite transform_vector_to_local_system_run.
  destruct H as [-> | ->]; [|rewrite Nat.eqb_refl, andb_false_r]; reflexivity.
Qed.

Lemma set_velocity_run (vec : list R) (st : ElementState R B) :
  asserts_enabled = false \/ length (_local_vel st) = length vec ->
  set_velocity el parent vec false st
  = Ok tt {| base := ElementBase_set_velocity parent vec false (base st);
             _local_sol := _local_sol st; _local_vel := to_local vec;
             _local_accel := _local_accel st;
             _local_base_sol := _local_base_sol st |}.
Proof.
  intros H. unfold set_velocity, bind, get_state, put_state. simpl.
  rewrite transform_vector_to_local_system_run.
  destruct H as [-> | ->]; [|rewrite Nat.eqb_refl, andb_false_r]; reflexivity.
Qed.

Lemma set_base_solution_run (vec : list R) (st : ElementState R B) :
  asserts_enabled = false \/ length (_local_base_sol st) = length vec ->
  set_base_solution el parent vec false st
  = Ok tt {| base := ElementBase_set_base_solution parent vec false (base st);
             _local_sol := _local_sol st; _local_vel := _local_vel st;
             _local_accel := _local_accel st;
             _local_base_sol := to_local vec |}.
Proof.
  intros H. unfold set_base_solution, bind, get_state, put_state. simpl.
  rewrite transform_vector_to_local_system_run.
  destruct H as [-> | ->]; [|rewrite Nat.eqb_refl, andb_false_r]; reflexivity.
Qed.

(** In a build with assertions, a cache whose size is not that of the
    vector stops the setter at the size check of the transformation. *)
Lemma setter_size_check_is_fatal (vec : list R) (st : ElementState R B) :
  asserts_enabled = true ->
  (length (_local_sol st) <> length vec ->
   set_solution el parent vec false st = Fatal st) /\
  (length (_local_vel st) <> length vec ->
   set_velocity el parent vec false st = Fatal st) /\
  (length (_local_base_sol st) <> length vec ->
   set_base_solution el parent vec false st = Fatal st).
Proof.
  intros Ha.
  repeat split; intros Hne; apply Nat.eqb_neq in Hne;
    unfold set_solution, set_velocity, set_base_solution, bind, get_state, put_state;
    simpl; rewrite transform_vector_to_local_system_run, Ha, Hne; reflexivity.
Qed.

(** X12.  What the setters do with the vector they are given (flag clear,
    six entries per node).  Each setter goes through when assertions are
    compiled out or the cache it writes already has the size of the vector;
    the three of them then cache the same vector [T^T vec], which has six
    entries per node and is the given vector itself when [T] is the
    identity.  In a build with assertions, a cache of any other size makes
    the setter fatal, the element state left as it was. *)
Theorem cached_vector_is_the_vector_set
    (vec : list R) (st : ElementState R B) :
  length vec = 6 * n_shape_functions (_fe el) ->
  let cached := mat_vec (mat_transpose (global_T_matrix el)) vec in
  length cached = 6 * n_shape_functions (_fe el) /\
  (is_identity (T_matrix (_local_elem el)) -> cached = vec) /\
  (asserts_enabled = false \/ length (_local_sol st) = length vec ->
   exists st1, set_solution el parent vec false st = Ok tt st1 /\
               _local_sol st1 = cached) /\
  (asserts_enabled = false \/ length (_local_vel st) = length vec ->
   exists st2, set_velocity el parent vec false st = Ok tt st2 /\
               _local_vel st2 = cached) /\
  (asserts_enabled = false \/ length (_local_base_sol st) = length vec ->
   exists st3, set_base_solution el parent vec false st = Ok tt st3 /\
               _local_base_sol st3 = cached) /\
  (asserts_enabled = true ->
   (length (_local_sol st) <> length vec ->
    set_solution el parent vec false st = Fatal st) /\
   (length (_local_vel st) <> length vec ->
    set_velocity el parent vec false st = Fatal st) /\
   (length (_local_base_sol st) <> length vec ->
    set_base_solution el parent vec false st = Fatal st)).
Proof.
  intros Hv cached.
  split; [apply length_to_local|].
  split.
  { intros Hid. apply (proj1 (@identity_vector R SR SL el vec Hid Hv)). }
  split.
  { intros H. eexists. split; [apply set_solution_run; exact H | reflexivity]. }
  split.
  { intros H. eexists. split; [apply set_velocity_run; exact H | reflexivity]. }
  split.
  { intros H. eexists. split; [apply set_base_solution_run; exact H | reflexivity]. }
  apply setter_size_check_is_fatal.
Qed.
End CachedVectors.

(** On the beam, whose local frame is a quarter turn away from the global
    one: with the caches sized the debug build caches the turned vector;
    with a cache still empty the debug build stops, and the optimized build
    caches the same turned vector. *)
Lemma cached_vector_is_the_vector_set_witness :
  let el := Fixture.beam false false in
  let unsized :=
    {| base := []; _local_sol := []; _local_vel := [];
       _local_accel := []; _local_base_sol := [] |} in
  length Fixture.ramp12 = 6 * n_shape_functions (_fe el) /\
  (exists st1,
    @set_solution Z _ Fixture.debug_build el _ Fixture.parent_setters
      Fixture.ramp12 false Fixture.state0 = Ok tt st1 /\
    _local_sol st1 = mat_vec (mat_transpose (global_T_matrix el)) Fixture.ramp12) /\
  @set_solution Z _ Fixture.debug_build el _ Fixture.parent_setters
    Fixture.ramp12 false unsized = Fatal unsized /\
  (exists st1,
    @set_solution Z _ Fixture.optimized_build el _ Fixture.parent_setters
      Fixture.ramp12 false unsized = Ok tt st1 /\
    _local_sol st1 = mat_vec (mat_transpose (global_T_matrix el)) Fixture.ramp12).
Proof.
  split; [reflexivity|].
  split.
  { apply (proj1 (proj2 (proj2
      (@cached_vector_is_the_vector_set Z _ _ Fixture.debug_build _
         (Fixture.beam false false) Fixture.parent_setters
         Fixture.ramp12 Fixture.state0 eq_refl)))).
    right. reflexivity. }
  split.
  { apply (proj1 (proj2 (proj2 (proj2 (proj2 (proj2
      (@cached_vector_is_the_vector_set Z _ _ Fixture.debug_build _
         (Fixture.beam false false) Fixture.parent_setters
         Fixture.ramp12
         {| base := []; _local_sol := []; _local_vel := [];
            _local_accel := []; _local_base_sol := [] |} eq_refl))))) eq_refl)).
    discriminate. }
  apply (proj1 (proj2 (proj2
    (@cached_vector_is_the_vector_set Z _ _ Fixture.optimized_build _
       (Fixture.beam false false) Fixture.parent_setters
       Fixture.ramp12
       {| base := []; _local_sol := []; _local_vel := [];
          _local_accel := []; _local_base_sol := [] |} eq_refl)))).
  left. reflexivity.
Defined.

(** * Pressure loads and the rotational degrees of freedom *)

Section NoMoments.
Context {R : Type} {SR : Scalar R} {SL : ScalarLaws R} {BM : BuildMode}.
Variable el : StructuralElementBase R.

Add Ring scalar_ring_moments : (@ring_laws R SR SL).

(** Zero from entry [t] on (entries past the end read as zero). *)
Let zero_from (t : nat) (x : list R) : Prop := forall i, t <= i -> vget x i = r0.

Lemma nth_all_zero (l : list R) (j : nat) :
  (forall x, In x l -> x = r0) -> nth j l r0 = r0.
Proof.
  intros H. destruct (Nat.lt_ge_cases j (length l)) as [Hj|Hj].
  - apply H. apply nth_In. exact Hj.
  - apply nth_overflow. exact Hj.
Qed.

Lemma vector_mult_transpose_no_moments (phi_vec : list R) (a b c : R) :
  zero_from (3 * length phi_vec)
            (vector_mult_transpose (reinit (2 * n1) phi_vec) [a; b; c; r0; r0; r0]).
Proof.
  intros i Hi. unfold vector_mult_transpose, vget.
  cbn [n_interpolated_vars shape_func reinit n1 Nat.mul Nat.add seq flat_map nth].
  assert (Hlen : forall g : R -> R, length (map g phi_vec) = length phi_vec)
    by (intros; apply length_map).
  rewrite app_nth2 by (rewrite Hlen; lia). rewrite Hlen.
  rewrite app_nth2 by (rewrite Hlen; lia). rewrite Hlen.
  rewrite app_nth2 by (rewrite Hlen; lia). rewrite Hlen.
  apply nth_all_zero. intros x Hx.
  repeat (apply in_app_or in Hx; destruct Hx as [Hx|Hx];
          [apply in_map_iff in Hx; destruct Hx as (phi & <- & _); simpl; ring|]).
  destruct Hx.
Qed.

Lemma vec_scale_zero_from (t : nat) (w : R) (x : list R) :
  zero_from t x -> zero_from t (vec_scale w x).
Proof.
  intros H i Hi. unfold vec_scale, vget.
  destruct (Nat.lt_ge_cases i (length x)) as [Hlt|Hge].
  - rewrite nth_indep with (d' := rmul w r0) by (rewrite length_map; exact Hlt).
    rewrite map_nth. change (rmul w (vget x i) = r0). rewrite (H i Hi). ring.
  - apply nth_overflow. rewrite length_map. exact Hge.
Qed.

Lemma vec_add_assign_zero_from (t : nat) (dst src : list R) (i : nat) :
  zero_from t src -> t <= i ->
  vget (vec_add_assign dst src) i = vget dst i.
Proof.
  intros H Hi. unfold vec_add_assign. rewrite (@vget_map_seq R R RealVal).
  destruct (Nat.ltb_spec i (length dst)) as [Hlt|Hge].
  - rewrite (H i Hi). simpl. ring.
  - symmetry. apply nth_overflow. exact Hge.
Qed.

Lemma pressure_loop_no_moments (V : Type) (fe : FE R)
    (normal_at : nat -> Point R) (bc : BoundaryConditionBase R V) (qps : list nat) :
  let n_phi := length (get_phi fe) in
  zero_from (3 * n_phi)
    (p_local_f (fold_left (surface_pressure_qp el fe (vzero n_phi) normal_at bc) qps
                          (pressure_locals_init n_phi))).
Proof.
  intros n_phi.
  assert (H : forall l0 : PressureLocals R,
             (exists a b c, p_force l0 = [a; b; c; r0; r0; r0]) ->
             zero_from (3 * n_phi) (p_local_f l0) ->
             zero_from (3 * n_phi)
               (p_local_f (fold_left (surface_pressure_qp el fe (vzero n_phi) normal_at bc)
                                     qps l0))).
  { induction qps as [|qp qps IH]; intros l0 Hforce Hz; simpl.
    - exact Hz.
    - destruct Hforce as (a & b & c & Hforce).
      apply IH; unfold surface_pressure_qp; cbn [p_force p_local_f]; rewrite Hforce.
      + eexists. eexists. eexists. reflexivity.
      + intros i Hi. rewrite vec_add_assign_zero_from with (t := 3 * n_phi).
        * apply Hz. exact Hi.
        * apply vec_scale_zero_from.
          unfold pressure_force. cbn [n1 seq fold_left vset].
          pose proof (@vector_mult_transpose_no_moments
                        (set_shape_function_values fe qp (vzero n_phi))) as Hm.
          rewrite length_set_shape_function_values, length_vzero in Hm.
          apply Hm.
        * exact Hi. }
  apply H.
  - exists r0, r0, r0. reflexivity.
  - intros i _. cbn [p_local_f pressure_locals_init].
    exact (@vget_vzero _ _ RealVal _ _).
Qed.

(** Rows of the rotations only read the rotations. *)
Lemma to_global_no_moments (x : list R) :
  zero_from (3 * n_shape_functions (_fe el)) x ->
  zero_from (3 * n_shape_functions (_fe el)) (mat_vec (global_T_matrix el) x).
Proof.
  intros Hx i Hi.
  destruct (Nat.lt_ge_cases i (6 * n_shape_functions (_fe el))) as [Hlt|Hge].
  - destruct (dof_split el Hlt) as (p & a & Hp & Ha & ->).
    rewrite to_global_entry by assumption.
    assert (Hp3 : 3 <= p) by nia.
    assert (Hz : forall q, 3 <= q ->
                 vget x (q * n_shape_functions (_fe el) + a) = r0)
      by (intros q Hq; apply Hx; nia).
    unfold sum6. rewrite (Hz 3), (Hz 4), (Hz 5) by lia.
    destruct p as [|[|[|[|[|[|p]]]]]]; try lia; unfold dof_kernel; simpl; ring.
  - apply nth_overflow. rewrite length_to_global. exact Hge.
Qed.

(** X13.  A steady pressure load produces no nodal moments: with follower
    forces off, the routine completes and every entry of [f] from the first
    rotational degree of freedom on is what it was before the call.  The
    whole-element routine is taken on an element of dimension below three;
    for the side routine the side's finite element carries the shape
    functions of the element. *)
Theorem pressure_leaves_rotations_unloaded (V : Type)
    (request_jacobian : bool) (side : nat)
    (bc : BoundaryConditionBase R V) (st : LoadState R) :
  follower_forces el = false ->
  ((dim (_elem el) <? 3) = true ->
   exists s',
     surface_pressure_residual el request_jacobian bc st = Ok false s' /\
     forall i, 3 * n_shape_functions (_fe el) <= i -> vget (f s') i = vget (f st) i) /\
  (length (get_phi (side_fe_quadrature el side)) = n_shape_functions (_fe el) ->
   exists s',
     surface_pressure_residual_side el request_jacobian side bc st = Ok false s' /\
     forall i, 3 * n_shape_functions (_fe el) <= i -> vget (f s') i = vget (f st) i).
Proof.
  intros Hff. split.
  - intros Hdim. eexists. split; [apply surface_pressure_residual_run; assumption|].
    intros i Hi. cbn [f].
    apply vec_add_assign_zero_from with (t := 3 * n_shape_functions (_fe el)); [|exact Hi].
    unfold surface_pressure_load. apply to_global_no_moments.
    apply pressure_loop_no_moments.
  - intros Hphi. eexists. split; [apply surface_pressure_residual_side_run; assumption|].
    intros i Hi. cbn [f].
    apply vec_add_assign_zero_from with (t := 3 * n_shape_functions (_fe el)); [|exact Hi].
    unfold surface_pressure_side_load.
    pose proof (@pressure_loop_no_moments V (side_fe_quadrature el side)
                  (fun qp => nth qp (get_normals (side_fe_quadrature el side)) origin) bc
                  (seq 0 (length (get_xyz (side_fe_quadrature el side))))) as Hloop.
    cbv zeta in Hloop. rewrite Hphi in Hloop at 1.
    destruct (dim (_elem el) <? 3).
    + apply to_global_no_moments. exact Hloop.
    + exact Hloop.
Qed.
End NoMoments.

Lemma pressure_leaves_rotations_unloaded_witness :
  let el := Fixture.beam false false in
  let bc := Fixture.bc_of_type SURFACE_PRESSURE 2 in
  follower_forces el = false /\
  (dim (_elem el) <? 3) = true /\
  exists s',
    @surface_pressure_residual Z _ Fixture.debug_build el Z false bc Fixture.load0
    = Ok false s' /\
    forall i, 3 * n_shape_functions (_fe el) <= i ->
              vget (f s') i = vget (f Fixture.load0) i.
Proof.
  split; [reflexivity|]. split; [reflexivity|].
  apply (proj1 (@pressure_leaves_rotations_unloaded Z _ _ Fixture.debug_build
                  (Fixture.beam false false) Z false 0
                  (Fixture.bc_of_type SURFACE_PRESSURE 2) Fixture.load0 eq_refl)).
  reflexivity.
Defined.

(** * When the side dispatch fails *)

Section SideDispatchFailure.
Context {R : Type} {SR : Scalar R} {BM : BuildMode}.
Context {V : Type} {VT : ValType R V} {AV : AssembledVector R V}.
Variable el : StructuralElementBase R.

Lemma small_disturbance_side_loop_lengths (side : nat) (bc : BoundaryConditionBase R V)
    (n_qp : nat) :
  let n_phi := length (get_phi (side_fe_local el side)) in
  let l := small_disturbance_side_loop el side bc n_qp in
  length (p_local_f l) = 6 * n_phi /\ length (p_vec_n2 l) = 6 * n_phi.
Proof.
  cbv zeta. unfold small_disturbance_side_loop.
  generalize (seq 0 n_qp) as qps.
  assert (H : forall (qps : list nat) (l0 : PressureLocals V),
             length (p_local_f l0) = 6 * length (get_phi (side_fe_local el side)) ->
             length (p_vec_n2 l0) = 6 * length (get_phi (side_fe_local el side)) ->
             let l := fold_left
                        (small_disturbance_qp el (side_fe_local el side)
                           (vzero (length (get_phi (side_fe_local el side))))
                           (fun qp => nth qp (get_normals (side_fe_local el side)) origin)
                           bc) qps l0 in
             length (p_local_f l) = 6 * length (get_phi (side_fe_local el side)) /\
             length (p_vec_n2 l) = 6 * length (get_phi (side_fe_local el side))).
  { induction qps as [|qp qps IH]; intros l0 Hf Hv; simpl.
    - split; assumption.
    - apply IH; unfold small_disturbance_qp; simpl.
      + rewrite length_vec_add_assign. exact Hf.
      + rewrite length_vector_mult_transpose. simpl.
        rewrite length_set_shape_function_values, length_vzero. reflexivity. }
  intros qps. apply H; simpl; apply length_vzero.
Qed.

Lemma transform_values_to_global_system_run (S0 : Type)
    (local_vec global_vec : list V) (s : S0) :
  transform_vector_to_global_system el local_vec global_vec s =
  if asserts_enabled && negb (length local_vec =? length global_vec) then Fatal s
  else Ok (mat_vec (global_T_matrix el) local_vec) s.
Proof.
  unfold transform_vector_to_global_system, libmesh_assert_equal_to, libmesh_assert, bind.
  destruct asserts_enabled; simpl; [|reflexivity].
  destruct (length local_vec =? length global_vec); reflexivity.
Qed.

Lemma small_disturbance_side_completes (request_jacobian : bool) (side : nat)
    (bc : BoundaryConditionBase R V) (st : LoadState R) :
  follower_forces el = false ->
  bc_type bc = SMALL_DISTURBANCE_MOTION ->
  exists s',
    small_disturbance_surface_pressure_residual_side el request_jacobian side bc st
    = Ok false s'.
Proof.
  intros Hff Hty.
  unfold small_disturbance_surface_pressure_residual_side.
  destruct (small_disturbance_side_loop_lengths side bc
              (length (get_xyz (side_fe_local el side)))) as [Hf Hv].
  cbv zeta in Hf, Hv. cbv zeta.
  rewrite !libmesh_assert_run, Hff, Hty. cbn [negb]. rewrite ?andb_false_r.
  destruct (dim (_elem el) <? 3).
  - unfold bind. rewrite transform_values_to_global_system_run.
    rewrite Hf, Hv, Nat.eqb_refl, andb_false_r. eexists. reflexivity.
  - eexists. reflexivity.
Qed.

Lemma side_apply_match_completes (request_jacobian : bool)
    (nb : nat * BoundaryConditionBase R V) (s : LoadState R) :
  follower_forces el = false ->
  side_supported (bc_type (snd nb)) = true ->
  exists s', side_apply_match el request_jacobian false nb s = Ok false s'.
Proof.
  intros Hff Hs. destruct nb as [n b]. unfold side_apply_match, side_apply_bc.
  simpl in *. destruct (bc_type b) eqn:Hty; try discriminate Hs; unfold or_else.
  - rewrite (@surface_pressure_residual_side_run R SR BM el V request_jacobian n b s Hff).
    eexists. reflexivity.
  - apply small_disturbance_side_completes; assumption.
  - eexists. reflexivity.
Qed.

Lemma foldM_completes (X : Type) (body : bool -> X -> M (LoadState R) bool)
    (l : list X) (s : LoadState R) :
  (forall x s, In x l -> exists s', body false x s = Ok false s') ->
  exists s', foldM body l false s = Ok false s'.
Proof.
  revert s. induction l as [|x l IH]; intros s H; simpl.
  - eexists. reflexivity.
  - destruct (H x s (or_introl eq_refl)) as [s1 H1].
    unfold bind. rewrite H1. apply IH.
    intros y s' Hy. apply H. right. exact Hy.
Qed.

Lemma forallb_false_exists (X : Type) (p : X -> bool) (l : list X) :
  forallb p l = false -> exists x, In x l /\ p x = false.
Proof.
  induction l as [|x l IH]; simpl; intros H.
  - discriminate.
  - destruct (p x) eqn:Hx.
    + destruct (IH H) as (y & Hy & Hpy). exists y. split; [right|]; assumption.
    + exists x. split; [left; reflexivity | exact Hx].
Qed.

(** X14.  For an element without follower forces the side dispatch fails
    for one reason only: it ends in the fatal error exactly when one of the
    conditions it dispatches has a type tag other than SURFACE_PRESSURE,
    SMALL_DISTURBANCE_MOTION and DIRICHLET.  Otherwise it completes and
    returns [false]. *)
Theorem side_dispatch_fails_only_on_unsupported_types
    (request_jacobian : bool) (bc : multimap nat (BoundaryConditionBase R V))
    (st : LoadState R) :
  follower_forces el = false ->
  (is_fatal (side_external_residual el request_jacobian bc st) = true <->
   exists n b, In (n, b) (side_matches el bc) /\ side_supported (bc_type b) = false) /\
  (is_fatal (side_external_residual el request_jacobian bc st) = false ->
   exists s', side_external_residual el request_jacobian bc st = Ok false s').
Proof.
  intros Hff.
  assert (Hfail : (exists n b, In (n, b) (side_matches el bc) /\
                               side_supported (bc_type b) = false) ->
                  is_fatal (side_external_residual el request_jacobian bc st) = true).
  { intros (n & b & Hin & Hty).
    unfold side_external_residual, bind. rewrite side_external_loops_matches.
    assert (Hf : is_fatal (foldM (side_apply_match el request_jacobian)
                                 (side_matches el bc) false st) = true).
    { apply foldM_fatal with (x := (n, b)); [assumption|].
      intros a s. unfold side_apply_match, side_apply_bc. simpl.
      destruct (bc_type b); try discriminate; reflexivity. }
    destruct (foldM _ _ false st); [discriminate | reflexivity]. }
  assert (Hok : forallb (fun nb => side_supported (bc_type (snd nb))) (side_matches el bc)
                = true ->
                exists s', side_external_residual el request_jacobian bc st = Ok false s').
  { intros Hall. rewrite forallb_forall in Hall.
    destruct (@foldM_completes _ (side_apply_match el request_jacobian)
                (side_matches el bc) st) as [s' Hs'].
    - intros x s Hx. apply side_apply_match_completes; [exact Hff | apply Hall; exact Hx].
    - exists s'. unfold side_external_residual, bind.
      rewrite side_external_loops_matches, Hs'. unfold ret.
      rewrite andb_false_r. reflexivity. }
  destruct (forallb (fun nb => side_supported (bc_type (snd nb))) (side_matches el bc))
    eqn:Hall.
  - destruct (Hok eq_refl) as [s' Hs']. split.
    + split; [rewrite Hs'; discriminate | exact Hfail].
    + intros _. exists s'. exact Hs'.
  - apply forallb_false_exists in Hall. destruct Hall as ([n b] & Hin & Hty).
    simpl in Hty.
    assert (Hf := Hfail (ex_intro _ n (ex_intro _ b (conj Hin Hty)))).
    split.
    + split; [intros _; exists n, b; split; assumption | exact Hfail].
    + rewrite Hf. discriminate.
Qed.
End SideDispatchFailure.

Lemma side_dispatch_fails_only_on_unsupported_types_witness :
  let el := Fixture.beam false false in
  let bc := [(4, Fixture.bc_of_type SURFACE_PRESSURE 2);
             (4, Fixture.bc_of_type SMALL_DISTURBANCE_MOTION 2);
             (4, Fixture.bc_of_type DIRICHLET 0)] in
  follower_forces el = false /\
  is_fatal (@side_external_residual Z _ Fixture.debug_build el Z _ Fixture.assemble_real
              true bc Fixture.load0) = false /\
  exists s',
    @side_external_residual Z _ Fixture.debug_build el Z _ Fixture.assemble_real
      true bc Fixture.load0 = Ok false s'.
Proof.
  split; [reflexivity|]. split; [reflexivity|].
  apply (proj2 (@side_dispatch_fails_only_on_unsupported_types
                  Z _ Fixture.debug_build Z _ Fixture.assemble_real
                  (Fixture.beam false false) true
                  [(4, Fixture.bc_of_type SURFACE_PRESSURE 2);
                   (4, Fixture.bc_of_type SMALL_DISTURBANCE_MOTION 2);
                   (4, Fixture.bc_of_type DIRICHLET 0)]
                  Fixture.load0 eq_refl)).
  reflexivity.
Defined.

(** * Sums and scalings *)

Section Linearity.
Context {R : Type} {SR : Scalar R} {SL : ScalarLaws R} {BM : BuildMode}.
Variable el : StructuralElementBase R.

Add Ring scalar_ring_linear : (@ring_laws R SR SL).

Lemma vsum_add (g h : nat -> R) (n : nat) :
  vsum (fun j => radd (g j) (h j)) n = radd (vsum g n) (vsum h n).
Proof.
  induction n as [|n IH]; simpl.
  - ring.
  - rewrite IH. ring.
Qed.

Lemma vsum_scale (a : R) (g : nat -> R) (n : nat) :
  vsum (fun j => rmul a (g j)) n = rmul a (vsum g n).
Proof.
  induction n as [|n IH]; simpl.
  - ring.
  - rewrite IH. ring.
Qed.

Lemma vget_vec_scale (a : R) (x : list R) (j : nat) :
  vget (vec_scale a x) j = rmul a (vget x j).
Proof.
  unfold vec_scale, vget.
  destruct (Nat.lt_ge_cases j (length x)) as [Hlt|Hge].
  - rewrite nth_indep with (d' := rmul a r0) by (rewrite length_map; exact Hlt).
    apply (map_nth (rmul a)).
  - rewrite !nth_overflow by (rewrite ?length_map; exact Hge). simpl. ring.
Qed.

End Linearity.

(** * Whole-element pressure on a solid *)

Section SolidElement.
Context {R : Type} {SR : Scalar R} {BM : BuildMode}.
Context {V : Type} {VT : ValType R V} {AV : AssembledVector R V}.
Variable el : StructuralElementBase R.

(** X16.  The whole-element pressure routines are for elements of
    dimension below three: in a build that keeps assertions, calling them
    on a 3D element stops at once with the buffers untouched, and so does a
    subdomain dispatch whose first matched condition is a steady or a
    small-disturbance pressure. *)
Theorem whole_element_pressure_rejects_solids
    (request_jacobian : bool) (b : BoundaryConditionBase R V)
    (bc : multimap nat (BoundaryConditionBase R V))
    (rest : list (BoundaryConditionBase R V)) (st : LoadState R) :
  asserts_enabled = true ->
  (dim (_elem el) <? 3) = false ->
  surface_pressure_residual el request_jacobian b st = Fatal st /\
  small_disturbance_surface_pressure_residual el request_jacobian b st = Fatal st /\
  (volume_matches el bc = b :: rest ->
   bc_type b = SURFACE_PRESSURE \/ bc_type b = SMALL_DISTURBANCE_MOTION ->
   volume_external_residual el request_jacobian bc st = Fatal st).
Proof.
  intros Ha Hdim.
  assert (H1 : surface_pressure_residual el request_jacobian b st = Fatal st).
  { unfold surface_pressure_residual. rewrite Hdim.
    apply libmesh_assert_false. exact Ha. }
  assert (H2 : small_disturbance_surface_pressure_residual el request_jacobian b st
               = Fatal st).
  { unfold small_disturbance_surface_pressure_residual. rewrite Hdim.
    apply libmesh_assert_false. exact Ha. }
  split; [exact H1|]. split; [exact H2|].
  intros Hm Hty.
  unfold volume_external_residual, volume_external_loop, bind.
  unfold volume_matches in Hm. rewrite Hm. simpl. unfold bind, volume_apply_bc.
  destruct Hty as [Hty|Hty]; rewrite Hty; unfold or_else; [rewrite H1 | rewrite H2];
    reflexivity.
Qed.
End SolidElement.

Lemma whole_element_pressure_rejects_solids_witness :
  let el := Fixture.solid in
  let b := Fixture.bc_of_type SURFACE_PRESSURE 2 in
  @asserts_enabled Fixture.debug_build = true /\
  (dim (_elem el) <? 3) = false /\
  @volume_external_residual Z _ Fixture.debug_build el Z _ Fixture.assemble_real
    false [(7, b)] Fixture.load0 = Fatal Fixture.load0.
Proof.
  split; [reflexivity|]. split; [reflexivity|].
  apply (proj2 (proj2 (@whole_element_pressure_rejects_solids
                         Z _ Fixture.debug_build Z _ Fixture.assemble_real
                         Fixture.solid false (Fixture.bc_of_type SURFACE_PRESSURE 2)
                         [(7, Fixture.bc_of_type SURFACE_PRESSURE 2)] []
                         Fixture.load0 eq_refl eq_refl))).
  - reflexivity.
  - left. reflexivity.
Defined.

(** * Steady loads: what the dispatch adds, and in which order *)

Section PermutationFacts.
Context {A B : Type}.

Lemma Permutation_filter_keeps (p : A -> bool) (l l' : list A) :
  Permutation l l' -> Permutation (filter p l) (filter p l').
Proof.
  induction 1 as [|x l l' _ IH|x y l|l l' l'' _ IH1 _ IH2]; simpl.
  - constructor.
  - destruct (p x); [constructor|]; exact IH.
  - destruct (p x), (p y); try apply Permutation_refl. constructor.
  - eapply Permutation_trans; eassumption.
Qed.

Lemma Permutation_flat_map_pointwise (g g' : A -> list B) (l : list A) :
  (forall x, Permutation (g x) (g' x)) ->
  Permutation (flat_map g l) (flat_map g' l).
Proof.
  intros H. induction l as [|x l IH]; simpl.
  - constructor.
  - apply Permutation_app; [apply H | exact IH].
Qed.
End PermutationFacts.

Section SteadyDispatch.
Context {R : Type} {SR : Scalar R} {SL : ScalarLaws R} {BM : BuildMode}.
Context {V : Type} {VT : ValType R V} {AV : AssembledVector R V}.
Variable el : StructuralElementBase R.

Lemma side_matches_permutation (bc bc' : multimap nat (BoundaryConditionBase R V)) :
  Permutation bc bc' -> Permutation (side_matches el bc) (side_matches el bc').
Proof.
  intros H. unfold side_matches.
  apply Permutation_flat_map_pointwise. intros n.
  apply Permutation_flat_map_pointwise. intros id.
  apply Permutation_map. unfold equal_range.
  apply Permutation_map. apply Permutation_filter_keeps. exact H.
Qed.

Lemma volume_matches_permutation (bc bc' : multimap nat (BoundaryConditionBase R V)) :
  Permutation bc bc' -> Permutation (volume_matches el bc) (volume_matches el bc').
Proof.
  intros H. unfold volume_matches, equal_range.
  apply Permutation_map. apply Permutation_filter_keeps. exact H.
Qed.

Lemma side_pressure_sum_permutation (l l' : list (nat * BoundaryConditionBase R V))
    (f0 : list R) :
  Permutation l l' -> side_pressure_sum el l f0 = side_pressure_sum el l' f0.
Proof.
  intros H. revert f0. unfold side_pressure_sum.
  induction H as [|x l l' _ IH|x y l|l l' l'' _ IH1 _ IH2]; intros f0; simpl.
  - reflexivity.
  - apply IH.
  - f_equal. destruct (bc_type (snd x)), (bc_type (snd y)); try reflexivity.
    apply (@vec_add_assign_swap R SR SL).
  - rewrite IH1. apply IH2.
Qed.

Lemma volume_pressure_sum_permutation (l l' : list (BoundaryConditionBase R V))
    (f0 : list R) :
  Permutation l l' -> volume_pressure_sum el l f0 = volume_pressure_sum el l' f0.
Proof.
  intros H. revert f0. unfold volume_pressure_sum.
  induction H as [|x l l' _ IH|x y l|l l' l'' _ IH1 _ IH2]; intros f0; simpl.
  - reflexivity.
  - apply IH.
  - f_equal. destruct (bc_type x), (bc_type y); try reflexivity.
    apply (@vec_add_assign_swap R SR SL).
  - rewrite IH1. apply IH2.
Qed.

Lemma side_steady_loop (request_jacobian : bool)
    (l : list (nat * BoundaryConditionBase R V)) (st : LoadState R) :
  follower_forces el = false ->
  (forall nb, In nb l -> steady_side_type (bc_type (snd nb)) = true) ->
  foldM (side_apply_match el request_jacobian) l false st
  = Ok false {| f := side_pressure_sum el l (f st); jac := jac st |}.
Proof.
  intros Hff. revert st. induction l as [|[n b] l IH]; intros st Hall; simpl.
  - destruct st; reflexivity.
  - assert (Hb := Hall (n, b) (or_introl eq_refl)). simpl in Hb.
    unfold bind, side_apply_match at 1, side_apply_bc. cbn [fst snd].
    unfold side_pressure_sum. cbn [fold_left fst snd].
    destruct (bc_type b); try discriminate Hb; unfold or_else.
    + rewrite (@surface_pressure_residual_side_run R SR BM el V request_jacobian n b st Hff).
      rewrite IH by (intros nb Hnb; apply Hall; right; exact Hnb). reflexivity.
    + unfold ret.
      rewrite IH by (intros nb Hnb; apply Hall; right; exact Hnb). reflexivity.
Qed.

Lemma volume_steady_loop (request_jacobian : bool)
    (l : list (BoundaryConditionBase R V)) (st : LoadState R) :
  follower_forces el = false ->
  (dim (_elem el) <? 3) = true ->
  (forall b, In b l -> is_surface_pressure (bc_type b) = true) ->
  foldM (volume_apply_bc el request_jacobian) l false st
  = Ok false {| f := volume_pressure_sum el l (f st); jac := jac st |}.
Proof.
  intros Hff Hdim. revert st. induction l as [|b l IH]; intros st Hall; simpl.
  - destruct st; reflexivity.
  - assert (Hb := Hall b (or_introl eq_refl)).
    unfold bind, volume_apply_bc at 1.
    unfold volume_pressure_sum. cbn [fold_left].
    destruct (bc_type b); try discriminate Hb; unfold or_else.
    rewrite (@surface_pressure_residual_run R SR BM el V request_jacobian b st Hff Hdim).
    rewrite IH by (intros x Hx; apply Hall; right; exact Hx). reflexivity.
Qed.

(** X17.  What a dispatch of steady loads adds up to: for an element
    without follower forces whose dispatched conditions are pressures (and,
    on sides, DIRICHLET conditions), the dispatch completes, returns
    [false], leaves [jac] alone, and [f] has received the load vector of
    every pressure condition, one after the other; a DIRICHLET condition
    contributes nothing.  (The subdomain dispatch is taken on an element of
    dimension below three.) *)
Theorem steady_dispatch_adds_every_load
    (request_jacobian : bool) (bc : multimap nat (BoundaryConditionBase R V))
    (st : LoadState R) :
  follower_forces el = false ->
  ((forall nb, In nb (side_matches el bc) -> steady_side_type (bc_type (snd nb)) = true) ->
   side_external_residual el request_jacobian bc st
   = Ok false {| f := side_pressure_sum el (side_matches el bc) (f st);
                 jac := jac st |}) /\
  ((dim (_elem el) <? 3) = true ->
   (forall b, In b (volume_matches el bc) -> is_surface_pressure (bc_type b) = true) ->
   volume_external_residual el request_jacobian bc st
   = Ok false {| f := volume_pressure_sum el (volume_matches el bc) (f st);
                 jac := jac st |}).
Proof.
  intros Hff. split.
  - intros Hall. unfold side_external_residual, bind.
    rewrite side_external_loops_matches, side_steady_loop by assumption.
    unfold ret. rewrite andb_false_r. reflexivity.
  - intros Hdim Hall. unfold volume_external_residual, volume_external_loop, bind.
    fold (volume_matches el bc).
    rewrite volume_steady_loop by assumption.
    unfold ret. rewrite andb_false_r. reflexivity.
Qed.

(** X18.  For steady loads the order of registration does not matter, to
    numerical tolerance: under the conditions of X17, two maps that hold
    the same entries in a different order give the same outcome, the same
    [jac], and the same [f] in exact arithmetic (the scalars obeying the
    ring laws: the loads are added to [f] in another order, and the
    rounding of a floating-point run is not modelled). *)
Theorem steady_dispatch_ignores_registration_order
    (request_jacobian : bool) (bc bc' : multimap nat (BoundaryConditionBase R V))
    (st : LoadState R) :
  follower_forces el = false ->
  Permutation bc bc' ->
  ((forall nb, In nb (side_matches el bc) -> steady_side_type (bc_type (snd nb)) = true) ->
   side_external_residual el request_jacobian bc st
   = side_external_residual el request_jacobian bc' st) /\
  ((dim (_elem el) <? 3) = true ->
   (forall b, In b (volume_matches el bc) -> is_surface_pressure (bc_type b) = true) ->
   volume_external_residual el request_jacobian bc st
   = volume_external_residual el request_jacobian bc' st).
Proof.
  intros Hff Hperm. split.
  - intros Hall.
    pose proof (side_matches_permutation Hperm) as Hm.
    assert (Hall' : forall nb, In nb (side_matches el bc') ->
                               steady_side_type (bc_type (snd nb)) = true).
    { intros nb Hnb. apply Hall. apply Permutation_in with (l := side_matches el bc');
        [apply Permutation_sym; exact Hm | exact Hnb]. }
    unfold side_external_residual, bind.
    rewrite !side_external_loops_matches, !side_steady_loop by assumption.
    rewrite (side_pressure_sum_permutation (f st) Hm). reflexivity.
  - intros Hdim Hall.
    pose proof (volume_matches_permutation Hperm) as Hm.
    assert (Hall' : forall b, In b (volume_matches el bc') ->
                              is_surface_pressure (bc_type b) = true).
    { intros b Hb. apply Hall. apply Permutation_in with (l := volume_matches el bc');
        [apply Permutation_sym; exact Hm | exact Hb]. }
    unfold volume_external_residual, volume_external_loop, bind.
    fold (volume_matches el bc). fold (volume_matches el bc').
    rewrite !volume_steady_loop by assumption.
    rewrite (volume_pressure_sum_permutation (f st) Hm). reflexivity.
Qed.
End SteadyDispatch.

Lemma steady_dispatch_adds_every_load_witness :
  let el := Fixture.beam false false in
  let bc := [(4, Fixture.bc_of_type SURFACE_PRESSURE 2);
             (4, Fixture.bc_of_type DIRICHLET 0);
             (4, Fixture.bc_of_type SURFACE_PRESSURE 5)] in
  follower_forces el = false /\
  (forall nb, In nb (side_matches el bc) -> steady_side_type (bc_type (snd nb)) = true) /\
  exists s',
    @side_external_residual Z _ Fixture.debug_build el Z _ Fixture.assemble_real
      true bc Fixture.load0 = Ok false s' /\
    f s' = [0; 0; 7; 0; 0; 0; 0; 0; 0; 0; 0; 0]%Z.
Proof.
  assert (Hall : forall nb,
             In nb (side_matches (Fixture.beam false false)
                      [(4, Fixture.bc_of_type SURFACE_PRESSURE 2);
                       (4, Fixture.bc_of_type DIRICHLET 0);
                       (4, Fixture.bc_of_type SURFACE_PRESSURE 5)]) ->
             steady_side_type (bc_type (snd nb)) = true).
  { intros nb [<-|[<-|[<-|[]]]]; reflexivity. }
  split; [reflexivity|]. split; [exact Hall|].
  eexists. split.
  - apply (proj1 (@steady_dispatch_adds_every_load Z _ Fixture.debug_build Z _
                    Fixture.assemble_real (Fixture.beam false false) true
                    [(4, Fixture.bc_of_type SURFACE_PRESSURE 2);
                     (4, Fixture.bc_of_type DIRICHLET 0);
                     (4, Fixture.bc_of_type SURFACE_PRESSURE 5)]
                    Fixture.load0 eq_refl)).
    exact Hall.
  - vm_compute. reflexivity.
Defined.

Lemma steady_dispatch_ignores_registration_order_witness :
  let el := Fixture.beam false false in
  let p2 := Fixture.bc_of_type SURFACE_PRESSURE 2 in
  let p5 := Fixture.bc_of_type SURFACE_PRESSURE 5 in
  follower_forces el = false /\
  Permutation [(7, p2); (7, p5)] [(7, p5); (7, p2)] /\
  (dim (_elem el) <? 3) = true /\
  @volume_external_residual Z _ Fixture.debug_build el Z _ Fixture.assemble_real
    true [(7, p2); (7, p5)] Fixture.load0
  = @volume_external_residual Z _ Fixture.debug_build el Z _ Fixture.assemble_real
      true [(7, p5); (7, p2)] Fixture.load0.
Proof.
  split; [reflexivity|]. split; [apply perm_swap|]. split; [reflexivity|].
  apply (proj2 (@steady_dispatch_ignores_registration_order Z _ _ Fixture.debug_build Z _
                  Fixture.assemble_real (Fixture.beam false false) true
                  [(7, Fixture.bc_of_type SURFACE_PRESSURE 2);
                   (7, Fixture.bc_of_type SURFACE_PRESSURE 5)]
                  [(7, Fixture.bc_of_type SURFACE_PRESSURE 5);
                   (7, Fixture.bc_of_type SURFACE_PRESSURE 2)]
                  Fixture.load0 eq_refl (perm_swap _ _ _))).
  - reflexivity.
  - intros b [<-|[<-|[]]]; reflexivity.
Defined.

(** * The inertial force and its Jacobian *)

Section FlatMapIndex.
Context {A : Type}.

Lemma nth_flat_map_blocks (g : nat -> list A) (m : nat) (d : A) (k s i : nat) :
  (forall x, length (g x) = m) ->
  i < k * m ->
  nth i (flat_map g (seq s k)) d = nth (i mod m) (g (s + i / m)) d.
Proof.
  intros Hg. revert s i. induction k as [|k IH]; intros s i Hi.
  - lia.
  - assert (Hm : m <> 0) by lia.
    simpl. destruct (Nat.lt_ge_cases i m) as [Hlt|Hge].
    + rewrite app_nth1 by (rewrite Hg; exact Hlt).
      rewrite Nat.mod_small, Nat.div_small by exact Hlt.
      rewrite Nat.add_0_r. reflexivity.
    + rewrite app_nth2 by (rewrite Hg; exact Hge). rewrite Hg.
      rewrite IH by (simpl in Hi; lia).
      replace i with ((i - m) + 1 * m) at 3 4 by lia.
      rewrite Nat.Div0.mod_add, Nat.div_add by exact Hm.
      f_equal. f_equal. lia.
Qed.
End FlatMapIndex.

Section InertialJacobian.
Context {R : Type} {SR : Scalar R} {SL : ScalarLaws R}.
Variable el : StructuralElementBase R.
Variable local_accel : list R.

Add Ring scalar_ring_inertia : (@ring_laws R SR SL).

(** Entry of [B^T v] *)
Lemma vget_vector_mult_transpose (B : FEMOperatorMatrix R) (v : list R) (i : nat) :
  i < n_interpolated_vars B * n_dofs_per_var B ->
  vget (vector_mult_transpose B v) i
  = rmul (vget (shape_func B) (i mod n_dofs_per_var B)) (vget v (i / n_dofs_per_var B)).
Proof.
  intros Hi. unfold vector_mult_transpose, vget, n_dofs_per_var in *.
  rewrite nth_flat_map_blocks with (m := length (shape_func B));
    [| intros; apply length_map | exact Hi].
  simpl.
  assert (Hm : i mod length (shape_func B) < length (shape_func B))
    by (apply Nat.mod_upper_bound; lia).
  rewrite nth_indep with (d' := rmul r0 (nth (i / length (shape_func B)) v r0))
    by (rewrite length_map; exact Hm).
  apply (map_nth (fun phi_k => rmul phi_k (nth (i / length (shape_func B)) v r0))).
Qed.

Lemma mat_vec_entry (m : Matrix R) (x : list R) (i : nat) :
  i < nrows m ->
  vget (mat_vec m x) i = vsum (fun j => rmul (coef m i j) (vget x j)) (ncols m).
Proof.
  intros Hi. unfold mat_vec. rewrite (@vget_map_seq R R RealVal).
  apply Nat.ltb_lt in Hi. rewrite Hi. reflexivity.
Qed.

(** One quadrature point keeps "force = Jacobian times acceleration". *)
Lemma inertial_consistent_qp_keeps_product (l : InertialLocals R) (qp : nat) :
  n_vars el = 6 ->
  (forall p t, nrows (inertia_matrix (_property el) p t) = 6) ->
  let n2 := 6 * length (get_phi (_fe el)) in
  nrows (local_jac l) = n2 -> ncols (local_jac l) = n2 ->
  local_f l = mat_vec (local_jac l) local_accel ->
  let l' := inertial_consistent_qp el local_accel true l qp in
  nrows (local_jac l') = n2 /\ ncols (local_jac l') = n2 /\
  local_f l' = mat_vec (local_jac l') local_accel.
Proof.
  intros Hnv Hrows n2 Hr Hc Hf. cbv zeta.
  unfold inertial_consistent_qp. cbn [local_jac local_f].
  split; [exact Hr|]. split; [exact Hc|].
  set (p := global_coordinates_location (_local_elem el) (nth 0 (get_xyz (_fe el)) origin)).
  set (material_mat := inertia_matrix (_property el) p (_time el)).
  set (phi_vec := set_shape_function_values (_fe el) qp (vzero (length (get_phi (_fe el))))).
  assert (Hphi : length phi_vec = length (get_phi (_fe el))).
  { unfold phi_vec. rewrite length_set_shape_function_values. apply length_vzero. }
  set (Bmat := reinit (n_vars el) phi_vec).
  assert (HB : n_interpolated_vars Bmat * n_dofs_per_var Bmat = n2).
  { unfold Bmat, n_dofs_per_var. simpl. rewrite Hnv, Hphi. reflexivity. }
  unfold vec_add_assign.
  assert (Hlen : length (local_f l) = n2).
  { rewrite Hf. unfold mat_vec. rewrite length_map, length_seq. exact Hr. }
  rewrite Hlen. unfold mat_vec at 2. cbn [nrows ncols mat_add_assign]. rewrite Hr, Hc.
  apply map_seq_ext. intros i Hi.
  rewrite vget_vec_scale, vget_vector_mult_transpose by (rewrite HB; exact Hi).
  rewrite Hf, mat_vec_entry by (rewrite Hr; exact Hi). rewrite Hc.
  assert (Hq : i / n_dofs_per_var Bmat < 6).
  { apply Nat.Div0.div_lt_upper_bound. rewrite <- Hnv.
    change (n_vars el) with (n_interpolated_vars Bmat).
    rewrite Nat.mul_comm, HB. exact Hi. }
  rewrite mat_vec_entry by (cbn [left_multiply nrows]; unfold material_mat; rewrite Hrows; exact Hq).
  cbn [left_multiply ncols]. rewrite HB.
  cbn [vadd vscale RealVal coef mat_scale right_multiply_transpose left_multiply].
  rewrite <- !vsum_scale, <- vsum_add.
  apply vsum_ext. intros j _.
  cbn [coef mat_add_assign mat_scale right_multiply_transpose left_multiply]. ring.
Qed.

(** X19.  The acceleration Jacobian is the derivative of the inertial
    force, to numerical tolerance: with the Jacobian requested, six
    variables per node and a 6-row inertia matrix, the local force
    [inertial_residual] accumulates is its local Jacobian times the local
    acceleration, with lumped and with consistent mass alike.  With lumped
    mass the force is computed as that product; with consistent mass the
    equality is that of exact arithmetic, the scalars obeying the ring
    laws, and the rounding of a floating-point run is not modelled. *)
Theorem inertial_force_is_jacobian_times_acceleration :
  n_vars el = 6 ->
  (forall p t, nrows (inertia_matrix (_property el) p t) = 6) ->
  let l := inertial_local el local_accel true in
  local_f l = mat_vec (local_jac l) local_accel.
Proof.
  intros Hnv Hrows. cbv zeta. unfold inertial_local.
  destruct (if_diagonal_mass_matrix (_property el)).
  - reflexivity.
  - unfold inertial_consistent.
    assert (H : forall qps (l0 : InertialLocals R),
               nrows (local_jac l0) = 6 * length (get_phi (_fe el)) ->
               ncols (local_jac l0) = 6 * length (get_phi (_fe el)) ->
               local_f l0 = mat_vec (local_jac l0) local_accel ->
               let l := fold_left (inertial_consistent_qp el local_accel true) qps l0 in
               local_f l = mat_vec (local_jac l) local_accel).
    { induction qps as [|qp qps IH]; intros l0 Hr Hc Hf; simpl.
      - exact Hf.
      - destruct (@inertial_consistent_qp_keeps_product l0 qp Hnv Hrows Hr Hc Hf)
          as (Hr' & Hc' & Hf').
        apply IH; assumption. }
    apply H; try reflexivity.
    unfold inertial_locals_init. cbn [local_f local_jac].
    unfold mat_vec. cbn [nrows ncols mzero coef].
    rewrite map_seq_ext with (h := fun _ => r0).
    + symmetry. apply map_const_seq.
    + intros i _. apply vsum_zero. intros j _. simpl. ring.
Qed.
End InertialJacobian.

Lemma inertial_force_is_jacobian_times_acceleration_witness :
  let el := Fixture.beam false false in
  let l := inertial_local el Fixture.ramp12 true in
  n_vars el = 6 /\
  (forall p t, nrows (inertia_matrix (_property el) p t) = 6) /\
  local_f l = mat_vec (local_jac l) Fixture.ramp12.
Proof.
  split; [reflexivity|]. split; [reflexivity|].
  apply (@inertial_force_is_jacobian_times_acceleration Z _ _
           (Fixture.beam false false) Fixture.ramp12 eq_refl (fun _ _ => eq_refl)).
Defined.

Section InertialCompletes.
Context {R : Type} {SR : Scalar R} {BM : BuildMode}.
Variable el : StructuralElementBase R.
Variable local_accel : list R.

Let n2 := 6 * length (get_phi (_fe el)).


End InertialCompletes.

